(** * A shallow embedding of the proxy pool service

    The development follows the Go sources package by package:
    - [models/proxy.go]   : the [Proxy] entity, its score, statistics, leases
                            and expiry, the dedup-insert, the clean-up jobs,
                            the pool optimisation and the [LoadBalancer];
    - [core/validator.go] : the canary probe loop of [ValidateProxy] and the
                            worker pool of [ValidateAll];
    - [core/scheduler.go] : the runtime maps, the qualification filter, the
                            selection strategies, and (in the same file) the
                            pool facade [ProxyPool];
    - [core/sources/paid] and the fetcher [ProxyFetcher] : the ingestion path.

    Conventions.
    - Go's [int] and [int64] are 64-bit two's complement integers: they are
      carried by [Z] and every arithmetic operation wraps ([wrap64]).
    - Go's [float64] is Rocq's primitive binary64 [float].
    - A [time.Time] is the number of nanoseconds elapsed since Go's zero
      instant, so the zero value of [time.Time] is [0].
    - A Go map is a [gmap]; reading a missing key yields the zero value.
    - The relational store reached through gorm is a table of live rows with
      its auto-increment counter.  Failures of the database driver (I/O
      errors) are not represented: a statement fails only for a reason the
      table itself gives, that is a primary key that is taken, a missing
      WHERE clause, or a column the table does not have. *)

From Stdlib Require Import ZArith Floats Lia.
From stdpp Require Import gmap strings list pretty sorting.

Set Warnings "-inexact-float".
Local Open Scope Z_scope.

(** ** Machine integers, durations and floats *)

Module GoInt.

Definition min_int : Z := - 2 ^ 63.
Definition max_int : Z := 2 ^ 63 - 1.

(** Reduction of a mathematical integer to the 64-bit signed range. *)
Definition wrap64 (z : Z) : Z := (z + 2 ^ 63) mod 2 ^ 64 - 2 ^ 63.

Definition in_range (z : Z) : Prop := min_int <= z <= max_int.

Definition add (a b : Z) : Z := wrap64 (a + b).
Definition sub (a b : Z) : Z := wrap64 (a - b).
Definition mul (a b : Z) : Z := wrap64 (a * b).

(** [a / b] on signed integers: truncation towards zero, and a run-time
    panic ("integer divide by zero") when [b = 0]. *)
Definition div (a b : Z) : option Z :=
  if decide (b = 0) then None else Some (wrap64 (Z.quot a b)).

(** [x++] *)
Definition incr (a : Z) : Z := add a 1.

(** [float64(n)]: the integer rounded to the nearest binary64. *)
Definition to_float64 (n : Z) : float :=
  SF2Prim (binary_normalize prec emax n 0 false).

End GoInt.

Module GoTime.

(** Nanoseconds since the zero instant of [time.Time]. *)
Definition Time : Type := Z.
(** [time.Duration]: a signed 64-bit count of nanoseconds. *)
Definition Duration : Type := Z.

Definition zero : Time := 0.

Definition Millisecond : Duration := 1000000.
Definition Second : Duration := 1000 * Millisecond.
Definition Minute : Duration := 60 * Second.
Definition Hour : Duration := 60 * Minute.

(** [t.Before(u)] *)
Definition Before (t u : Time) : bool := bool_decide (t < u).

(** [t.Add(d)] *)
Definition Add (t : Time) (d : Duration) : Time := t + d.

(** [t.Sub(u)]: the difference, saturated to the range of a Duration. *)
Definition Sub (t u : Time) : Duration :=
  Z.max GoInt.min_int (Z.min GoInt.max_int (t - u)).

(** [time.Since(t)] read at instant [now]. *)
Definition Since (now t : Time) : Duration := Sub now t.

(** [d.Milliseconds()] *)
Definition Milliseconds (d : Duration) : Z := Z.quot d 1000000.

End GoTime.

Module GoMath.

(** [math.Max], case by case as in Go's library. *)
Definition Max (x y : float) : float :=
  if (PrimFloat.is_infinity x && negb (PrimFloat.get_sign x))
     || (PrimFloat.is_infinity y && negb (PrimFloat.get_sign y))
  then infinity
  else if PrimFloat.is_nan x || PrimFloat.is_nan y then nan
  else if (x =? 0)%float && (x =? y)%float
  then (if PrimFloat.get_sign x then y else x)
  else if (y <? x)%float then x else y.

End GoMath.

(** ** models/proxy.go : the Proxy entity *)

Import GoTime.

Definition ProxyType : Type := string.
Definition ProxyTypeTemp : ProxyType := "temp".
Definition ProxyTypeLong : ProxyType := "long".
Definition ProxyTypeAnon : ProxyType := "anon".
Definition ProxyTypeHighAnon : ProxyType := "high_anon".

Definition ProxyRegion : Type := string.
Definition ProxyRegionCN : ProxyRegion := "cn".
Definition ProxyRegionOther : ProxyRegion := "other".

(** The struct [Proxy].  Of the embedded [gorm.Model] the primary key [ID]
    ([0] before the row is created) and [CreatedAt] are kept; [UpdatedAt] is
    bookkeeping of the ORM and soft-deleted rows are invisible to every query,
    so a deleted row is simply dropped from the table.  The in-memory mutex
    [mu] carries no data. *)
Record Proxy : Type := mkProxy {
  ID : N;
  CreatedAt : Time;
  IP : string;
  Port : Z;
  Type_ : ProxyType;
  Protocol : string;
  Region : ProxyRegion;
  Source : string;
  Anonymous : bool;
  Speed : Z;
  Success : Z;
  Failure : Z;
  Score : float;
  LastCheck : Time;
  Available : bool;
  UseCount : Z;
  ConcurrentUse : Z;
  MaxConcurrent : Z;
  LastUsedAt : Time;
  Version : Z;
  FailCount : Z;
}.

(** Field assignments [p.F = v]. *)
Definition set_ID v p := mkProxy v (CreatedAt p) (IP p) (Port p) (Type_ p) (Protocol p) (Region p) (Source p) (Anonymous p) (Speed p) (Success p) (Failure p) (Score p) (LastCheck p) (Available p) (UseCount p) (ConcurrentUse p) (MaxConcurrent p) (LastUsedAt p) (Version p) (FailCount p).
Definition set_CreatedAt v p := mkProxy (ID p) v (IP p) (Port p) (Type_ p) (Protocol p) (Region p) (Source p) (Anonymous p) (Speed p) (Success p) (Failure p) (Score p) (LastCheck p) (Available p) (UseCount p) (ConcurrentUse p) (MaxConcurrent p) (LastUsedAt p) (Version p) (FailCount p).
Definition set_Type v p := mkProxy (ID p) (CreatedAt p) (IP p) (Port p) v (Protocol p) (Region p) (Source p) (Anonymous p) (Speed p) (Success p) (Failure p) (Score p) (LastCheck p) (Available p) (UseCount p) (ConcurrentUse p) (MaxConcurrent p) (LastUsedAt p) (Version p) (FailCount p).
Definition set_Protocol v p := mkProxy (ID p) (CreatedAt p) (IP p) (Port p) (Type_ p) v (Region p) (Source p) (Anonymous p) (Speed p) (Success p) (Failure p) (Score p) (LastCheck p) (Available p) (UseCount p) (ConcurrentUse p) (MaxConcurrent p) (LastUsedAt p) (Version p) (FailCount p).
Definition set_Region v p := mkProxy (ID p) (CreatedAt p) (IP p) (Port p) (Type_ p) (Protocol p) v (Source p) (Anonymous p) (Speed p) (Success p) (Failure p) (Score p) (LastCheck p) (Available p) (UseCount p) (ConcurrentUse p) (MaxConcurrent p) (LastUsedAt p) (Version p) (FailCount p).
Definition set_Source v p := mkProxy (ID p) (CreatedAt p) (IP p) (Port p) (Type_ p) (Protocol p) (Region p) v (Anonymous p) (Speed p) (Success p) (Failure p) (Score p) (LastCheck p) (Available p) (UseCount p) (ConcurrentUse p) (MaxConcurrent p) (LastUsedAt p) (Version p) (FailCount p).
Definition set_Anonymous v p := mkProxy (ID p) (CreatedAt p) (IP p) (Port p) (Type_ p) (Protocol p) (Region p) (Source p) v (Speed p) (Success p) (Failure p) (Score p) (LastCheck p) (Available p) (UseCount p) (ConcurrentUse p) (MaxConcurrent p) (LastUsedAt p) (Version p) (FailCount p).
Definition set_Speed v p := mkProxy (ID p) (CreatedAt p) (IP p) (Port p) (Type_ p) (Protocol p) (Region p) (Source p) (Anonymous p) v (Success p) (Failure p) (Score p) (LastCheck p) (Available p) (UseCount p) (ConcurrentUse p) (MaxConcurrent p) (LastUsedAt p) (Version p) (FailCount p).
Definition set_Success v p := mkProxy (ID p) (CreatedAt p) (IP p) (Port p) (Type_ p) (Protocol p) (Region p) (Source p) (Anonymous p) (Speed p) v (Failure p) (Score p) (LastCheck p) (Available p) (UseCount p) (ConcurrentUse p) (MaxConcurrent p) (LastUsedAt p) (Version p) (FailCount p).
Definition set_Failure v p := mkProxy (ID p) (CreatedAt p) (IP p) (Port p) (Type_ p) (Protocol p) (Region p) (Source p) (Anonymous p) (Speed p) (Success p) v (Score p) (LastCheck p) (Available p) (UseCount p) (ConcurrentUse p) (MaxConcurrent p) (LastUsedAt p) (Version p) (FailCount p).
Definition set_Score v p := mkProxy (ID p) (CreatedAt p) (IP p) (Port p) (Type_ p) (Protocol p) (Region p) (Source p) (Anonymous p) (Speed p) (Success p) (Failure p) v (LastCheck p) (Available p) (UseCount p) (ConcurrentUse p) (MaxConcurrent p) (LastUsedAt p) (Version p) (FailCount p).
Definition set_LastCheck v p := mkProxy (ID p) (CreatedAt p) (IP p) (Port p) (Type_ p) (Protocol p) (Region p) (Source p) (Anonymous p) (Speed p) (Success p) (Failure p) (Score p) v (Available p) (UseCount p) (ConcurrentUse p) (MaxConcurrent p) (LastUsedAt p) (Version p) (FailCount p).
Definition set_Available v p := mkProxy (ID p) (CreatedAt p) (IP p) (Port p) (Type_ p) (Protocol p) (Region p) (Source p) (Anonymous p) (Speed p) (Success p) (Failure p) (Score p) (LastCheck p) v (UseCount p) (ConcurrentUse p) (MaxConcurrent p) (LastUsedAt p) (Version p) (FailCount p).
Definition set_MaxConcurrent v p := mkProxy (ID p) (CreatedAt p) (IP p) (Port p) (Type_ p) (Protocol p) (Region p) (Source p) (Anonymous p) (Speed p) (Success p) (Failure p) (Score p) (LastCheck p) (Available p) (UseCount p) (ConcurrentUse p) v (LastUsedAt p) (Version p) (FailCount p).
Definition set_FailCount v p := mkProxy (ID p) (CreatedAt p) (IP p) (Port p) (Type_ p) (Protocol p) (Region p) (Source p) (Anonymous p) (Speed p) (Success p) (Failure p) (Score p) (LastCheck p) (Available p) (UseCount p) (ConcurrentUse p) (MaxConcurrent p) (LastUsedAt p) (Version p) v.
Definition set_UseCount v p := mkProxy (ID p) (CreatedAt p) (IP p) (Port p) (Type_ p) (Protocol p) (Region p) (Source p) (Anonymous p) (Speed p) (Success p) (Failure p) (Score p) (LastCheck p) (Available p) v (ConcurrentUse p) (MaxConcurrent p) (LastUsedAt p) (Version p) (FailCount p).
Definition set_ConcurrentUse v p := mkProxy (ID p) (CreatedAt p) (IP p) (Port p) (Type_ p) (Protocol p) (Region p) (Source p) (Anonymous p) (Speed p) (Success p) (Failure p) (Score p) (LastCheck p) (Available p) (UseCount p) v (MaxConcurrent p) (LastUsedAt p) (Version p) (FailCount p).
Definition set_LastUsedAt v p := mkProxy (ID p) (CreatedAt p) (IP p) (Port p) (Type_ p) (Protocol p) (Region p) (Source p) (Anonymous p) (Speed p) (Success p) (Failure p) (Score p) (LastCheck p) (Available p) (UseCount p) (ConcurrentUse p) (MaxConcurrent p) v (Version p) (FailCount p).
Definition set_IP v p := mkProxy (ID p) (CreatedAt p) v (Port p) (Type_ p) (Protocol p) (Region p) (Source p) (Anonymous p) (Speed p) (Success p) (Failure p) (Score p) (LastCheck p) (Available p) (UseCount p) (ConcurrentUse p) (MaxConcurrent p) (LastUsedAt p) (Version p) (FailCount p).
Definition set_Port v p := mkProxy (ID p) (CreatedAt p) (IP p) v (Type_ p) (Protocol p) (Region p) (Source p) (Anonymous p) (Speed p) (Success p) (Failure p) (Score p) (LastCheck p) (Available p) (UseCount p) (ConcurrentUse p) (MaxConcurrent p) (LastUsedAt p) (Version p) (FailCount p).
Definition set_Version v p := mkProxy (ID p) (CreatedAt p) (IP p) (Port p) (Type_ p) (Protocol p) (Region p) (Source p) (Anonymous p) (Speed p) (Success p) (Failure p) (Score p) (LastCheck p) (Available p) (UseCount p) (ConcurrentUse p) (MaxConcurrent p) (LastUsedAt p) v (FailCount p).

(** [GetSuccessRate] *)
Definition GetSuccessRate (p : Proxy) : float :=
  let total := GoInt.add (Success p) (Failure p) in
  if decide (total = 0) then 0%float
  else (GoInt.to_float64 (Success p) / GoInt.to_float64 total * 100)%float.

(** [UpdateScore]: 70% success rate, 30% speed score. *)
Definition UpdateScore (p : Proxy) : Proxy :=
  let successRate := GetSuccessRate p in
  let speedScore :=
    if decide (Speed p > 0)
    then GoMath.Max 0 (100 - GoInt.to_float64 (Speed p) / 10)%float
    else 100%float in
  set_Score (successRate * 0.7 + speedScore * 0.3)%float p.

(** The result of running a piece of Go code in one goroutine: it returns,
    it panics, or it parks for ever on a mutex. *)
Inductive Outcome (A : Type) : Type :=
  | Returns (a : A)
  | Panics
  | Blocks.
Arguments Returns {A} a.
Arguments Panics {A}.
Arguments Blocks {A}.

#[global] Instance outcome_ret : MRet Outcome := @Returns.
#[global] Instance outcome_bind : MBind Outcome := λ A B k m,
  match m with
  | Returns a => k a
  | Panics => Panics
  | Blocks => Blocks
  end.

(** [UpdateStats].  The entity's own mutex is free whenever the method is
    entered from sequential code, so the lock and deferred unlock are
    transparent; the integer division is the only step that can fail. *)
Definition UpdateStats (p : Proxy) (success : bool) (speed : Z) (now : Time)
  : Outcome Proxy :=
  p1 ← (if success then
          let p' := set_Success (GoInt.incr (Success p)) p in
          if decide (Speed p' = 0) then Returns (set_Speed speed p')
          else
            match GoInt.div
                    (GoInt.add (GoInt.mul (Speed p') (GoInt.sub (UseCount p') 1)) speed)
                    (UseCount p') with
            | Some q => Returns (set_Speed q p')
            | None => Panics
            end
        else Returns (set_Failure (GoInt.incr (Failure p)) p));
  Returns (UpdateScore (set_LastCheck now p1)).

(** [AcquireProxy]: the struct after the call and the verdict.  As in
    [UpdateStats] the entity's own mutex is transparent. *)
Definition AcquireProxy (p : Proxy) (now : Time) : Proxy * bool :=
  if negb (Available p) || bool_decide (MaxConcurrent p <= ConcurrentUse p)
  then (p, false)
  else
    let p := set_ConcurrentUse (GoInt.incr (ConcurrentUse p)) p in
    let p := set_LastUsedAt now p in
    let p := set_UseCount (GoInt.incr (UseCount p)) p in
    (p, true).

(** [ReleaseProxy] *)
Definition ReleaseProxy (p : Proxy) : Proxy :=
  if decide (0 < ConcurrentUse p)
  then set_ConcurrentUse (GoInt.sub (ConcurrentUse p) 1) p
  else p.

(** [IsExpired], with the reading [now] of the clock. *)
Definition IsExpired (p : Proxy) (now : Time) : bool :=
  if decide (Type_ p = ProxyTypeTemp)
  then bool_decide (30 * Minute < Since now (LastCheck p))
  else if decide (Type_ p = ProxyTypeLong)
  then bool_decide (24 * Hour < Since now (LastCheck p))
  else bool_decide (1 * Hour < Since now (LastCheck p)).

(** ** The table [proxies] behind gorm *)

(** A row of the table.  [AutoMigrate(&Proxy{})] is the only code that shapes
    the table, so the table has one column for every field of the struct
    (the mutex apart) and no other column. *)
Abbreviation Row := Proxy.

Record Store : Type := mkStore {
  rows : list Row;        (* live rows, in insertion order *)
  lastID : N;             (* last auto-increment value handed out *)
}.

Definition with_rows (st : Store) (rs : list Row) : Store :=
  mkStore rs (lastID st).

Definition row_id (r : Row) : N := ID r.

Definition has_id (id : N) (r : Row) : bool := bool_decide (row_id r = id).

Definition same_endpoint (ip : string) (port : Z) (r : Row) : bool :=
  bool_decide (IP r = ip) && bool_decide (Port r = port).

(** *** Statements written in SQL text *)

(** Some statements of the program carry their condition, their ordering or
    their assignments as text that names columns.  The database resolves
    every name against the table before it reads a row. *)
Inductive Value : Type :=
  | VInt (n : Z)
  | VFloat (x : float)
  | VBool (b : bool)
  | VString (s : string)
  | VTime (t : Time).

Record Column : Type := mkColumn {
  column_name : string;
  column_get : Row → Value;
  column_set : Value → Row → Row;   (* a value of another type is not stored *)
}.

Definition int_column (name : string) (get : Row → Z) (set : Z → Row → Row) : Column :=
  mkColumn name (λ r, VInt (get r))
           (λ v r, match v with VInt n => set n r | _ => r end).
Definition float_column (name : string) (get : Row → float)
    (set : float → Row → Row) : Column :=
  mkColumn name (λ r, VFloat (get r))
           (λ v r, match v with VFloat x => set x r | _ => r end).
Definition bool_column (name : string) (get : Row → bool)
    (set : bool → Row → Row) : Column :=
  mkColumn name (λ r, VBool (get r))
           (λ v r, match v with VBool b => set b r | _ => r end).
Definition string_column (name : string) (get : Row → string)
    (set : string → Row → Row) : Column :=
  mkColumn name (λ r, VString (get r))
           (λ v r, match v with VString x => set x r | _ => r end).
Definition time_column (name : string) (get : Row → Time)
    (set : Time → Row → Row) : Column :=
  mkColumn name (λ r, VTime (get r))
           (λ v r, match v with VTime t => set t r | _ => r end).

(** The columns of [proxies]: the fields of the struct [Proxy] under gorm's
    naming (snake case).  The columns [updated_at] and [deleted_at] of the
    embedded [gorm.Model] are left out with their fields. *)
Definition proxies_columns : list Column :=
  [ int_column "id" (λ r, Z.of_N (ID r)) (λ n, set_ID (Z.to_N n));
    time_column "created_at" CreatedAt set_CreatedAt;
    string_column "ip" IP set_IP;
    int_column "port" Port set_Port;
    string_column "type" Type_ set_Type;
    string_column "protocol" Protocol set_Protocol;
    string_column "region" Region set_Region;
    string_column "source" Source set_Source;
    bool_column "anonymous" Anonymous set_Anonymous;
    int_column "speed" Speed set_Speed;
    int_column "success" Success set_Success;
    int_column "failure" Failure set_Failure;
    float_column "score" Score set_Score;
    time_column "last_check" LastCheck set_LastCheck;
    bool_column "available" Available set_Available;
    int_column "use_count" UseCount set_UseCount;
    int_column "concurrent_use" ConcurrentUse set_ConcurrentUse;
    int_column "max_concurrent" MaxConcurrent set_MaxConcurrent;
    time_column "last_used_at" LastUsedAt set_LastUsedAt;
    int_column "version" Version set_Version;
    int_column "fail_count" FailCount set_FailCount ].

Definition column (name : string) : option Column :=
  List.find (λ c, bool_decide (column_name c = name)) proxies_columns.

(** The errors a statement can end with. *)
Inductive DBError : Type :=
  | UnknownColumn (name : string)   (* MySQL error 1054 *)
  | MissingWhereClause.             (* gorm.ErrMissingWhereClause *)

(** The first name the table does not have, as the error of the statement. *)
Definition resolve (names : list string) : option DBError :=
  UnknownColumn <$> List.find (λ n, bool_decide (column n = None)) names.

(** Comparison of two values of one type; [None] when they have no order
    (a NaN) or differ in type. *)
Definition value_compare (v w : Value) : option comparison :=
  match v, w with
  | VInt a, VInt b => Some (a ?= b)
  | VTime a, VTime b => Some (a ?= b)
  | VBool a, VBool b => Some (Z.b2z a ?= Z.b2z b)
  | VString a, VString b => Some (String.compare a b)
  | VFloat a, VFloat b =>
      if (a <? b)%float then Some Lt
      else if (a =? b)%float then Some Eq
      else if (b <? a)%float then Some Gt
      else None
  | _, _ => None
  end.

Inductive CmpOp : Type := OpLt | OpGt | OpGe | OpEq | OpNe.

Definition op_holds (op : CmpOp) (o : comparison) : bool :=
  match op, o with
  | OpLt, Lt | OpGt, Gt | OpGe, Gt | OpGe, Eq | OpEq, Eq | OpNe, Lt | OpNe, Gt => true
  | _, _ => false
  end.

(** A condition [column op ?], and conditions joined by AND and OR. *)
Inductive Cond : Type :=
  | Cmp (name : string) (op : CmpOp) (v : Value)
  | CAnd (c d : Cond)
  | COr (c d : Cond).

Fixpoint cond_columns (c : Cond) : list string :=
  match c with
  | Cmp name _ _ => [name]
  | CAnd c d | COr c d => cond_columns c ++ cond_columns d
  end.

Fixpoint cond_holds (c : Cond) (r : Row) : bool :=
  match c with
  | Cmp name op v =>
      match column name with
      | Some col =>
          match value_compare (column_get col r) v with
          | Some o => op_holds op o
          | None => false
          end
      | None => false
      end
  | CAnd c d => cond_holds c r && cond_holds d r
  | COr c d => cond_holds c r || cond_holds d r
  end.

(** ORDER BY: the keys in turn, each a column and whether it is DESC.  Rows
    that tie on every key stay in table order (SQL leaves their order
    open). *)
Fixpoint order_leb (keys : list (string * bool)) (r1 r2 : Row) : bool :=
  match keys with
  | [] => true
  | (name, desc) :: rest =>
      match column name with
      | Some col =>
          match value_compare (column_get col r1) (column_get col r2) with
          | Some Lt => negb desc
          | Some Gt => desc
          | _ => order_leb rest r1 r2
          end
      | None => order_leb rest r1 r2
      end
  end.

Definition db_Order (keys : list (string * bool)) (rs : list Row) : list Row :=
  merge_sort (λ r1 r2, Is_true (order_leb keys r1 r2)) rs.

(** [Limit(n)]: a negative [n] emits no LIMIT clause. *)
Definition db_Limit (limit : Z) (rs : list Row) : list Row :=
  if decide (limit < 0) then rs else take (Z.to_nat limit) rs.

(** SET: the assignments in turn. *)
Definition assign (values : list (string * Value)) (r : Row) : Row :=
  foldl (λ r nv, match column nv.1 with
                 | Some col => column_set col nv.2 r
                 | None => r
                 end) r values.

(** *** Statements *)

(** [db.Find(&proxies)] *)
Definition db_Find (st : Store) : list Proxy := rows st.

(** [db.First(&proxy, id)]: [None] is gorm's record-not-found error. *)
Definition db_First (st : Store) (id : N) : option Proxy :=
  List.find (has_id id) (rows st).

(** The hook [BeforeCreate]. *)
Definition BeforeCreate (now : Time) (p : Proxy) : Proxy :=
  let p := if decide (MaxConcurrent p = 0) then set_MaxConcurrent 10 p else p in
  set_LastCheck now p.

(** On INSERT gorm replaces the zero value of a field tagged [default:v] by
    [v], in the statement and in the struct.  The only tags of [Proxy] whose
    default differs from the zero value are [Available] ([default:true]) and
    [MaxConcurrent] ([default:10]). *)
Definition apply_defaults (p : Proxy) : Proxy :=
  let p := if Available p then p else set_Available true p in
  if decide (MaxConcurrent p = 0) then set_MaxConcurrent 10 p else p.

(** What gorm has written to the struct by the time it sends the INSERT:
    the defaults and the creation time. *)
Definition create_values (p : Proxy) (now : Time) : Proxy :=
  let p := apply_defaults p in
  if decide (CreatedAt p = GoTime.zero) then set_CreatedAt now p else p.

(** The INSERT itself: a zero primary key receives the next auto-increment
    value, an explicit one is refused when the key is taken. *)
Definition insert_row (st : Store) (p : Proxy) (now : Time)
  : option (Store * Proxy) :=
  let p := create_values p now in
  if decide (ID p = 0%N) then
    let id := (lastID st + 1)%N in
    let p := set_ID id p in
    Some (mkStore (rows st ++ [p]) id, p)
  else if existsb (has_id (ID p)) (rows st) then None
  else
    Some (mkStore (rows st ++ [p]) (N.max (lastID st) (ID p)), p).

(** [db.Create(proxy)]: [None] is a duplicate primary key. *)
Definition db_Create (st : Store) (p : Proxy) (now : Time)
  : option (Store * Proxy) :=
  insert_row st (BeforeCreate now p) now.

(** The struct behind the pointer after a [db.Create(proxy)] that was
    refused: the hook and gorm have written to it before the INSERT was
    sent. *)
Definition db_Create_refused (p : Proxy) (now : Time) : Proxy :=
  create_values (BeforeCreate now p) now.

Definition write_struct (p : Proxy) (r : Row) : Row :=
  if has_id (ID p) r then p else r.

(** [db.Save(proxy)]: INSERT when the primary key is zero; otherwise UPDATE
    of every struct field, and when no live row carries the key an INSERT
    without hooks (gorm's upsert fallback). *)
Definition db_Save (st : Store) (p : Proxy) (now : Time) : Store * Proxy :=
  if decide (ID p = 0%N) then
    match db_Create st p now with
    | Some r => r
    | None => (st, p)
    end
  else if existsb (has_id (ID p)) (rows st) then
    (with_rows st (write_struct p <$> rows st), p)
  else
    match insert_row st p now with
    | Some r => r
    | None => (st, p)
    end.

(** [db.Delete(proxy)]: with a zero primary key gorm refuses the statement
    (missing WHERE clause) and the table is unchanged. *)
Definition db_Delete (st : Store) (p : Proxy) : Store :=
  if decide (ID p = 0%N) then st
  else with_rows st (List.filter (λ r, negb (has_id (ID p) r)) (rows st)).

(** DELETE ... WHERE cond, for a condition on columns the table has. *)
Definition db_Delete_where (cond : Row → bool) (st : Store) : Store :=
  with_rows st (List.filter (λ r, negb (cond r)) (rows st)).

(** UPDATE ... SET ... WHERE cond, likewise. *)
Definition db_Update_where (cond : Row → bool) (f : Row → Row) (st : Store) : Store :=
  with_rows st ((λ r, if cond r then f r else r) <$> rows st).

(** [db.Delete(&Proxy{}, text, args...)] *)
Definition db_Delete_cond (c : Cond) (st : Store) : Store * option DBError :=
  match resolve (cond_columns c) with
  | Some err => (st, Some err)
  | None => (db_Delete_where (cond_holds c) st, None)
  end.

(** [db.Where(text, args...).Order(text).Limit(n).Find(&proxies)]: on an
    error the slice stays empty. *)
Definition db_Where_Order_Limit_Find (c : Cond) (keys : list (string * bool))
    (limit : Z) (st : Store) : list Proxy * option DBError :=
  match resolve (cond_columns c ++ keys.*1) with
  | Some err => ([], Some err)
  | None =>
      (db_Limit limit (db_Order keys (List.filter (cond_holds c) (rows st))), None)
  end.

(** [db.Model(proxy).Updates(map)]: UPDATE ... SET the entries of the map
    WHERE id = the key of [proxy].  With a zero key gorm refuses the
    statement; a key of the map that is no field of the struct is passed on
    as a column name. *)
Definition db_Model_Updates (proxy : Proxy) (values : list (string * Value))
    (st : Store) : Store * option DBError :=
  if decide (ID proxy = 0%N) then (st, Some MissingWhereClause)
  else
    match resolve values.*1 with
    | Some err => (st, Some err)
    | None => (db_Update_where (has_id (ID proxy)) (assign values) st, None)
    end.

(** [IsProxyExists] *)
Definition IsProxyExists (st : Store) (ip : string) (port : Z) : bool :=
  existsb (same_endpoint ip port) (rows st).

(** The column map of the collision branch of
    [BatchCreateWithDuplicateCheck]: type, protocol, region, source,
    anonymous. *)
Definition refresh_descriptive (c : Proxy) (p : Proxy) : Proxy :=
  set_Anonymous (Anonymous c)
    (set_Source (Source c)
       (set_Region (Region c)
          (set_Protocol (Protocol c)
             (set_Type (Type_ c) p)))).

(** One iteration of the loop of [BatchCreateWithDuplicateCheck]. *)
Definition upsert_one (st : Store) (proxy : Proxy) (now : Time)
  : option (Store * Proxy) :=
  if IsProxyExists st (IP proxy) (Port proxy) then
    Some (db_Update_where (same_endpoint (IP proxy) (Port proxy))
                          (refresh_descriptive proxy) st, proxy)
  else db_Create st proxy now.

(** The body of the transaction: the rows in slice order, stopping at the
    first failing statement.  The second component is the slice of structs
    as the statements left them. *)
Fixpoint upsert_loop (st : Store) (proxies : list Proxy) (now : Time)
  : option (Store * list Proxy) :=
  match proxies with
  | [] => Some (st, [])
  | proxy :: rest =>
      match upsert_one st proxy now with
      | None => None
      | Some (st1, proxy1) =>
          match upsert_loop st1 rest now with
          | None => None
          | Some (st2, rest2) => Some (st2, proxy1 :: rest2)
          end
      end
  end.

(** The structs behind the slice after the loop, also when a statement was
    refused: the statements before it and the refused INSERT have written to
    their structs, and a rollback does not take that back. *)
Fixpoint upsert_structs (st : Store) (proxies : list Proxy) (now : Time)
  : list Proxy :=
  match proxies with
  | [] => []
  | proxy :: rest =>
      match upsert_one st proxy now with
      | None => db_Create_refused proxy now :: rest
      | Some (st1, proxy1) => proxy1 :: upsert_structs st1 rest now
      end
  end.

(** [BatchCreateWithDuplicateCheck]: the loop inside [db.Transaction]; a
    failing statement rolls the table back.  The result is the table, the
    structs behind the slice as the statements left them, and whether [nil]
    was returned. *)
Definition BatchCreateWithDuplicateCheck (st : Store) (proxies : list Proxy)
    (now : Time) : Store * list Proxy * bool :=
  match proxies with
  | [] => (st, [], true)
  | _ =>
      match upsert_loop st proxies now with
      | Some (st', proxies') => (st', proxies', true)
      | None => (st, upsert_structs st proxies now, false)
      end
  end.

(** [OptimizePool].  The condition of its DELETE is
    ["score < ? OR success_rate < ?"] with the arguments 30.0 and 20.0. *)
Definition low_quality : Cond :=
  COr (Cmp "score" OpLt (VFloat 30)) (Cmp "success_rate" OpLt (VFloat 20)).

Definition high_score (r : Row) : bool := (80 <=? Score r)%float.

Definition rescore_all (st : Store) (proxies : list Proxy) (now : Time) : Store :=
  foldl (λ st p, (db_Save st (UpdateScore p) now).1) st proxies.

Definition OptimizePool (st : Store) (now : Time) : Store * option DBError :=
  match db_Delete_cond low_quality st with
  | (st1, Some err) => (st1, Some err)
  | (st1, None) =>
      let proxies := db_Find st1 in
      let st2 := rescore_all st1 proxies now in
      (db_Update_where high_score (set_MaxConcurrent 20) st2, None)
  end.

(** [BatchDelete]: [db.Delete(&Proxy{}, ids)] is DELETE ... WHERE id IN ids. *)
Definition BatchDelete (st : Store) (ids : list N) : Store :=
  match ids with
  | [] => st
  | _ => db_Delete_where (λ r, bool_decide (row_id r ∈ ids)) st
  end.

(** [CleanupExpired] of package models.  Every call of [IsExpired] reads the
    clock anew: [clock p] is the reading taken while [p] is examined. *)
Definition CleanupExpired (st : Store) (clock : Proxy → Time) : Store :=
  let proxies := db_Find st in
  let expiredIDs := ID <$> List.filter (λ p, IsExpired p (clock p)) proxies in
  match expiredIDs with
  | [] => st
  | _ => BatchDelete st expiredIDs
  end.

(** [CleanupInvalid].  The condition of its DELETE is
    ["success_rate < ? OR (speed > ? AND speed != 0)"] with the arguments
    20.0 and 5000. *)
Definition invalid : Cond :=
  COr (Cmp "success_rate" OpLt (VFloat 20))
      (CAnd (Cmp "speed" OpGt (VInt 5000)) (Cmp "speed" OpNe (VInt 0))).

Definition CleanupInvalid (st : Store) : Store * option DBError :=
  db_Delete_cond invalid st.

(** [ReleaseScheduledProxy]: release, record the outcome, save.  [now] is
    the reading of the clock inside [UpdateStats], [t_save] the one inside
    the store statement. *)
Definition ReleaseScheduledProxy (st : Store) (proxy : Proxy) (success : bool)
    (speed : Z) (now t_save : Time) : Outcome (Store * Proxy) :=
  proxy ← UpdateStats (ReleaseProxy proxy) success speed now;
  Returns (db_Save st proxy t_save).

(** ** models/proxy.go : the round-robin [LoadBalancer] *)

(** The struct [ScheduleOptions]; three of its fields share their name with
    fields declared above and carry the prefix [opts_]. *)
Record ScheduleOptions : Type := mkScheduleOptions {
  PreferredType : ProxyType;
  PreferredRegion : ProxyRegion;
  opts_MinScore : float;
  opts_MaxResponseTime : Z;
  opts_RequireAnon : bool;
}.

(** The WHERE clause that [refreshProxyCache] builds from the options. *)
Definition matches (opts : ScheduleOptions) (p : Row) : bool :=
  Available p
  && (bool_decide (PreferredType opts = "") || bool_decide (Type_ p = PreferredType opts))
  && (bool_decide (PreferredRegion opts = "") || bool_decide (Region p = PreferredRegion opts))
  && (negb (0 <? opts_MinScore opts)%float || (opts_MinScore opts <=? Score p)%float)
  && (negb (bool_decide (0 < opts_MaxResponseTime opts))
      || bool_decide (Speed p <= opts_MaxResponseTime opts))
  && (negb (opts_RequireAnon opts) || Anonymous p).

(** The struct [LoadBalancer].  The cache holds pointers: the struct that
    [GetProxy] hands out is the one in the cache, so what [AcquireProxy]
    writes is written to the cache entry. *)
Record LoadBalancer : Type := mkLoadBalancer {
  opts : ScheduleOptions;
  proxyCache : list Proxy;
  currentIdx : Z;
  lastRefresh : Time;
}.

Definition NewLoadBalancer (opts : ScheduleOptions) : LoadBalancer :=
  mkLoadBalancer opts [] 0 GoTime.zero.

Definition set_proxyCache v lb := mkLoadBalancer (opts lb) v (currentIdx lb) (lastRefresh lb).
Definition set_currentIdx v lb := mkLoadBalancer (opts lb) (proxyCache lb) v (lastRefresh lb).

Section LoadBalancing.

(** ORDER BY score DESC as the database carries it out; rows with equal
    scores come in an order the database chooses. *)
Variable order_by_score : list Row → list Row.

(** [refreshProxyCache] *)
Definition refreshProxyCache (lb : LoadBalancer) (st : Store) (now : Time)
  : LoadBalancer :=
  mkLoadBalancer (opts lb)
    (order_by_score (List.filter (matches (opts lb)) (rows st)))
    0 now.

(** The [for] loop of [GetProxy], for at most [fuel] passes; [None] when the
    loop is still running after them.  [clock k] is the reading of the clock
    in pass [k] (a pass reads it once: in [AcquireProxy], or in the refresh
    that follows a refusal).  A panic is an integer division by zero or an
    index out of range. *)
Fixpoint GetProxy_loop (fuel : nat) (k : nat) (lb : LoadBalancer) (st : Store)
    (startIdx : Z) (clock : nat → Time)
  : option (Outcome (option Proxy * LoadBalancer)) :=
  match fuel with
  | O => None
  | S fuel =>
      let n := Z.of_nat (length (proxyCache lb)) in
      if decide (n = 0) then Some Panics
      else
        let lb := set_currentIdx (Z.rem (GoInt.add (currentIdx lb) 1) n) lb in
        if decide (currentIdx lb < 0) then Some Panics
        else
          match proxyCache lb !! Z.to_nat (currentIdx lb) with
          | None => Some Panics
          | Some proxy =>
              let '(proxy, ok) := AcquireProxy proxy (clock k) in
              if ok then
                Some (Returns
                        (Some proxy,
                         set_proxyCache
                           (<[Z.to_nat (currentIdx lb) := proxy]> (proxyCache lb)) lb))
              else if decide (currentIdx lb = startIdx) then
                let lb := refreshProxyCache lb st (clock k) in
                match proxyCache lb with
                | [] => Some (Returns (None, lb))
                | _ => GetProxy_loop fuel (S k) lb st startIdx clock
                end
              else GetProxy_loop fuel (S k) lb st startIdx clock
          end
  end.

(** [GetProxy]: [t_entry] is the reading of the clock in [time.Since], and
    [clock 0] the one in the refresh on entry.  The result is the proxy, or
    [None] for the error "no available proxy", and the balancer. *)
Definition GetProxy (fuel : nat) (lb : LoadBalancer) (st : Store) (t_entry : Time)
    (clock : nat → Time) : option (Outcome (option Proxy * LoadBalancer)) :=
  let lb :=
    if bool_decide (5 * Minute < Since t_entry (lastRefresh lb))
       || bool_decide (length (proxyCache lb) = 0%nat)
    then refreshProxyCache lb st (clock 0%nat)
    else lb in
  match proxyCache lb with
  | [] => Some (Returns (None, lb))
  | _ => GetProxy_loop fuel 1 lb st (currentIdx lb) clock
  end.

End LoadBalancing.

(** ** core/validator.go *)

(** What [client.Get(testURL)] yields through the proxy under test. *)
Inductive Response : Type :=
  | GetError                 (* transport error or timeout *)
  | GetStatus (code : Z).    (* a response carrying this status code *)

Definition StatusOK : Z := 200.

Record ProxyValidator : Type := mkValidator {
  maxWorkers : Z;
  timeout : Duration;
  testURLs : list string;
  maxFailCount : Z;
}.

Definition NewProxyValidator (maxFail : Z) : ProxyValidator :=
  mkValidator 50 (5 * Second)
    ["http://www.baidu.com"; "https://store.steampowered.com"] maxFail.

(** The readings of [time.Now()] during one call of [ValidateProxy], in
    program order: before the probe loop, at [time.Since] after it, at the
    assignment of [LastCheck], and inside the store statement. *)
Record Clock : Type := mkClock {
  t_start : Time;
  t_done : Time;
  t_check : Time;
  t_store : Time;
}.

(** [fmt.Sprintf("%s://%s:%d", proxy.Protocol, proxy.IP, proxy.Port)] *)
Definition proxyURL (p : Proxy) : string :=
  Protocol p +:+ "://" +:+ IP p +:+ ":" +:+ pretty (Port p).

(** The probe loop: the canaries in slice order, leaving at the first
    response whose status is [http.StatusOK].  The second component lists
    the URLs that were requested. *)
Fixpoint probe_loop (get : string → Response) (urls : list string)
  : bool * list string :=
  match urls with
  | [] => (false, [])
  | testURL :: rest =>
      match get testURL with
      | GetError =>
          let '(ok, asked) := probe_loop get rest in (ok, testURL :: asked)
      | GetStatus code =>
          if decide (code = StatusOK) then (true, [testURL])
          else let '(ok, asked) := probe_loop get rest in (ok, testURL :: asked)
      end
  end.

(** The status classes of the claims. *)
Definition is_2xx (r : Response) : bool :=
  match r with
  | GetError => false
  | GetStatus code => bool_decide (200 <= code < 300)
  end.

Definition is_200 (r : Response) : bool :=
  match r with
  | GetError => false
  | GetStatus code => bool_decide (code = StatusOK)
  end.

Section Validator.

(** [url.Parse] of the standard library, as the test "no error". *)
Variable url_Parse : string → bool.

(** [ValidateProxy]: the table, the struct behind the pointer, and whether
    the returned error is [nil]. *)
Definition ValidateProxy (v : ProxyValidator) (st : Store) (proxy : Proxy)
    (get : string → Response) (clk : Clock) : Store * Proxy * bool :=
  if negb (url_Parse (proxyURL proxy)) then (st, proxy, false)
  else
    let success := (probe_loop get (testURLs v)).1 in
    let responseTime := Milliseconds (Since (t_done clk) (t_start clk)) in
    let proxy := set_LastCheck (t_check clk) proxy in
    let proxy := set_Speed responseTime proxy in
    let proxy := set_Available success proxy in
    if success then
      let proxy := set_FailCount 0 proxy in
      let '(st', proxy') := db_Save st proxy (t_store clk) in
      (st', proxy', true)
    else
      let proxy := set_FailCount (GoInt.incr (FailCount proxy)) proxy in
      if decide (maxFailCount v <= FailCount proxy) then
        (db_Delete st proxy, proxy, negb (bool_decide (ID proxy = 0%N)))
      else
        let '(st', proxy') := db_Save st proxy (t_store clk) in
        (st', proxy', true).

(** The first and second components of three calls in a row on the same
    struct, each with its own network answers and clock readings. *)
Definition validate_thrice (v : ProxyValidator) (st : Store) (p : Proxy)
    (g1 g2 g3 : string → Response) (c1 c2 c3 : Clock) : Store * Proxy :=
  let r1 := ValidateProxy v st p g1 c1 in
  let r2 := ValidateProxy v r1.1.1 r1.1.2 g2 c2 in
  let r3 := ValidateProxy v r2.1.1 r2.1.2 g3 c3 in
  r3.1.

(** Any number of calls in a row on the same struct; [rounds] lists the
    network answers and clock readings of each call. *)
Fixpoint validate_rounds (v : ProxyValidator) (st : Store) (p : Proxy)
    (rounds : list ((string → Response) * Clock)) : Store * Proxy :=
  match rounds with
  | [] => (st, p)
  | (get, clk) :: rest =>
      let r := ValidateProxy v st p get clk in
      validate_rounds v r.1.1 r.1.2 rest
  end.

(** [ValidateAll].  The rows are loaded once and handed to a pool of
    [min maxWorkers total] workers, each of which calls [ValidateProxy] on
    the structs it receives.  A call touches the table in one statement, its
    last; so a run is described by the order [schedule] in which the calls
    reach the table (a rearrangement of the loaded structs) and by what the
    network and the clock present to each call.  The counters of the summary
    are logged, not returned. *)
Definition ValidateAll (v : ProxyValidator) (st : Store)
    (schedule : list Proxy) (world : Proxy → (string → Response) * Clock) : Store :=
  let proxies := db_Find st in
  let totalCount := Z.of_nat (length proxies) in
  if decide (totalCount = 0) then st
  else
    let workerCount :=
      if decide (totalCount < maxWorkers v) then totalCount else maxWorkers v in
    if decide (workerCount <= 0) then st
    else
      foldl (λ st proxy,
               (ValidateProxy v st proxy (world proxy).1 (world proxy).2).1.1)
            st schedule.

End Validator.

(** ** The pool facade [ProxyPool] : the statements the scheduler relies on *)

(** [GetProxies]: the condition is ["type = ? AND available = ?"] with the
    arguments [proxyType] and [true], the ordering
    ["success_rate DESC, speed ASC"]. *)
Definition GetProxies (st : Store) (proxyType : ProxyType) (limit : Z)
  : list Proxy * option DBError :=
  db_Where_Order_Limit_Find
    (CAnd (Cmp "type" OpEq (VString proxyType)) (Cmp "available" OpEq (VBool true)))
    [("success_rate", true); ("speed", false)] limit st.

(** [RemoveProxy]: [db.Delete(&models.Proxy{}, proxyID)]. *)
Definition RemoveProxy (st : Store) (proxyID : N) : Store :=
  db_Delete_where (has_id proxyID) st.

(** [CleanupExpired] of the pool facade: the rows are loaded once, then the
    expired ones are removed one statement at a time. *)
Definition ProxyPool_CleanupExpired (st : Store) (clock : Proxy → Time) : Store :=
  foldl (λ st proxy,
           if IsExpired proxy (clock proxy) then RemoveProxy st (ID proxy) else st)
        st (db_Find st).

(** [calculateSuccessRate] *)
Definition calculateSuccessRate (proxy : Proxy) (success : bool) : float :=
  let currentRate := GetSuccessRate proxy in
  if success then (currentRate * 0.8 + 100 * 0.2)%float
  else (currentRate * 0.8)%float.

(** [UpdateProxyStatus]: one UPDATE that sets available, speed, last_check
    and success_rate in the row of [proxy].  The pool's own mutex is taken
    and released inside the call and never nested. *)
Definition UpdateProxyStatus (st : Store) (proxy : Proxy) (available : bool)
    (speed : Z) (now : Time) : Store * option DBError :=
  db_Model_Updates proxy
    [("available", VBool available);
     ("speed", VInt speed);
     ("last_check", VTime now);
     ("success_rate", VFloat (calculateSuccessRate proxy available))]
    st.

(** ** core/scheduler.go *)

(** [sync.RWMutex], seen from one goroutine: the number of read locks held
    and whether the write lock is held.  A request that cannot be granted
    parks the goroutine; since the holder is the goroutine itself, for ever. *)
Record RWMutex : Type := mkRWMutex {
  readers : nat;
  writer : bool;
}.

Definition RWMutex_free : RWMutex := mkRWMutex 0 false.

Definition RLock (m : RWMutex) : Outcome RWMutex :=
  if writer m then Blocks else Returns (mkRWMutex (S (readers m)) false).

Definition RUnlock (m : RWMutex) : RWMutex :=
  mkRWMutex (pred (readers m)) (writer m).

Definition Lock (m : RWMutex) : Outcome RWMutex :=
  if writer m || negb (Nat.eqb (readers m) 0) then Blocks
  else Returns (mkRWMutex 0 true).

Definition Unlock (m : RWMutex) : RWMutex := mkRWMutex (readers m) false.

Record ProxyScheduler : Type := mkScheduler {
  mu : RWMutex;
  lastUsed : gmap N Time;
  useCount : gmap N Z;
  failCount : gmap N Z;
  weights : gmap N float;
  cooldown : gmap N Time;
}.

Definition NewProxyScheduler : ProxyScheduler :=
  mkScheduler RWMutex_free ∅ ∅ ∅ ∅ ∅.

Definition set_mu v s := mkScheduler v (lastUsed s) (useCount s) (failCount s) (weights s) (cooldown s).
Definition set_lastUsed v s := mkScheduler (mu s) v (useCount s) (failCount s) (weights s) (cooldown s).
Definition set_useCount v s := mkScheduler (mu s) (lastUsed s) v (failCount s) (weights s) (cooldown s).
Definition set_failCount v s := mkScheduler (mu s) (lastUsed s) (useCount s) v (weights s) (cooldown s).
Definition set_weights v s := mkScheduler (mu s) (lastUsed s) (useCount s) (failCount s) v (cooldown s).
Definition set_cooldown v s := mkScheduler (mu s) (lastUsed s) (useCount s) (failCount s) (weights s) v.

(** Reading a Go map: the zero value for a missing key. *)
Definition int_at (m : gmap N Z) (k : N) : Z := default 0 (m !! k).
Definition time_at (m : gmap N Time) (k : N) : Time := default GoTime.zero (m !! k).
Definition float_at (m : gmap N float) (k : N) : float := default 0%float (m !! k).

Definition ScheduleStrategy : Type := string.
Definition StrategyWeighted : ScheduleStrategy := "weighted".
Definition StrategyRoundRobin : ScheduleStrategy := "roundrobin".
Definition StrategyLeastUsed : ScheduleStrategy := "leastused".
Definition StrategyFailover : ScheduleStrategy := "failover".
Definition StrategySiteAdaptive : ScheduleStrategy := "site_adaptive".

(** The struct [Task]; its field [ProxyType] is [task_ProxyType] here, the
    name being taken by the type. *)
Record Task : Type := mkTask {
  task_ProxyType : ProxyType;
  Strategy : ScheduleStrategy;
  Priority : Z;
  Timeout : Duration;
  RetryCount : Z;
  TargetURL : string;
  Domain : string;
  RequireAnon : bool;
  MaxFailures : Z;
  MinSpeed : Z;
}.

(** The errors [ScheduleProxy] can return: the two of the package, and the
    error of the statement that loads the candidates. *)
Inductive SchedError : Type :=
  | ErrNoProxyAvailable
  | ErrNoQualifiedProxy
  | ErrStore (err : DBError).

(** What a strategy returns: the chosen proxy, or the error. *)
Inductive Selection : Type :=
  | Selected (proxy : Proxy)
  | Failed (err : SchedError).

(** The two draws of [math/rand] a strategy may make: the value of
    [rand.Float64()] and the bits from which [rand.Intn(n)] is reduced. *)
Record Rand : Type := mkRand {
  rand_Float64 : float;
  rand_bits : Z;
}.

Definition rand_Intn (rnd : Rand) (n : Z) : Z := rand_bits rnd mod n.

(** [calculateScore] *)
Definition calculateScore (proxy : Proxy) : float :=
  let successRate := GetSuccessRate proxy in
  let speed := GoInt.to_float64 (Speed proxy) in
  let useCount := GoInt.to_float64 (UseCount proxy) in
  let score := (successRate * 0.6)%float in
  let score :=
    if (0 <? speed)%float
    then (score + GoMath.Max 0 (100 - speed / 50) * 0.3)%float else score in
  let score :=
    if (0 <? useCount)%float
    then (score + GoMath.Max 0 (100 - useCount / 100) * 0.1)%float else score in
  score.

(** [isProxyQualified]: the verdict and the scheduler after the stale
    cooldown entry, if any, has been deleted. *)
Definition isProxyQualified (s : ProxyScheduler) (proxy : Proxy) (task : Task)
    (now : Time) : bool * ProxyScheduler :=
  if negb (bool_decide (task_ProxyType task = ""))
     && negb (bool_decide (Type_ proxy = task_ProxyType task))
  then (false, s)
  else
    let after_cooldown :=
      match cooldown s !! ID proxy with
      | Some cooldownTime =>
          if Before now cooldownTime then None
          else Some (set_cooldown (delete (ID proxy) (cooldown s)) s)
      | None => Some s
      end in
    match after_cooldown with
    | None => (false, s)
    | Some s1 =>
        if bool_decide (3 <= int_at (failCount s1) (ID proxy)) then (false, s1)
        else (true, s1)
    end.

(** [updateProxyStats] *)
Definition updateProxyStats (s : ProxyScheduler) (proxy : Proxy) (success : bool)
    (now : Time) : Outcome ProxyScheduler :=
  m ← Lock (mu s);
  let id := ID proxy in
  let s := set_mu m s in
  let s := set_lastUsed (<[id := now]> (lastUsed s)) s in
  let s := set_useCount (<[id := GoInt.incr (int_at (useCount s) id)]> (useCount s)) s in
  let s :=
    if negb success then
      let s := set_failCount (<[id := GoInt.incr (int_at (failCount s) id)]> (failCount s)) s in
      if bool_decide (3 <= int_at (failCount s) id)
      then set_cooldown (<[id := Add now (5 * Minute)]> (cooldown s)) s
      else s
    else
      let s := set_failCount (<[id := 0]> (failCount s)) s in
      set_cooldown (delete id (cooldown s)) s in
  let s := set_weights (<[id := calculateScore proxy]> (weights s)) s in
  Returns (set_mu (Unlock (mu s)) s).

(** [getProxyByID] *)
Definition getProxyByID (st : Store) (proxyID : N) : option Proxy :=
  db_First st proxyID.

(** [ReportProxyStatus]; the error of [UpdateProxyStatus] is dropped. *)
Definition ReportProxyStatus (s : ProxyScheduler) (st : Store) (proxyID : N)
    (success : bool) (speed : Z) (now : Time) : Outcome (ProxyScheduler * Store) :=
  match getProxyByID st proxyID with
  | None => Returns (s, st)
  | Some proxy =>
      s' ← updateProxyStats s proxy success now;
      if negb success
      then Returns (s', (UpdateProxyStatus st proxy false speed now).1)
      else Returns (s', st)
  end.

(** The filter loop shared by the strategies: the proxies that pass
    [isProxyQualified], in slice order, and the scheduler after the calls. *)
Fixpoint qualified_candidates (s : ProxyScheduler) (proxies : list Proxy)
    (task : Task) (now : Time) : ProxyScheduler * list Proxy :=
  match proxies with
  | [] => (s, [])
  | proxy :: rest =>
      let '(ok, s1) := isProxyQualified s proxy task now in
      let '(s2, candidates) := qualified_candidates s1 rest task now in
      (s2, if ok then proxy :: candidates else candidates)
  end.

(** The filter loop of [weightedSchedule], which also collects a weight for
    every candidate and caches the ones it computes. *)
Fixpoint weighted_candidates (s : ProxyScheduler) (proxies : list Proxy)
    (task : Task) (now : Time) : ProxyScheduler * list Proxy * list float :=
  match proxies with
  | [] => (s, [], [])
  | proxy :: rest =>
      let '(ok, s1) := isProxyQualified s proxy task now in
      if negb ok then weighted_candidates s1 rest task now
      else if bool_decide (3 <= int_at (failCount s1) (ID proxy))
      then weighted_candidates s1 rest task now
      else
        let weight := float_at (weights s1) (ID proxy) in
        let '(weight, s2) :=
          if (weight =? 0)%float
          then (calculateScore proxy,
                set_weights (<[ID proxy := calculateScore proxy]> (weights s1)) s1)
          else (weight, s1) in
        let '(s3, candidates, ws) := weighted_candidates s2 rest task now in
        (s3, proxy :: candidates, weight :: ws)
  end.

(** [for i, w := range weights { r -= w; if r <= 0 { return candidates[i] } }] *)
Fixpoint weighted_walk (r : float) (candidates : list Proxy) (ws : list float)
  : option Proxy :=
  match candidates, ws with
  | c :: candidates', w :: ws' =>
      let r := (r - w)%float in
      if (r <=? 0)%float then Some c else weighted_walk r candidates' ws'
  | _, _ => None
  end.

Definition totalWeight (ws : list float) : float :=
  foldl (λ acc w, (acc + w)%float) 0%float ws.

(** The proxy [weightedSchedule] settles on, before its statistics are
    touched: the walk, and the last candidate as the safety net. *)
Definition weighted_choice (rnd : Rand) (candidates : list Proxy)
    (ws : list float) : option Proxy :=
  let r := (rand_Float64 rnd * totalWeight ws)%float in
  match weighted_walk r candidates ws with
  | Some c => Some c
  | None => last candidates
  end.

(** The common tail [s.updateProxyStats(selected, true); return selected, nil]. *)
Definition hand_out (s : ProxyScheduler) (selected : Proxy) (now : Time)
  : Outcome (ProxyScheduler * Selection) :=
  s' ← updateProxyStats s selected true now;
  Returns (s', Selected selected).

(** [weightedSchedule] *)
Definition weightedSchedule (s : ProxyScheduler) (proxies : list Proxy)
    (task : Task) (now : Time) (rnd : Rand) : Outcome (ProxyScheduler * Selection) :=
  match proxies with
  | [] => Returns (s, Failed ErrNoProxyAvailable)
  | _ =>
      let '(s1, candidates, ws) := weighted_candidates s proxies task now in
      match candidates with
      | [] => Returns (s1, Failed ErrNoQualifiedProxy)
      | _ =>
          match weighted_choice rnd candidates ws with
          | Some selected => hand_out s1 selected now
          | None => Panics
          end
      end
  end.

(** [defaultSchedule] *)
Definition defaultSchedule (s : ProxyScheduler) (proxies : list Proxy)
    (task : Task) (now : Time) (rnd : Rand) : Outcome (ProxyScheduler * Selection) :=
  match proxies with
  | [] => Returns (s, Failed ErrNoProxyAvailable)
  | _ =>
      let '(s1, candidates) := qualified_candidates s proxies task now in
      match candidates with
      | [] => Returns (s1, Failed ErrNoQualifiedProxy)
      | _ =>
          match candidates !! Z.to_nat (rand_Intn rnd (Z.of_nat (length candidates))) with
          | Some selected => hand_out s1 selected now
          | None => Panics
          end
      end
  end.

(** The struct [adaptiveProxy] and the helper [abs]. *)
Record adaptiveProxy : Type := mkAdaptive {
  ap_proxy : Proxy;
  ap_useCount : Z;
  ap_lastUsed : Time;
  ap_score : float;
}.

Definition abs (n : Z) : Z := if decide (n < 0) then GoInt.sub 0 n else n.

Section Strategies.

(** [sort.Slice] of the standard library.  It is not stable and its
    outcome on a [less] that is no strict weak order is unspecified, so the
    strategies are stated over any function that rearranges the slice. *)
Variable sort_Slice : ∀ A : Type, (A → A → bool) → list A → list A.

(** The three strategies that sort the candidates and take the head. *)
Definition sorted_head_schedule (less : ProxyScheduler → Proxy → Proxy → bool)
    (s : ProxyScheduler) (proxies : list Proxy) (task : Task) (now : Time)
  : Outcome (ProxyScheduler * Selection) :=
  match proxies with
  | [] => Returns (s, Failed ErrNoProxyAvailable)
  | _ =>
      let '(s1, candidates) := qualified_candidates s proxies task now in
      match candidates with
      | [] => Returns (s1, Failed ErrNoQualifiedProxy)
      | _ =>
          match sort_Slice Proxy (less s1) candidates with
          | selected :: _ => hand_out s1 selected now
          | [] => Panics
          end
      end
  end.

(** [roundRobinSchedule] *)
Definition roundRobinSchedule :=
  sorted_head_schedule
    (λ s a b, Before (time_at (lastUsed s) (ID a)) (time_at (lastUsed s) (ID b))).

(** [leastUsedSchedule] *)
Definition leastUsedSchedule :=
  sorted_head_schedule
    (λ s a b, bool_decide (int_at (useCount s) (ID a) < int_at (useCount s) (ID b))).

(** [failoverSchedule] *)
Definition failoverSchedule :=
  sorted_head_schedule
    (λ s a b, bool_decide (int_at (failCount s) (ID a) < int_at (failCount s) (ID b))).

(** The comparison of [siteAdaptiveSchedule]. *)
Definition adaptive_less (now : Time) (a b : adaptiveProxy) : bool :=
  if bool_decide (2 < abs (GoInt.sub (ap_useCount a) (ap_useCount b)))
  then bool_decide (ap_useCount a < ap_useCount b)
  else
    let timeDiffI := Since now (ap_lastUsed a) in
    let timeDiffJ := Since now (ap_lastUsed b) in
    if bool_decide (5 * Second < timeDiffI) || bool_decide (5 * Second < timeDiffJ)
    then bool_decide (timeDiffJ < timeDiffI)
    else (ap_score b <? ap_score a)%float.

(** [siteAdaptiveSchedule] *)
Definition siteAdaptiveSchedule (s : ProxyScheduler) (proxies : list Proxy)
    (task : Task) (now : Time) (rnd : Rand) : Outcome (ProxyScheduler * Selection) :=
  if bool_decide (Domain task = "") then defaultSchedule s proxies task now rnd
  else
    let candidates :=
      (λ proxy, mkAdaptive proxy (int_at (useCount s) (ID proxy))
                           (time_at (lastUsed s) (ID proxy)) (Score proxy))
        <$> proxies in
    match candidates with
    | [] => Returns (s, Failed ErrNoQualifiedProxy)
    | _ =>
        let sorted := sort_Slice adaptiveProxy (adaptive_less now) candidates in
        let selectedIndex :=
          if bool_decide (3 < Z.of_nat (length sorted)) then rand_Intn rnd 3 else 0 in
        match sorted !! Z.to_nat selectedIndex with
        | Some c => hand_out s (ap_proxy c) now
        | None => Panics
        end
    end.

(** The [switch] of [ScheduleProxy]. *)
Definition dispatch (s : ProxyScheduler) (proxies : list Proxy) (task : Task)
    (now : Time) (rnd : Rand) : Outcome (ProxyScheduler * Selection) :=
  if bool_decide (Strategy task = StrategySiteAdaptive)
  then siteAdaptiveSchedule s proxies task now rnd
  else if bool_decide (Strategy task = StrategyWeighted)
  then weightedSchedule s proxies task now rnd
  else if bool_decide (Strategy task = StrategyRoundRobin)
  then roundRobinSchedule s proxies task now
  else if bool_decide (Strategy task = StrategyLeastUsed)
  then leastUsedSchedule s proxies task now
  else if bool_decide (Strategy task = StrategyFailover)
  then failoverSchedule s proxies task now
  else defaultSchedule s proxies task now rnd.

(** [ScheduleProxy]: the read lock is held from entry to return. *)
Definition ScheduleProxy (s : ProxyScheduler) (st : Store) (task : Task)
    (now : Time) (rnd : Rand) : Outcome (ProxyScheduler * Selection) :=
  m ← RLock (mu s);
  let s := set_mu m s in
  match GetProxies st (task_ProxyType task) 50 with
  | (_, Some err) => Returns (set_mu (RUnlock (mu s)) s, Failed (ErrStore err))
  | (proxies, None) =>
      '(s', result) ← dispatch s proxies task now rnd;
      Returns (set_mu (RUnlock (mu s')) s', result)
  end.

End Strategies.

(** ** core/sources/paid and the fetcher [ProxyFetcher] : ingestion *)

(** [BaseSource.SaveProxies] *)
Definition SaveProxies (st : Store) (proxies : list Proxy) (now : Time)
  : Store * list Proxy * bool :=
  BatchCreateWithDuplicateCheck st proxies now.

Definition Kuaidaili_Name : string := "kuaidaili_paid".
Definition Wandou_Name : string := "wandou_paid".

(** The struct literal a paid adapter builds for one entry of the
    provider's answer; every other field has its zero value. *)
Definition paid_candidate (source : string) (ip : string) (port : Z)
    (anonymous : bool) : Proxy :=
  mkProxy 0 GoTime.zero ip port ProxyTypeLong "http" "" source anonymous
          0 0 0 0%float GoTime.zero false 0 0 0 GoTime.zero 0 0.

(** [KuaidailiSource.fetchFromAPI], given what the provider answered:
    [None] for a transport, decoding or envelope error, otherwise the
    entries that split into an address and a decimal port. *)
Definition Kuaidaili_fetchFromAPI (answer : option (list (string * Z)))
  : option (list Proxy) :=
  match answer with
  | None => None
  | Some entries =>
      Some (map (λ e, paid_candidate Kuaidaili_Name e.1 e.2 true) entries)
  end.

(** [WandouSource.fetchFromAPI], likewise; an entry carries its own
    anonymity flag. *)
Definition Wandou_fetchFromAPI (answer : option (list (string * Z * bool)))
  : option (list Proxy) :=
  match answer with
  | None => None
  | Some entries =>
      Some (map (λ e, paid_candidate Wandou_Name e.1.1 e.1.2 e.2) entries)
  end.

(** [FetchProxies] of both paid adapters: fetch, then [SaveProxies], then
    return the slice. *)
Definition paid_FetchProxies (st : Store) (fetched : option (list Proxy))
    (now : Time) : Store * option (list Proxy) :=
  match fetched with
  | None => (st, None)
  | Some proxies =>
      let '(st', proxies', ok) := SaveProxies st proxies now in
      if ok then (st', Some proxies') else (st', None)
  end.

Record Config : Type := mkConfig {
  KuaidailiURL : string;
  WandouURL : string;
  UseFreeAPI : bool;
  MaxFailCount : Z;
}.

(** What the network and the clock present while one struct is added: the
    answers and readings of [ValidateProxy], and the reading inside the
    [db.Create] that follows it. *)
Record Probe : Type := mkProbe {
  probe_get : string → Response;
  probe_clock : Clock;
  probe_t_create : Time;
}.

Section Fetcher.

Variable url_Parse : string → bool.

(** [addProxy]: the table, the struct, and whether [nil] was returned. *)
Definition addProxy (cfg : Config) (st : Store) (proxy : Proxy) (w : Probe)
  : Store * Proxy * bool :=
  if IsProxyExists st (IP proxy) (Port proxy) then (st, proxy, true)
  else
    let validator := NewProxyValidator (MaxFailCount cfg) in
    let '(st1, proxy1, ok) :=
      ValidateProxy url_Parse validator st proxy (probe_get w) (probe_clock w) in
    if negb ok then (st1, proxy1, true)
    else if negb (Available proxy1) then (st1, proxy1, true)
    else
      match db_Create st1 proxy1 (probe_t_create w) with
      | Some (st2, proxy2) => (st2, proxy2, true)
      | None => (st1, db_Create_refused proxy1 (probe_t_create w), false)
      end.

(** [addProxies]: every struct in turn; a failure is counted, not
    propagated. *)
Definition addProxies (cfg : Config) (st : Store) (proxies : list Proxy)
    (world : Proxy → Probe) : Store :=
  foldl (λ st proxy, (addProxy cfg st proxy (world proxy)).1.1) st proxies.

(** [FetchPaidProxies] *)
Definition FetchPaidProxies (cfg : Config) (st : Store)
    (kuaidaili : option (list (string * Z)))
    (wandou : option (list (string * Z * bool)))
    (world : Proxy → Probe) (now : Time) : Store :=
  let '(st1, all1) :=
    if negb (bool_decide (KuaidailiURL cfg = "")) then
      match paid_FetchProxies st (Kuaidaili_fetchFromAPI kuaidaili) now with
      | (st', Some proxies) => (st', proxies)
      | (st', None) => (st', [])
      end
    else (st, []) in
  let '(st2, all2) :=
    if negb (bool_decide (WandouURL cfg = "")) then
      match paid_FetchProxies st1 (Wandou_fetchFromAPI wandou) now with
      | (st', Some proxies) => (st', all1 ++ proxies)
      | (st', None) => (st', all1)
      end
    else (st1, all1) in
  match all2 with
  | [] => st2
  | _ => addProxies cfg st2 all2 world
  end.

End Fetcher.

(** ** Vocabulary of the properties and scenarios *)

(** The part of a row that decides whether an INSERT or the existence test
    succeeds: its key and its endpoint. *)
Definition skeleton (r : Row) : N * string * Z :=
  (row_id r, IP r, Port r).

Definition store_skeleton (st : Store) : list (N * string * Z) * N :=
  (skeleton <$> rows st, lastID st).

(** The world in which every canary answers 200 and the probe takes 120 ms. *)
Definition canaries_ok (_ : string) : Response := GetStatus 200.
Definition clock_120ms : Clock :=
  mkClock 0 (120 * Millisecond) (121 * Millisecond) (122 * Millisecond).
Definition empty_store : Store := mkStore [] 0.
Definition fresh_candidate : Proxy :=
  paid_candidate Kuaidaili_Name "1.2.3.4" 8080 true.

(** A stored row and the world in which every canary is unreachable. *)
Definition stored_row : Proxy :=
  mkProxy 1 (10 * Second) "1.2.3.4" 8080 ProxyTypeLong "http" "" Kuaidaili_Name true
          90 4 1 0%float (20 * Second) true 5 0 10 GoTime.zero 0 0.
Definition store_one : Store := mkStore [stored_row] 1.
Definition canaries_down (_ : string) : Response := GetError.

(** Every canary answers 204 No Content. *)
Definition canaries_204 (_ : string) : Response := GetStatus 204.

(** What ingestion reads of a candidate: its endpoint and the five
    descriptive fields. *)
Definition ingest_view (p : Proxy) :=
  (IP p, Port p, Type_ p, Protocol p, Region p, Source p, Anonymous p).

(** Everything else a row holds: the health counters and bookkeeping. *)
Definition health_view (p : Row) :=
  (ID p, CreatedAt p, IP p, Port p, Speed p, Success p, Failure p, Score p,
   LastCheck p, Available p, UseCount p, ConcurrentUse p, MaxConcurrent p,
   LastUsedAt p, Version p, FailCount p).

Definition descriptive_view (p : Proxy) :=
  (Type_ p, Protocol p, Region p, Source p, Anonymous p).

Definition endpoint_count (st : Store) (ip : string) (port : Z) : nat :=
  length (List.filter (same_endpoint ip port) (rows st)).

(** The effect of one colliding candidate, and of a whole batch of them, on
    one row. *)
Definition refresh_row (c : Proxy) (r : Row) : Row :=
  if same_endpoint (IP c) (Port c) r then refresh_descriptive c r else r.

Definition refresh_all (batch : list Proxy) (r : Row) : Row :=
  foldl (λ r c, refresh_row c r) r batch.

(** The last candidate of the batch that addresses the endpoint of [r]. *)
Definition last_match (batch : list Proxy) (r : Row) : option Proxy :=
  List.find (λ c, same_endpoint (IP c) (Port c) r) (reverse batch).

(** A candidate opens an endpoint when neither the table nor an earlier
    candidate of the batch has it; the newcomers of a batch are the
    candidates that open one, in slice order. *)
Definition opens_endpoint (st : Store) (earlier : list Proxy) (c : Proxy) : bool :=
  negb (IsProxyExists st (IP c) (Port c))
  && negb (existsb (same_endpoint (IP c) (Port c)) earlier).

Fixpoint newcomers_after (st : Store) (earlier batch : list Proxy) : list Proxy :=
  match batch with
  | [] => []
  | c :: rest =>
      (if opens_endpoint st earlier c then [c] else [])
      ++ newcomers_after st (earlier ++ [c]) rest
  end.

Definition newcomers (st : Store) (batch : list Proxy) : list Proxy :=
  newcomers_after st [] batch.

(** The row an INSERT at [now] stores for the fresh struct [c] under the
    key [id], and the rows a batch adds to a table: one for every newcomer,
    under the keys that follow the counter. *)
Definition inserted (id : N) (now : Time) (c : Proxy) : Row :=
  set_ID id (create_values (BeforeCreate now c) now).

Definition created_rows (st : Store) (batch : list Proxy) (now : Time) : list Row :=
  imap (λ i c, inserted (lastID st + 1 + N.of_nat i)%N now c) (newcomers st batch).

(** A table with the endpoint 1.2.3.4:8080, and a batch that names it once
    and a new endpoint twice, the second time from another source. *)
Definition mixed_batch : list Proxy :=
  [paid_candidate Wandou_Name "1.2.3.4" 8080 false;
   paid_candidate Kuaidaili_Name "5.6.7.8" 3128 true;
   paid_candidate Wandou_Name "5.6.7.8" 3128 false].

(** The primary key: no row has the key 0 and no two rows share a key. *)
Definition primary_key (rs : list Row) : Prop :=
  NoDup (row_id <$> rs) ∧ ∀ r, r ∈ rs → row_id r ≠ 0%N.

(** A stored proxy of type "long" with the given key, score and counters. *)
Definition seed_proxy (id : N) (score : float) (success failure speed : Z) : Proxy :=
  mkProxy id (10 * Second) "10.0.0.1" (8000 + Z.of_N id) ProxyTypeLong "http" "cn"
          "seed" true speed success failure score (20 * Second) true 0 0 10
          GoTime.zero 0 0.

(** The pre-seeded table of the optimisation scenario: a row at score 10 and
    a row at score 85 that has never been used, so that its counters are
    zero. *)
Definition seeded_store : Store :=
  mkStore [seed_proxy 1 10 0 0 0; seed_proxy 2 85 0 0 0] 2.

(** The same table when the second row has earned its score: 9 successes,
    1 failure, 100 ms. *)
Definition earned_store : Store :=
  mkStore [seed_proxy 1 10 0 0 0; seed_proxy 2 85 9 1 100] 2.

(** Whether the cooldown entry of [id], if any, still lies in the future. *)
Definition cooling (s : ProxyScheduler) (id : N) (now : Time) : bool :=
  match cooldown s !! id with
  | Some cooldownTime => Before now cooldownTime
  | None => false
  end.

(** The checks [isProxyQualified] makes, as a predicate on the state it is
    entered with. *)
Definition qualified (s : ProxyScheduler) (proxy : Proxy) (task : Task)
    (now : Time) : bool :=
  (bool_decide (task_ProxyType task = "")
   || bool_decide (Type_ proxy = task_ProxyType task))
  && negb (cooling s (ID proxy) now)
  && bool_decide (int_at (failCount s) (ID proxy) < 3).

(** Two schedulers between which only stale cooldown entries and cached
    weights may differ. *)
Definition same_filter (now : Time) (s s' : ProxyScheduler) : Prop :=
  mu s' = mu s ∧ lastUsed s' = lastUsed s ∧ useCount s' = useCount s
  ∧ failCount s' = failCount s
  ∧ ∀ id, cooling s' id now = cooling s id now.

(** A function that meets the contract of [sort.Slice]: merge sort on
    "not less the other way round". *)
Definition merge_sort_Slice (A : Type) (less : A → A → bool) (l : list A) : list A :=
  merge_sort (λ x y, Is_true (negb (less y x))) l.

(** Two stored proxies of type "long"; the second one is neither available
    nor anonymous. *)
Definition proxy_a : Proxy := seed_proxy 1 70 9 1 100.
Definition proxy_b : Proxy :=
  set_Available false (set_Anonymous false (seed_proxy 2 60 5 5 300)).

Definition task_of (strategy : ScheduleStrategy) (domain : string) : Task :=
  mkTask ProxyTypeLong strategy 0 (10 * Second) 0 "" domain true 0 200.

(** A scheduler in which proxy 1 has failed three times and cools down for
    another minute, over a table that holds only that proxy. *)
Definition cooled_scheduler (now : Time) : ProxyScheduler :=
  mkScheduler RWMutex_free ∅ ∅ {[1%N := 3]} ∅ {[1%N := Add now (1 * Minute)]}.

Definition store_a : Store := mkStore [proxy_a] 1.

(** The contract of [rand.Float64]: a value of the half-open interval
    [[0, 1)]. *)
Definition is_unit_draw (u : float) : bool := (0 <=? u)%float && (u <? 1)%float.

Definition sf_zero (f : spec_float) : Prop := ∃ s, f = S754_zero s.

(** Two stored proxies that have never been used: their score, and so their
    weight, is zero. *)
Definition fresh_1 : Proxy := seed_proxy 1 0 0 0 0.
Definition fresh_2 : Proxy := seed_proxy 2 0 0 0 0.

Definition paid_config : Config :=
  mkConfig "https://dps.kdlapi.com/api/getdps" "" false 3.

(** Every canary is unreachable through every candidate. *)
Definition dead_world (_ : Proxy) : Probe :=
  mkProbe canaries_down clock_120ms (123 * Millisecond).

(** The lifetime [IsExpired] grants a proxy of the given type. *)
Definition ttl (ty : ProxyType) : Duration :=
  if decide (ty = ProxyTypeTemp) then 30 * Minute
  else if decide (ty = ProxyTypeLong) then 24 * Hour
  else 1 * Hour.

(** The lease counter lies between zero and the limit. *)
Definition lease_ok (p : Proxy) : Prop :=
  0 <= ConcurrentUse p <= MaxConcurrent p ∧ MaxConcurrent p <= GoInt.max_int.


(** A stored proxy with two of its ten leases taken. *)
Definition leased_row : Proxy :=
  mkProxy 1 (10 * Second) "1.2.3.4" 8080 ProxyTypeLong "http" "" Kuaidaili_Name true
          90 4 1 0%float (20 * Second) true 5 2 10 GoTime.zero 0 0.
Definition store_leased : Store := mkStore [leased_row] 1.

(** The ids [CleanupExpired] collects. *)
Definition expired_ids (st : Store) (clock : Proxy → Time) : list N :=
  ID <$> List.filter (λ p, IsExpired p (clock p)) (db_Find st).

(** Two rows of type "long", looked at in hour 26: the first was checked an
    hour earlier, the second twenty-five hours earlier. *)
Definition aged_store : Store :=
  mkStore [set_LastCheck (25 * Hour) (seed_proxy 1 70 9 1 100);
           set_LastCheck (1 * Hour) (seed_proxy 2 70 9 1 100)] 2.

(** A table with one row, a proxy that takes 6 seconds to answer. *)
Definition slow_store : Store := mkStore [seed_proxy 1 70 9 1 6000] 1.

(** The integrity of the table: the primary key, and no key beyond the
    auto-increment counter. *)
Definition store_wf (st : Store) : Prop :=
  primary_key (rows st) ∧ ∀ r, r ∈ rows st → (row_id r <= lastID st)%N.

(** A stored row, three failing rounds, one good round. *)
Definition round_down : (string → Response) * Clock := (canaries_down, clock_120ms).
Definition round_ok : (string → Response) * Clock := (canaries_ok, clock_120ms).

(** What a strategy that runs the filter comes to: the error for an empty
    slice, the error for a slice without a qualified proxy, and otherwise the
    common tail [hand_out] on a qualified proxy of the slice. *)
Definition strategy_picks (s : ProxyScheduler) (proxies : list Proxy) (task : Task)
    (now : Time) (result : Outcome (ProxyScheduler * Selection)) : Prop :=
  (proxies = [] ∧ result = Returns (s, Failed ErrNoProxyAvailable))
  ∨ (proxies ≠ []
     ∧ (∀ p, p ∈ proxies → (isProxyQualified s p task now).1 = false)
     ∧ ∃ s1, mu s1 = mu s ∧ result = Returns (s1, Failed ErrNoQualifiedProxy))
  ∨ (∃ s1 p, mu s1 = mu s ∧ p ∈ proxies
             ∧ (isProxyQualified s p task now).1 = true
             ∧ result = hand_out s1 p now).

(** A scheduler that has handed out proxy 1 four times and proxy 2 once. *)
Definition used_scheduler : ProxyScheduler :=
  mkScheduler RWMutex_free ∅ {[1%N := 4; 2%N := 1]} ∅ ∅ ∅.

(** Three candidates used 0, 2 and 4 times, with scores 1, 2 and 3, all
    last used at the instant of the comparison. *)
Definition cand_0 : adaptiveProxy := mkAdaptive fresh_1 0 (30 * Second) 1.
Definition cand_2 : adaptiveProxy := mkAdaptive fresh_1 2 (30 * Second) 2.
Definition cand_4 : adaptiveProxy := mkAdaptive fresh_1 4 (30 * Second) 3.

(** The table after the paid adapters have saved what they fetched. *)
Definition after_paid_adapters (cfg : Config) (st : Store)
    (kuaidaili : option (list (string * Z)))
    (wandou : option (list (string * Z * bool))) (now : Time) : Store :=
  let st1 :=
    if negb (bool_decide (KuaidailiURL cfg = ""))
    then (paid_FetchProxies st (Kuaidaili_fetchFromAPI kuaidaili) now).1
    else st in
  if negb (bool_decide (WandouURL cfg = ""))
  then (paid_FetchProxies st1 (Wandou_fetchFromAPI wandou) now).1
  else st1.

(** What one call of [ValidateProxy] on the struct of a stored row comes to
    for that row: nothing, a write of the struct, or a delete. *)
Inductive Verdict : Type :=
  | Keep
  | Write (p : Proxy)
  | Drop.

Definition verdict (url_Parse : string → bool) (v : ProxyValidator) (p : Proxy)
    (get : string → Response) (clk : Clock) : Verdict :=
  if negb (url_Parse (proxyURL p)) then Keep
  else
    let measured :=
      set_Speed (Milliseconds (Since (t_done clk) (t_start clk)))
                (set_LastCheck (t_check clk) p) in
    if (probe_loop get (testURLs v)).1
    then Write (set_FailCount 0 (set_Available true measured))
    else if decide (maxFailCount v <= GoInt.incr (FailCount p)) then Drop
    else Write (set_FailCount (GoInt.incr (FailCount p)) (set_Available false measured)).

Definition apply_verdict (id : N) (d : Verdict) (r : Row) : option Row :=
  if has_id id r then
    match d with
    | Keep => Some r
    | Write p => Some p
    | Drop => None
    end
  else Some r.

(** One call of [ValidateProxy] as a step on the table, its effect on one
    row, and the effect of a sequence of calls on one row. *)
Definition validate_step (url_Parse : string → bool) (v : ProxyValidator)
    (world : Proxy → (string → Response) * Clock) (st : Store) (p : Proxy) : Store :=
  (ValidateProxy url_Parse v st p (world p).1 (world p).2).1.1.

Definition row_effect (url_Parse : string → bool) (v : ProxyValidator)
    (world : Proxy → (string → Response) * Clock) (p : Proxy) : Row → option Row :=
  apply_verdict (ID p) (verdict url_Parse v p (world p).1 (world p).2).

Definition rows_effect (url_Parse : string → bool) (v : ProxyValidator)
    (world : Proxy → (string → Response) * Clock) (l : list Proxy) (r : Row)
  : option Row :=
  foldl (λ o p, o ≫= row_effect url_Parse v world p) (Some r) l.

(** Whether [AcquireProxy] refuses the proxy. *)
Definition at_limit (p : Proxy) : bool :=
  negb (Available p) || bool_decide (MaxConcurrent p <= ConcurrentUse p).

(** Options that ask for nothing, a stored proxy all of whose ten leases are
    taken, and a balancer whose fresh cache holds that proxy and one with
    leases to spare. *)
Definition any_proxy : ScheduleOptions := mkScheduleOptions "" "" 0 0 false.
Definition busy_row : Proxy := set_ConcurrentUse 10 (set_ID 2 leased_row).
Definition busy_store : Store := mkStore [busy_row] 2.
Definition two_slot_balancer : LoadBalancer :=
  mkLoadBalancer any_proxy [busy_row; leased_row] 1 (10 * Second).

(** * Properties *)

(** ** Machine integers *)

Lemma wrap64_id z : GoInt.in_range z → GoInt.wrap64 z = z.
Proof.
  unfold GoInt.in_range, GoInt.min_int, GoInt.max_int, GoInt.wrap64. intros ?.
  rewrite Z.mod_small; lia.
Qed.

Lemma incr_exact z :
  GoInt.min_int <= z < GoInt.max_int → GoInt.incr z = z + 1.
Proof.
  unfold GoInt.incr, GoInt.add. intros H. apply wrap64_id.
  unfold GoInt.in_range, GoInt.min_int, GoInt.max_int in *. lia.
Qed.

(** ** The table *)

Lemma find_has_id_filter_out id (rs : list Row) :
  List.find (has_id id) (List.filter (λ r, negb (has_id id r)) rs) = None.
Proof.
  induction rs as [|r rs IH]; simpl; [done|].
  destruct (has_id id r) eqn:E; simpl; [done|]. by rewrite E.
Qed.

Lemma db_First_Delete st p :
  ID p ≠ 0%N → db_First (db_Delete st p) (ID p) = None.
Proof.
  intros Hid. unfold db_Delete, db_First. destruct (decide _); [done|].
  simpl. by rewrite find_has_id_filter_out.
Qed.

Lemma has_id_self (p : Proxy) : has_id (ID p) p = true.
Proof. unfold has_id, row_id. by apply bool_decide_eq_true. Qed.

Lemma find_write_struct p (rs : list Row) :
  existsb (has_id (ID p)) rs = true →
  List.find (has_id (ID p)) (write_struct p <$> rs) = Some p.
Proof.
  induction rs as [|r rs IH]; simpl; [done|].
  assert (Hw : write_struct p r = if has_id (ID p) r then p else r) by done.
  rewrite Hw. destruct (has_id (ID p) r) eqn:E; simpl.
  - intros _. by rewrite has_id_self.
  - rewrite E. exact IH.
Qed.

Lemma db_First_Save_present st p now :
  ID p ≠ 0%N → existsb (has_id (ID p)) (rows st) = true →
  db_Save st p now = (with_rows st (write_struct p <$> rows st), p)
  ∧ db_First (db_Save st p now).1 (ID p) = Some p.
Proof.
  intros Hid Hex. unfold db_Save. destruct (decide _); [done|].
  rewrite Hex. split; [done|]. unfold db_First. simpl.
  by apply find_write_struct.
Qed.

Lemma db_First_is_Some st id :
  is_Some (db_First st id) ↔ existsb (has_id id) (rows st) = true.
Proof.
  unfold db_First. induction (rows st) as [|r rs IH]; simpl.
  - split; [intros [? ?]; done | done].
  - destruct (has_id id r); simpl; [split; eauto | exact IH].
Qed.

Lemma primary_key_filter f rs : primary_key rs → primary_key (List.filter f rs).
Proof.
  intros [Hnd Hnz]. split.
  - clear Hnz. revert Hnd. induction rs as [|r rs IH]; [done|].
    rewrite fmap_cons. intros [Hr Hrs]%NoDup_cons. cbn [List.filter].
    destruct (f r); [|by apply IH]. rewrite fmap_cons. apply NoDup_cons.
    split; [|by apply IH]. intros Hin. apply Hr.
    apply list_elem_of_fmap in Hin as (r' & -> & Hr').
    apply list_elem_of_fmap. exists r'. split; [done|].
    apply list_elem_of_In. apply list_elem_of_In in Hr'.
    by apply filter_In in Hr' as [? _].
  - intros r Hr. apply Hnz. apply list_elem_of_In.
    apply list_elem_of_In in Hr. by apply filter_In in Hr as [? _].
Qed.

Lemma NoDup_fmap_same_key {A B} (f : A → B) (l : list A) x y :
  NoDup (f <$> l) → x ∈ l → y ∈ l → f x = f y → x = y.
Proof.
  induction l as [|a l IH]; [by intros _ ?%elem_of_nil|].
  rewrite fmap_cons. intros [Ha Hl]%NoDup_cons Hx Hy Hxy.
  apply elem_of_cons in Hx as [Hx|Hx]; apply elem_of_cons in Hy as [Hy|Hy].
  - congruence.
  - subst a. exfalso. apply Ha. rewrite Hxy. by apply list_elem_of_fmap_2.
  - subst a. exfalso. apply Ha. rewrite <- Hxy. by apply list_elem_of_fmap_2.
  - by apply IH.
Qed.

Lemma primary_key_two r1 r2 :
  row_id r1 = 1%N → row_id r2 = 2%N → primary_key [r1; r2].
Proof.
  intros H1 H2. split.
  - simpl. rewrite H1, H2. apply NoDup_cons. split; [|apply NoDup_singleton].
    by intros ?%list_elem_of_singleton.
  - intros r [->|[->|?%elem_of_nil]%elem_of_cons]%elem_of_cons; [| |done]; congruence.
Qed.

(** ** C10: [UpdateStats] and the division by [UseCount] *)

Lemma UpdateStats_zero_UseCount p speed now :
  Speed p ≠ 0 → UseCount p = 0 → UpdateStats p true speed now = Panics.
Proof.
  intros Hs Hu. unfold UpdateStats. simpl.
  destruct (decide (Speed p = 0)); [done|].
  unfold GoInt.div. rewrite Hu. by destruct (decide (0 = 0)).
Qed.

(** C10. [UpdateStats] is not total: it panics exactly on a success report
    for a proxy whose [Speed] is not zero and whose [UseCount] is zero, where
    the blend divides by [UseCount].  A candidate that has just passed
    [ValidateProxy] is in that state: it carries the measured [Speed]
    (120 ms) and [UseCount = 0]. *)
Theorem UpdateStats_panics_on_validated_proxy :
  (∀ p success speed now,
      UpdateStats p success speed now = Panics
      ↔ success = true ∧ Speed p ≠ 0 ∧ UseCount p = 0)
  ∧ let '(_, p, _) :=
      ValidateProxy (λ _, true) (NewProxyValidator 3) empty_store fresh_candidate
                    canaries_ok clock_120ms in
    Speed p = 120 ∧ UseCount p = 0 ∧ Available p = true
    ∧ UpdateStats p true 80 (200 * Millisecond) = Panics.
Proof.
  split; [|by vm_compute].
  intros p success speed now. split.
  - unfold UpdateStats. destruct success; simpl; [|done].
    destruct (decide (Speed p = 0)); simpl; [done|].
    unfold GoInt.div. destruct (decide (UseCount p = 0)); simpl; done.
  - intros (-> & Hs & Hu). by apply UpdateStats_zero_UseCount.
Qed.

(** ** C1: the failure path of [ValidateProxy] *)

Lemma probe_loop_all_fail get urls :
  (∀ u, u ∈ urls → is_200 (get u) = false) → (probe_loop get urls).1 = false.
Proof.
  induction urls as [|u urls IH]; [done|]. intros H. simpl.
  assert (Hu : is_200 (get u) = false) by (apply H, elem_of_cons; by left).
  assert (Hrest : (probe_loop get urls).1 = false).
  { apply IH. intros u' Hu'. apply H, elem_of_cons. by right. }
  destruct (get u) as [|code]; simpl in Hu.
  - by destruct (probe_loop get urls).
  - apply bool_decide_eq_false in Hu. destruct (decide _); [done|].
    by destruct (probe_loop get urls).
Qed.

Section ValidateFailure.

Variable url_Parse : string → bool.

(** What a failing call does to the struct, whatever the table holds. *)
Lemma ValidateProxy_failure_struct v st p get clk :
  url_Parse (proxyURL p) = true →
  ID p ≠ 0%N →
  GoInt.min_int <= FailCount p < GoInt.max_int →
  (probe_loop get (testURLs v)).1 = false →
  let r := ValidateProxy url_Parse v st p get clk in
  ID r.1.2 = ID p
  ∧ proxyURL r.1.2 = proxyURL p
  ∧ FailCount r.1.2 = FailCount p + 1
  ∧ (maxFailCount v <= FailCount p + 1 → db_First r.1.1 (ID p) = None).
Proof.
  intros Hurl Hid Hfc Hloop. unfold ValidateProxy.
  rewrite Hurl, Hloop. simpl. rewrite (incr_exact _ Hfc).
  destruct (decide (maxFailCount v <= FailCount p + 1)) as [Hge|Hlt]; simpl.
  - repeat split; try done. intros _.
    match goal with |- db_First (db_Delete _ ?q) _ = _ =>
      change (ID p) with (ID q); apply db_First_Delete; exact Hid end.
  - match goal with |- context [db_Save ?s ?q ?t] =>
      assert (Hq : ID (db_Save s q t).2 = ID p
                   ∧ proxyURL (db_Save s q t).2 = proxyURL p
                   ∧ FailCount (db_Save s q t).2 = FailCount p + 1);
      [| destruct (db_Save s q t) as [st' p']; simpl in *;
         destruct Hq as (? & ? & ?); repeat split; try done; lia ]
    end.
    unfold db_Save. simpl. destruct (decide (ID p = 0%N)); [done|].
    destruct (existsb _ _); [done|].
    unfold insert_row, create_values, apply_defaults. simpl.
    destruct (decide (MaxConcurrent p = 0)); simpl;
      destruct (decide (CreatedAt p = GoTime.zero)); simpl;
      destruct (decide (ID p = 0%N)); try done;
      destruct (existsb _ _); done.
Qed.

(** C1. When no canary probe succeeds, [ValidateProxy] on a stored row sets
    [Available] to false, adds exactly one to [FailCount] and stamps
    [LastCheck] with the clock; if the new count has reached
    [maxFailCount] the table is the old one without the row (nothing is
    saved), otherwise the row read back from the table is the updated
    struct.  And with [maxFailCount = 3], three failing calls in a row
    leave the table without the row. *)
Theorem ValidateProxy_failure_counts_and_evicts :
  (∀ v st p get clk,
      url_Parse (proxyURL p) = true →
      ID p ≠ 0%N → is_Some (db_First st (ID p)) →
      GoInt.min_int <= FailCount p < GoInt.max_int →
      (∀ u, u ∈ testURLs v → is_200 (get u) = false) →
      let r := ValidateProxy url_Parse v st p get clk in
      let st' := r.1.1 in
      let p' := r.1.2 in
      Available p' = false
      ∧ FailCount p' = FailCount p + 1
      ∧ LastCheck p' = t_check clk
      ∧ (maxFailCount v <= FailCount p' →
         st' = db_Delete st p' ∧ db_First st' (ID p) = None)
      ∧ (FailCount p' < maxFailCount v →
         st' = (db_Save st p' (t_store clk)).1
         ∧ db_First st' (ID p) = Some p'))
  ∧ (∀ v st p g1 g2 g3 c1 c2 c3,
      maxFailCount v = 3 →
      url_Parse (proxyURL p) = true →
      ID p ≠ 0%N → is_Some (db_First st (ID p)) →
      0 <= FailCount p <= GoInt.max_int - 3 →
      (∀ u, u ∈ testURLs v → is_200 (g1 u) = false) →
      (∀ u, u ∈ testURLs v → is_200 (g2 u) = false) →
      (∀ u, u ∈ testURLs v → is_200 (g3 u) = false) →
      db_First (validate_thrice url_Parse v st p g1 g2 g3 c1 c2 c3).1 (ID p) = None).
Proof.
  split.
  - intros v st p get clk Hurl Hid Hin Hfc Hloop. simpl.
    apply probe_loop_all_fail in Hloop.
    unfold ValidateProxy. rewrite Hurl, Hloop. simpl.
    rewrite (incr_exact _ Hfc).
    apply db_First_is_Some in Hin.
    destruct (decide (maxFailCount v <= FailCount p + 1)) as [Hge|Hlt]; simpl.
    + repeat split; try done; try lia.
      match goal with |- db_First (db_Delete _ ?q) _ = _ =>
        change (ID p) with (ID q); apply db_First_Delete; exact Hid end.
    + match goal with |- context [db_Save ?s ?q ?t] =>
        destruct (db_First_Save_present s q t Hid Hin) as [Heq Hfirst];
        rewrite Heq in *; simpl in * end.
      repeat split; try done; try lia. by rewrite Heq.
  - intros v st p g1 g2 g3 c1 c2 c3 Hmax Hurl Hid Hin Hfc H1 H2 H3.
    apply probe_loop_all_fail in H1, H2, H3.
    unfold validate_thrice, GoInt.max_int, GoInt.min_int in *.
    destruct (ValidateProxy_failure_struct v st p g1 c1 Hurl Hid)
      as (Hid1 & Hurl1 & Hfc1 & _); [unfold GoInt.max_int, GoInt.min_int; lia | done |].
    set (r1 := ValidateProxy url_Parse v st p g1 c1) in *.
    destruct (ValidateProxy_failure_struct v r1.1.1 r1.1.2 g2 c2)
      as (Hid2 & Hurl2 & Hfc2 & _);
      [congruence | congruence | unfold GoInt.max_int, GoInt.min_int; lia | done |].
    set (r2 := ValidateProxy url_Parse v r1.1.1 r1.1.2 g2 c2) in *.
    destruct (ValidateProxy_failure_struct v r2.1.1 r2.1.2 g3 c3)
      as (Hid3 & Hurl3 & Hfc3 & Hgone);
      [congruence | congruence | unfold GoInt.max_int, GoInt.min_int; lia | done |].
    simpl. rewrite <- Hid1, <- Hid2. apply Hgone. lia.
Qed.

End ValidateFailure.

Lemma ValidateProxy_failure_witness :
  (let r := ValidateProxy (λ _, true) (NewProxyValidator 3) store_one stored_row
                          canaries_down clock_120ms in
   Available r.1.2 = false
   ∧ FailCount r.1.2 = FailCount stored_row + 1
   ∧ LastCheck r.1.2 = t_check clock_120ms
   ∧ (maxFailCount (NewProxyValidator 3) <= FailCount r.1.2 →
      r.1.1 = db_Delete store_one r.1.2 ∧ db_First r.1.1 (ID stored_row) = None)
   ∧ (FailCount r.1.2 < maxFailCount (NewProxyValidator 3) →
      r.1.1 = (db_Save store_one r.1.2 (t_store clock_120ms)).1
      ∧ db_First r.1.1 (ID stored_row) = Some r.1.2))
  ∧ db_First (validate_thrice (λ _, true) (NewProxyValidator 3) store_one stored_row
                canaries_down canaries_down canaries_down
                clock_120ms clock_120ms clock_120ms).1 (ID stored_row) = None.
Proof.
  split.
  - apply (proj1 (ValidateProxy_failure_counts_and_evicts (λ _, true))).
    + reflexivity.
    + vm_compute. discriminate.
    + vm_compute. eauto.
    + vm_compute. split; [discriminate | reflexivity].
    + intros u _. reflexivity.
  - apply (proj2 (ValidateProxy_failure_counts_and_evicts (λ _, true))).
    + reflexivity.
    + reflexivity.
    + vm_compute. discriminate.
    + vm_compute. eauto.
    + vm_compute. split; discriminate.
    + intros u _. reflexivity.
    + intros u _. reflexivity.
    + intros u _. reflexivity.
Defined.

(** ** C4: the probe loop and the success path of [ValidateProxy] *)

Lemma probe_loop_spec get urls :
  let r := probe_loop get urls in
  r.2 `prefix_of` urls
  ∧ (r.1 = true ↔ ∃ u, u ∈ urls ∧ is_200 (get u) = true)
  ∧ (r.1 = true →
     ∃ before u, r.2 = before ++ [u] ∧ is_200 (get u) = true
                 ∧ ∀ u', u' ∈ before → is_200 (get u') = false)
  ∧ (r.1 = false → r.2 = urls).
Proof.
  induction urls as [|u urls IH]; simpl.
  - repeat split; try done. intros (u & Hu & _). by apply elem_of_nil in Hu.
  - destruct IH as (Hpre & Hiff & Hstop & Hall).
    assert (Hskip : is_200 (get u) = false →
      let r := (let '(ok, asked) := probe_loop get urls in (ok, u :: asked)) in
      r.2 `prefix_of` u :: urls
      ∧ (r.1 = true ↔ ∃ u0, u0 ∈ u :: urls ∧ is_200 (get u0) = true)
      ∧ (r.1 = true →
         ∃ before u0, r.2 = before ++ [u0] ∧ is_200 (get u0) = true
                      ∧ ∀ u', u' ∈ before → is_200 (get u') = false)
      ∧ (r.1 = false → r.2 = u :: urls)).
    { intros Hu. destruct (probe_loop get urls) as [ok asked]; simpl in *.
      split; [by apply prefix_cons|]. split; [|split].
      - rewrite Hiff. split.
        + intros (u0 & ? & ?). exists u0. split; [by apply elem_of_cons; right|done].
        + intros (u0 & [->|?]%elem_of_cons & H200); [congruence|eauto].
      - intros Hok. destruct (Hstop Hok) as (before & u0 & -> & H200 & Hbefore).
        exists (u :: before), u0. split; [done|]. split; [done|].
        intros u' [->|?]%elem_of_cons; eauto.
      - intros Hok. by rewrite (Hall Hok). }
    destruct (get u) as [|code] eqn:Hget; [by apply Hskip|].
    destruct (decide (code = StatusOK)) as [->|Hne].
    + simpl. split; [by apply prefix_cons, prefix_nil|]. split; [|split].
      * split; [|done]. intros _. exists u. split; [by apply elem_of_cons; left|].
        by rewrite Hget.
      * intros _. exists [], u. split; [done|]. split.
        -- by rewrite Hget.
        -- intros u' Hu'. by apply elem_of_nil in Hu'.
      * done.
    + apply Hskip. simpl. by apply bool_decide_eq_false.
Qed.

Lemma db_Save_keeps_health st p now :
  Available p = true →
  let p' := (db_Save st p now).2 in
  Available p' = true ∧ FailCount p' = FailCount p ∧ Speed p' = Speed p.
Proof.
  intros Hav. unfold db_Save, db_Create, insert_row, create_values, apply_defaults, BeforeCreate.
  destruct (decide (ID p = 0%N)) as [Hz|Hnz]; simpl.
  - destruct (decide (MaxConcurrent p = 0)); simpl; rewrite Hav; simpl;
      repeat (match goal with |- context [decide ?P] => destruct (decide P) end; simpl);
      try rewrite Hz; simpl; try done; destruct (existsb _ _); done.
  - destruct (existsb _ _); [done|]. rewrite Hav; simpl.
    repeat (match goal with |- context [decide ?P] => destruct (decide P) end; simpl);
      try done; destruct (existsb _ _); done.
Qed.

(** C4, as the code has it.  The canaries are requested in slice order and
    the loop leaves at the first answer whose status is exactly 200;
    validation succeeds if and only if some canary answers 200.  On success
    [Available] is true, [FailCount] is 0, and [Speed] is overwritten by the
    milliseconds elapsed from the start of the loop to its end, whatever the
    prior value was. *)
Theorem ValidateProxy_success_on_first_200 url_Parse v st p get clk :
  url_Parse (proxyURL p) = true →
  let loop := probe_loop get (testURLs v) in
  let p' := (ValidateProxy url_Parse v st p get clk).1.2 in
  loop.2 `prefix_of` testURLs v
  ∧ (loop.1 = true ↔ ∃ u, u ∈ testURLs v ∧ is_200 (get u) = true)
  ∧ (loop.1 = true →
     ∃ before u, loop.2 = before ++ [u] ∧ is_200 (get u) = true
                 ∧ ∀ u', u' ∈ before → is_200 (get u') = false)
  ∧ (loop.1 = false → loop.2 = testURLs v)
  ∧ (loop.1 = true →
     Available p' = true
     ∧ FailCount p' = 0
     ∧ Speed p' = Milliseconds (Since (t_done clk) (t_start clk))).
Proof.
  intros Hurl loop p'.
  destruct (probe_loop_spec get (testURLs v)) as (H1 & H2 & H3 & H4).
  fold loop in H1, H2, H3, H4.
  do 4 (split; [done|]).
  subst p'. unfold ValidateProxy. rewrite Hurl. simpl. fold loop.
  intros ->. simpl.
  match goal with |- context [db_Save ?s ?q ?t] =>
    pose proof (db_Save_keeps_health s q t eq_refl) as Hk;
    destruct (db_Save s q t) end.
  simpl in *. tauto.
Qed.

Lemma ValidateProxy_success_witness :
  let loop := probe_loop canaries_ok (testURLs (NewProxyValidator 3)) in
  let p' := (ValidateProxy (λ _, true) (NewProxyValidator 3) store_one stored_row
                           canaries_ok clock_120ms).1.2 in
  loop.2 `prefix_of` testURLs (NewProxyValidator 3)
  ∧ (loop.1 = true ↔
     ∃ u, u ∈ testURLs (NewProxyValidator 3) ∧ is_200 (canaries_ok u) = true)
  ∧ (loop.1 = true →
     ∃ before u, loop.2 = before ++ [u] ∧ is_200 (canaries_ok u) = true
                 ∧ ∀ u', u' ∈ before → is_200 (canaries_ok u') = false)
  ∧ (loop.1 = false → loop.2 = testURLs (NewProxyValidator 3))
  ∧ (loop.1 = true →
     Available p' = true
     ∧ FailCount p' = 0
     ∧ Speed p' = Milliseconds (Since (t_done clock_120ms) (t_start clock_120ms))).
Proof.
  apply (ValidateProxy_success_on_first_200 (λ _, true) (NewProxyValidator 3)
           store_one stored_row canaries_ok clock_120ms).
  reflexivity.
Defined.

(** C4 fails as stated.  With every canary answering 204, a status of the
    2xx class, validation does not succeed; and after a successful
    validation that took 120 ms the stored [Speed] of a row whose prior
    [Speed] was 90 is 120: the prior value has no share in it. *)
Lemma ValidateProxy_2xx_blend_counterexample :
  ¬ ((probe_loop canaries_204 (testURLs (NewProxyValidator 3))).1 = true ↔
     ∃ u, u ∈ testURLs (NewProxyValidator 3) ∧ is_2xx (canaries_204 u) = true)
  ∧ Available (ValidateProxy (λ _, true) (NewProxyValidator 3) store_one stored_row
                 canaries_204 clock_120ms).1.2 = false
  ∧ Speed stored_row = 90
  ∧ db_First (ValidateProxy (λ _, true) (NewProxyValidator 3) store_one stored_row
                canaries_ok clock_120ms).1.1 1
    = Some (set_FailCount 0 (set_Available true (set_Speed 120
              (set_LastCheck (t_check clock_120ms) stored_row)))).
Proof.
  split; [|by vm_compute].
  intros [_ H]. enough (false = true) by done. apply H.
  exists "http://www.baidu.com". split; [|done].
  apply elem_of_cons. by left.
Qed.

(** ** C5: the dedup-insert is an idempotent upsert *)

Lemma same_endpoint_refresh ip port c r :
  same_endpoint ip port (refresh_descriptive c r) = same_endpoint ip port r.
Proof. done. Qed.

Lemma same_endpoint_refresh_row ip port c r :
  same_endpoint ip port (refresh_row c r) = same_endpoint ip port r.
Proof. unfold refresh_row. by destruct (same_endpoint (IP c) (Port c) r). Qed.

Lemma refresh_row_match c r :
  same_endpoint (IP c) (Port c) r = true →
  refresh_row c r = refresh_descriptive c r.
Proof. unfold refresh_row. by intros ->. Qed.

Lemma refresh_row_nomatch c r :
  same_endpoint (IP c) (Port c) r = false → refresh_row c r = r.
Proof. unfold refresh_row. by intros ->. Qed.

Lemma refresh_twice c c' r :
  refresh_descriptive c (refresh_descriptive c' r)
  = refresh_descriptive c r.
Proof. done. Qed.

Lemma refresh_same_descriptive c r :
  descriptive_view r = descriptive_view c →
  refresh_descriptive c r = r.
Proof.
  destruct r, c. unfold descriptive_view. simpl.
  intros [= -> -> -> -> ->]. done.
Qed.

Lemma refresh_all_snoc batch c r :
  refresh_all (batch ++ [c]) r = refresh_row c (refresh_all batch r).
Proof. unfold refresh_all. by rewrite foldl_app. Qed.

Lemma refresh_all_last batch r :
  refresh_all batch r =
  match last_match batch r with
  | Some c => refresh_descriptive c r
  | None => r
  end.
Proof.
  induction batch as [|c batch IH] using rev_ind; [done|].
  rewrite refresh_all_snoc. unfold last_match. rewrite reverse_snoc. simpl.
  fold (last_match batch r). unfold refresh_row at 1.
  rewrite IH. destruct (last_match batch r) as [c'|];
    rewrite ?same_endpoint_refresh; destruct (same_endpoint (IP c) (Port c) r); done.
Qed.

Lemma health_view_refresh_all batch r :
  health_view (refresh_all batch r) = health_view r.
Proof. rewrite refresh_all_last. by destruct (last_match batch r). Qed.

Lemma refresh_row_no_match c (rs : list Row) :
  existsb (same_endpoint (IP c) (Port c)) rs = false →
  refresh_row c <$> rs = rs.
Proof.
  induction rs as [|r rs IH]; simpl; [done|].
  intros [Hr Hrs]%orb_false_elim. unfold refresh_row at 1. rewrite Hr.
  f_equal. by apply IH.
Qed.

Lemma db_Create_shape st c now st' c' :
  db_Create st c now = Some (st', c') →
  rows st' = rows st ++ [c']
  ∧ ingest_view c' = ingest_view c.
Proof.
  unfold db_Create, insert_row, create_values, apply_defaults, BeforeCreate.
  repeat (match goal with |- context [decide ?P] => destruct (decide P) end; simpl);
    destruct (Available c); simpl;
    repeat (match goal with |- context [decide ?P] => destruct (decide P) end; simpl);
    try destruct (existsb _ _); intros [= <- <-]; done.
Qed.

(** One iteration either refreshes the rows of the endpoint or appends one
    row for it. *)
Lemma upsert_one_shape st c now st' c' :
  upsert_one st c now = Some (st', c') →
  ingest_view c' = ingest_view c
  ∧ ∃ extra,
      rows st' = (refresh_row c <$> rows st) ++ extra
      ∧ (IsProxyExists st (IP c) (Port c) = true → extra = [] ∧ lastID st' = lastID st)
      ∧ (IsProxyExists st (IP c) (Port c) = false →
         ∃ new, extra = [new]
                ∧ same_endpoint (IP c) (Port c) new = true
                ∧ descriptive_view new = descriptive_view c).
Proof.
  unfold upsert_one. destruct (IsProxyExists st (IP c) (Port c)) eqn:Hex.
  - intros [= <- <-]. split; [done|]. exists []. simpl.
    rewrite app_nil_r. split; [done|]. split; [done|]. done.
  - intros Hc. destruct (db_Create_shape _ _ _ _ _ Hc) as (Hrows & Hview).
    split; [done|].
    exists [c']. split.
    + rewrite Hrows. f_equal. symmetry. by apply refresh_row_no_match.
    + split; [done|]. intros _. eexists. split; [done|].
      unfold ingest_view in Hview. injection Hview as H1 H2 H3 H4 H5 H6 H7.
      split; [|unfold descriptive_view; simpl; congruence].
      unfold same_endpoint. simpl. rewrite H1, H2.
      by rewrite !bool_decide_eq_true_2.
Qed.

Lemma upsert_loop_snoc st batch c now :
  upsert_loop st (batch ++ [c]) now =
  match upsert_loop st batch now with
  | Some (st1, batch1) =>
      match upsert_one st1 c now with
      | Some (st2, c') => Some (st2, batch1 ++ [c'])
      | None => None
      end
  | None => None
  end.
Proof.
  revert st. induction batch as [|c0 batch IH]; intros st; simpl.
  - destruct (upsert_one st c now) as [[st1 c1]|]; done.
  - destruct (upsert_one st c0 now) as [[st1 c1]|]; [|done].
    rewrite IH. destruct (upsert_loop st1 batch now) as [[st2 b2]|]; [|done].
    destruct (upsert_one st2 c now) as [[st3 c3]|]; done.
Qed.

Lemma existsb_fmap_refresh ip port c (rs : list Row) :
  existsb (same_endpoint ip port) (refresh_row c <$> rs)
  = existsb (same_endpoint ip port) rs.
Proof.
  induction rs as [|r rs IH]; [done|].
  rewrite fmap_cons. cbn [existsb].
  by rewrite same_endpoint_refresh_row, IH.
Qed.

Lemma filter_fmap_refresh ip port c (rs : list Row) :
  length (List.filter (same_endpoint ip port) (refresh_row c <$> rs))
  = length (List.filter (same_endpoint ip port) rs).
Proof.
  induction rs as [|r rs IH]; [done|].
  rewrite fmap_cons. cbn [List.filter].
  rewrite same_endpoint_refresh_row.
  destruct (same_endpoint ip port r); cbn [length]; by rewrite IH.
Qed.

Lemma filter_none_length {A} (f : A → bool) (l : list A) :
  existsb f l = false → length (List.filter f l) = 0%nat.
Proof.
  induction l as [|x l IH]; simpl; [done|].
  intros [Hx Hl]%orb_false_elim. rewrite Hx. by apply IH.
Qed.

Lemma same_endpoint_eq ip port ip' port' r :
  same_endpoint ip port r = true → same_endpoint ip' port' r = true →
  ip = ip' ∧ port = port'.
Proof.
  unfold same_endpoint.
  intros [?%bool_decide_eq_true ?%bool_decide_eq_true]%andb_true_iff
         [?%bool_decide_eq_true ?%bool_decide_eq_true]%andb_true_iff.
  split; congruence.
Qed.

Lemma last_match_refresh_row batch c r :
  last_match batch (refresh_row c r) = last_match batch r.
Proof.
  unfold last_match. induction (reverse batch) as [|c0 l IH]; simpl; [done|].
  by rewrite same_endpoint_refresh_row, IH.
Qed.

Lemma last_match_none batch r :
  (∀ c, c ∈ batch → same_endpoint (IP c) (Port c) r = false) →
  last_match batch r = None.
Proof.
  intros H. unfold last_match.
  assert (H' : ∀ c, c ∈ reverse batch → same_endpoint (IP c) (Port c) r = false).
  { intros c Hc. apply H. by apply elem_of_reverse. }
  clear H. induction (reverse batch) as [|c0 l IH]; simpl; [done|].
  rewrite H'; [|by apply elem_of_cons; left].
  apply IH. intros c Hc. apply H'. by apply elem_of_cons; right.
Qed.

Lemma IsProxyExists_false st ip port r :
  IsProxyExists st ip port = false → r ∈ rows st → same_endpoint ip port r = false.
Proof.
  unfold IsProxyExists. induction (rows st) as [|r0 rs IH]; simpl.
  - intros _ H. by apply elem_of_nil in H.
  - intros [H0 Hrs]%orb_false_elim [Hr|Hr]%elem_of_cons; [by subst|by apply IH].
Qed.

Lemma IsProxyExists_true st ip port :
  IsProxyExists st ip port = true ↔ ∃ r, r ∈ rows st ∧ same_endpoint ip port r = true.
Proof.
  unfold IsProxyExists. rewrite existsb_exists. split.
  - intros (r & Hr & ?). exists r. split; [by apply list_elem_of_In|done].
  - intros (r & Hr & ?). exists r. split; [by apply list_elem_of_In|done].
Qed.

(** What a committed run of the loop establishes. *)
Lemma upsert_loop_invariant st now batch :
  ∀ st1 batch1,
    upsert_loop st batch now = Some (st1, batch1) →
    ingest_view <$> batch1 = ingest_view <$> batch
    ∧ (∃ created, rows st1 = (refresh_all batch <$> rows st) ++ created)
    ∧ (∀ c, c ∈ batch → IsProxyExists st1 (IP c) (Port c) = true)
    ∧ (∀ r, r ∈ rows st1 → refresh_all batch r = r)
    ∧ (∀ ip port,
          (endpoint_count st1 ip port ≤ max 1 (endpoint_count st ip port))%nat).
Proof.
  induction batch as [|c batch IH] using rev_ind; intros st2 batch2.
  - simpl. intros [= <- <-]. split; [done|]. split.
    { exists []. rewrite app_nil_r. change (refresh_all []) with (@id Row).
      by rewrite list_fmap_id. }
    split; [intros c Hc; by apply elem_of_nil in Hc|].
    split; [done|]. intros ip port. lia.
  - rewrite upsert_loop_snoc.
    destruct (upsert_loop st batch now) as [[st1 batch1]|] eqn:Hloop; [|done].
    destruct (upsert_one st1 c now) as [[st2' c']|] eqn:Hone; [|done].
    intros [= <- <-].
    destruct (IH _ _ eq_refl) as (Hview & (created & Hrows) & Hcover & Hinv & Hcount).
    destruct (upsert_one_shape _ _ _ _ _ Hone)
      as (Hview' & extra & Hrows' & Hold & Hnew).
    split.
    { rewrite !fmap_app. simpl. congruence. }
    split.
    { exists ((refresh_row c <$> created) ++ extra).
      rewrite Hrows', Hrows, fmap_app, <- app_assoc. f_equal.
      rewrite <- list_fmap_compose. apply list_fmap_ext.
      intros i r _. simpl. by rewrite refresh_all_snoc. }
    assert (Hkeep : ∀ ip port, IsProxyExists st1 ip port = true →
                               IsProxyExists st2' ip port = true).
    { intros ip port. unfold IsProxyExists. rewrite Hrows', existsb_app,
        existsb_fmap_refresh. intros ->. done. }
    split.
    { intros c0 [Hc0| ->%list_elem_of_singleton]%elem_of_app; [by apply Hkeep, Hcover|].
      destruct (IsProxyExists st1 (IP c) (Port c)) eqn:Hex; [by apply Hkeep|].
      destruct (Hnew eq_refl) as (new & -> & Hsame & _).
      unfold IsProxyExists. rewrite Hrows', existsb_app. simpl.
      rewrite Hsame. by rewrite orb_true_r. }
    split.
    { intros r. rewrite Hrows'. intros [Hr|Hr]%elem_of_app.
      - apply list_elem_of_fmap in Hr as (r1 & -> & Hr1).
        rewrite refresh_all_snoc, refresh_all_last, last_match_refresh_row.
        pose proof (Hinv r1 Hr1) as Hfix. rewrite refresh_all_last in Hfix.
        destruct (same_endpoint (IP c) (Port c) r1) eqn:Hm.
        + rewrite (refresh_row_match c r1 Hm).
          destruct (last_match batch r1) as [c1|].
          * rewrite refresh_twice, Hfix. by apply refresh_row_match.
          * by rewrite refresh_row_match.
        + rewrite (refresh_row_nomatch c r1 Hm).
          destruct (last_match batch r1) as [c1|]; rewrite ?Hfix;
            by apply refresh_row_nomatch.
      - destruct (IsProxyExists st1 (IP c) (Port c)) eqn:Hex.
        { destruct (Hold eq_refl) as [-> _]. by apply elem_of_nil in Hr. }
        destruct (Hnew eq_refl) as (new & -> & Hsame & Hdescr).
        apply list_elem_of_singleton in Hr as ->.
        rewrite refresh_all_snoc, refresh_all_last, last_match_none.
        + rewrite (refresh_row_match c new Hsame). by apply refresh_same_descriptive.
        + intros c0 Hc0. destruct (same_endpoint (IP c0) (Port c0) new) eqn:E; [|done].
          destruct (same_endpoint_eq _ _ _ _ _ Hsame E) as [Hip Hport].
          pose proof (Hcover c0 Hc0) as Hc. rewrite <- Hip, <- Hport in Hc. congruence. }
    intros ip port. specialize (Hcount ip port).
    enough (endpoint_count st2' ip port ≤ max 1 (endpoint_count st1 ip port))%nat by lia.
    unfold endpoint_count. rewrite Hrows', List.filter_app, length_app,
      filter_fmap_refresh.
    destruct (IsProxyExists st1 (IP c) (Port c)) eqn:Hex.
    + destruct (Hold eq_refl) as [-> _]. simpl. lia.
    + destruct (Hnew eq_refl) as (new & -> & Hsame & _). simpl.
      destruct (same_endpoint ip port new) eqn:E; simpl; [|lia].
      destruct (same_endpoint_eq _ _ _ _ _ Hsame E) as [Hip Hport].
      unfold IsProxyExists in Hex. rewrite Hip, Hport in Hex.
      rewrite (filter_none_length _ _ Hex). lia.
Qed.

Lemma refresh_row_view c c' r :
  ingest_view c' = ingest_view c → refresh_row c' r = refresh_row c r.
Proof.
  unfold ingest_view. intros [= H1 H2 H3 H4 H5 H6 H7].
  unfold refresh_row, refresh_descriptive.
  rewrite H1, H2. destruct (same_endpoint _ _ _); [|done].
  unfold set_Anonymous, set_Source, set_Region, set_Protocol, set_Type. simpl.
  congruence.
Qed.

Lemma refresh_all_view batch batch' r :
  ingest_view <$> batch' = ingest_view <$> batch →
  refresh_all batch' r = refresh_all batch r.
Proof.
  revert batch r. induction batch' as [|c' batch' IH]; intros [|c batch] r; try done.
  rewrite !fmap_cons. intros Heq.
  assert (Hc : ingest_view c' = ingest_view c) by congruence.
  assert (Hrest : ingest_view <$> batch' = ingest_view <$> batch) by congruence.
  unfold refresh_all. simpl.
  rewrite (refresh_row_view c c' r Hc). by apply IH.
Qed.

Lemma with_rows_same st : with_rows st (rows st) = st.
Proof. by destruct st. Qed.

(** When every endpoint of the batch is already stored, the loop only
    refreshes. *)
Lemma upsert_loop_refresh_only now batch :
  ∀ st,
    (∀ c, c ∈ batch → IsProxyExists st (IP c) (Port c) = true) →
    upsert_loop st batch now
    = Some (with_rows st (refresh_all batch <$> rows st), batch).
Proof.
  induction batch as [|c batch IH]; intros st Hcover.
  - simpl. change (refresh_all []) with (@id Row).
    by rewrite list_fmap_id, with_rows_same.
  - simpl. unfold upsert_one.
    rewrite (Hcover c) by (apply elem_of_cons; by left).
    set (st' := db_Update_where _ _ st).
    assert (Hrows : rows st' = refresh_row c <$> rows st) by done.
    rewrite (IH st').
    + rewrite Hrows, <- list_fmap_compose. done.
    + intros c0 Hc0. unfold IsProxyExists. rewrite Hrows, existsb_fmap_refresh.
      apply Hcover. apply elem_of_cons. by right.
Qed.

Lemma BatchCreate_nonempty st c batch now :
  BatchCreateWithDuplicateCheck st (c :: batch) now =
  match upsert_loop st (c :: batch) now with
  | Some (st', proxies') => (st', proxies', true)
  | None => (st, upsert_structs st (c :: batch) now, false)
  end.
Proof. done. Qed.

(** Whether a statement of the loop fails depends on the keys and endpoints
    in the table only, not on the clock. *)
Lemma existsb_skeleton (f : N * string * Z → bool) (g : Row → bool) (rs : list Row) :
  (∀ r, g r = f (skeleton r)) → existsb g rs = existsb f (skeleton <$> rs).
Proof.
  intros Hfg. induction rs as [|r rs IH]; [done|].
  rewrite fmap_cons. cbn [existsb]. by rewrite Hfg, IH.
Qed.

Lemma insert_row_skeleton st p now :
  match insert_row st p now with
  | Some (st', _) =>
      store_skeleton st' =
      (if decide (ID p = 0%N)
       then ((skeleton <$> rows st) ++ [((lastID st + 1)%N, IP p, Port p)],
             (lastID st + 1)%N)
       else ((skeleton <$> rows st) ++ [(ID p, IP p, Port p)],
             N.max (lastID st) (ID p)))
      ∧ (ID p = 0%N
         ∨ existsb (λ k, bool_decide (k.1.1 = ID p)) (skeleton <$> rows st) = false)
  | None =>
      ID p ≠ 0%N
      ∧ existsb (λ k, bool_decide (k.1.1 = ID p)) (skeleton <$> rows st) = true
  end.
Proof.
  rewrite <- (existsb_skeleton _ (has_id (ID p))) by done.
  unfold insert_row.
  set (p2 := create_values p now).
  assert (H2 : ID p2 = ID p ∧ IP p2 = IP p ∧ Port p2 = Port p).
  { unfold p2, create_values, apply_defaults. destruct (Available p); simpl;
      repeat (destruct (decide _); simpl); done. }
  clearbody p2. destruct H2 as (Hid & Hip & Hport).
  rewrite Hid. destruct (decide (ID p = 0%N)) as [Hz|Hnz].
  - unfold store_skeleton. cbn [rows lastID fst snd]. rewrite fmap_app.
    split; [|by left]. unfold skeleton at 2. cbn. by rewrite Hip, Hport.
  - destruct (existsb (has_id (ID p)) (rows st)) eqn:E; [done|].
    unfold store_skeleton. cbn [rows lastID fst snd]. rewrite fmap_app.
    split; [|by right]. unfold skeleton at 2, row_id. cbn [fmap list_fmap].
    by rewrite Hid, Hip, Hport.
Qed.

Lemma BeforeCreate_keys now c :
  ID (BeforeCreate now c) = ID c ∧ IP (BeforeCreate now c) = IP c
  ∧ Port (BeforeCreate now c) = Port c.
Proof. unfold BeforeCreate. by destruct (decide _). Qed.

Lemma skeleton_refresh_row c (rs : list Row) :
  skeleton <$> (refresh_row c <$> rs) = skeleton <$> rs.
Proof.
  rewrite <- list_fmap_compose. apply list_fmap_ext. intros i r _. simpl.
  unfold refresh_row. by destruct (same_endpoint _ _ r).
Qed.

Lemma upsert_one_skeleton st st2 c now now2 :
  store_skeleton st = store_skeleton st2 →
  match upsert_one st c now, upsert_one st2 c now2 with
  | Some (a, _), Some (b, _) => store_skeleton a = store_skeleton b
  | None, None => True
  | _, _ => False
  end.
Proof.
  intros Hs. pose proof Hs as [Hrows Hlast]%pair_eq.
  unfold upsert_one, IsProxyExists.
  rewrite !(existsb_skeleton
              (λ k, bool_decide (k.1.2 = IP c) && bool_decide (k.2 = Port c))
              (same_endpoint (IP c) (Port c))) by done.
  rewrite <- Hrows.
  destruct (existsb _ (skeleton <$> rows st)).
  - unfold store_skeleton, db_Update_where. cbn [rows lastID with_rows].
    fold (refresh_row c). rewrite !skeleton_refresh_row. by rewrite Hrows, Hlast.
  - unfold db_Create.
    pose proof (insert_row_skeleton st (BeforeCreate now c) now) as H1.
    pose proof (insert_row_skeleton st2 (BeforeCreate now2 c) now2) as H2.
    destruct (BeforeCreate_keys now c) as (Ha & Hb & Hc).
    destruct (BeforeCreate_keys now2 c) as (Ha2 & Hb2 & Hc2).
    rewrite Ha, Hb, Hc in H1. rewrite Ha2, Hb2, Hc2, <- Hrows, <- Hlast in H2.
    destruct (insert_row st _ now) as [[a ?]|], (insert_row st2 _ now2) as [[b ?]|].
    + destruct H1 as [-> _], H2 as [-> _]. done.
    + destruct H1 as [_ [?|?]], H2 as [? ?]; congruence.
    + destruct H2 as [_ [?|?]], H1 as [? ?]; congruence.
    + done.
Qed.

Lemma upsert_loop_skeleton batch now now2 :
  ∀ st st2,
    store_skeleton st = store_skeleton st2 →
    match upsert_loop st batch now, upsert_loop st2 batch now2 with
    | Some (a, _), Some (b, _) => store_skeleton a = store_skeleton b
    | None, None => True
    | _, _ => False
    end.
Proof.
  induction batch as [|c batch IH]; intros st st2 Hs; [done|].
  cbn [upsert_loop].
  pose proof (upsert_one_skeleton st st2 c now now2 Hs) as H1.
  destruct (upsert_one st c now) as [[a ca]|], (upsert_one st2 c now2) as [[b cb]|];
    try done.
  specialize (IH a b H1).
  destruct (upsert_loop a batch now) as [[a' ?]|], (upsert_loop b batch now2) as [[b' ?]|];
    done.
Qed.

(** A run on any batch, and a second run with the same rows at any later
    time: a committed run is repeated by refreshes that change nothing (also
    when the second batch is made of other structs with the same endpoints
    and descriptive fields), and a run that fails is rolled back and fails
    again.  A run never raises the number of rows of an endpoint above one,
    and what it does to a row that was stored before is [refresh_all]: the
    descriptive fields become those of the last candidate of that endpoint,
    every other column is untouched. *)
Lemma BatchCreate_rerun st batch now :
  let r1 := BatchCreateWithDuplicateCheck st batch now in
  let st1 := r1.1.1 in
  (∀ now', (BatchCreateWithDuplicateCheck st1 batch now').1.1 = st1)
  ∧ (r1.2 = false → st1 = st)
  ∧ (r1.2 = true →
     (∀ batch' now',
         ingest_view <$> batch' = ingest_view <$> batch →
         BatchCreateWithDuplicateCheck st1 batch' now' = (st1, batch', true))
     ∧ ingest_view <$> r1.1.2 = ingest_view <$> batch
     ∧ ∃ created, rows st1 = (refresh_all batch <$> rows st) ++ created)
  ∧ (∀ r, health_view (refresh_all batch r) = health_view r
          ∧ descriptive_view (refresh_all batch r)
            = match last_match batch r with
              | Some c => descriptive_view c
              | None => descriptive_view r
              end)
  ∧ (∀ ip port,
        (endpoint_count st1 ip port ≤ max 1 (endpoint_count st ip port))%nat).
Proof.
  assert (Hagain : ∀ st1 batch1 batch' now',
    upsert_loop st batch now = Some (st1, batch1) →
    ingest_view <$> batch' = ingest_view <$> batch →
    BatchCreateWithDuplicateCheck st1 batch' now' = (st1, batch', true)).
  { intros st1 batch1 batch' now' Hloop Hview.
    destruct (upsert_loop_invariant _ _ _ _ _ Hloop)
      as (_ & _ & Hcover & Hinv & _).
    unfold BatchCreateWithDuplicateCheck. destruct batch' as [|c' batch'']; [done|].
    set (batch' := c' :: batch'') in *.
    rewrite upsert_loop_refresh_only.
    - replace (refresh_all batch' <$> rows st1) with (rows st1);
        [by rewrite with_rows_same|].
      rewrite <- (list_fmap_id (rows st1)) at 1. apply list_fmap_ext.
      intros i r Hr. unfold id. rewrite (refresh_all_view batch batch' r Hview).
      symmetry. apply Hinv. by eapply list_elem_of_lookup_2.
    - intros c0 Hc0.
      assert (Hv : ingest_view c0 ∈ ingest_view <$> batch).
      { rewrite <- Hview. by apply list_elem_of_fmap_2. }
      apply list_elem_of_fmap in Hv as (c & Hvc & Hc).
      unfold ingest_view in Hvc. injection Hvc as -> -> _ _ _ _ _.
      by apply Hcover. }
  cbv zeta. destruct batch as [|c batch].
  { cbn [BatchCreateWithDuplicateCheck fst snd]. split; [done|].
    split; [done|]. split; [|split].
    - intros _. split; [by intros [|c' b'] now' Hv|]. split; [done|].
      exists []. rewrite app_nil_r. change (refresh_all []) with (@id Row).
      by rewrite list_fmap_id.
    - done.
    - intros ip port. lia. }
  rewrite BatchCreate_nonempty. remember (c :: batch) as b eqn:Hb.
  destruct (upsert_loop st b now) as [[st1 b1]|] eqn:Hloop; cbn [fst snd].
  - destruct (upsert_loop_invariant _ _ _ _ _ Hloop)
      as (Hview & Hshape & _ & _ & Hcount).
    split; [intros now'; by erewrite Hagain|].
    split; [done|]. split; [|split].
    + intros _. split; [by eauto|]. split; [done|done].
    + intros r. split; [apply health_view_refresh_all|].
      rewrite refresh_all_last. by destruct (last_match b r).
    + done.
  - split.
    { intros now'. subst b. rewrite BatchCreate_nonempty.
      pose proof (upsert_loop_skeleton (c :: batch) now now' st st eq_refl) as Hsim.
      rewrite Hloop in Hsim.
      by destruct (upsert_loop st (c :: batch) now') as [[? ?]|]. }
    split; [done|]. split; [done|]. split.
    + intros r. split; [apply health_view_refresh_all|].
      rewrite refresh_all_last. by destruct (last_match b r).
    + intros ip port. lia.
Qed.

(** ** C5: a batch of fresh structs *)

Lemma create_values_keys p now :
  ID (create_values p now) = ID p ∧ IP (create_values p now) = IP p
  ∧ Port (create_values p now) = Port p
  ∧ descriptive_view (create_values p now) = descriptive_view p.
Proof.
  unfold create_values, apply_defaults. destruct (Available p); simpl;
    repeat (destruct (decide _); simpl); done.
Qed.

Lemma BeforeCreate_descriptive now c :
  descriptive_view (BeforeCreate now c) = descriptive_view c.
Proof. unfold BeforeCreate. by destruct (decide _). Qed.

Lemma inserted_keys id now c :
  ID (inserted id now c) = id ∧ IP (inserted id now c) = IP c
  ∧ Port (inserted id now c) = Port c
  ∧ descriptive_view (inserted id now c) = descriptive_view c.
Proof.
  unfold inserted.
  destruct (create_values_keys (BeforeCreate now c) now) as (_ & H2 & H3 & H4).
  destruct (BeforeCreate_keys now c) as (_ & H6 & H7).
  split; [done|]. split; [simpl; congruence|]. split; [simpl; congruence|].
  rewrite <- (BeforeCreate_descriptive now c), <- H4. done.
Qed.

Lemma same_endpoint_inserted ip port id now c :
  same_endpoint ip port (inserted id now c) = same_endpoint ip port c.
Proof.
  unfold same_endpoint. destruct (inserted_keys id now c) as (_ & -> & -> & _). done.
Qed.

(** An INSERT of a fresh struct is never refused. *)
Lemma db_Create_fresh st c now :
  ID c = 0%N →
  db_Create st c now
  = Some (mkStore (rows st ++ [inserted (lastID st + 1) now c]) (lastID st + 1),
          inserted (lastID st + 1) now c).
Proof.
  intros Hid. unfold db_Create, insert_row, inserted.
  destruct (create_values_keys (BeforeCreate now c) now) as (H1 & _).
  destruct (BeforeCreate_keys now c) as (H2 & _).
  destruct (decide _) as [|Hn]; [done|]. congruence.
Qed.

Lemma newcomers_after_snoc st earlier batch c :
  newcomers_after st earlier (batch ++ [c])
  = newcomers_after st earlier batch
    ++ (if opens_endpoint st (earlier ++ batch) c then [c] else []).
Proof.
  revert earlier. induction batch as [|c0 batch IH]; intros earlier; simpl.
  - by rewrite !app_nil_r.
  - rewrite IH, <- !app_assoc. done.
Qed.

Lemma newcomers_snoc st batch c :
  newcomers st (batch ++ [c])
  = newcomers st batch ++ (if opens_endpoint st batch c then [c] else []).
Proof. unfold newcomers. by rewrite newcomers_after_snoc. Qed.

Lemma same_endpoint_self (c : Proxy) : same_endpoint (IP c) (Port c) c = true.
Proof. unfold same_endpoint. by rewrite !bool_decide_eq_true_2. Qed.

Lemma same_endpoint_sym (c r : Proxy) :
  same_endpoint (IP c) (Port c) r = same_endpoint (IP r) (Port r) c.
Proof.
  unfold same_endpoint.
  destruct (decide (IP r = IP c)) as [H1|H1], (decide (Port r = Port c)) as [H2|H2].
  - by rewrite !bool_decide_eq_true_2.
  - rewrite (bool_decide_eq_false_2 (Port r = Port c)) by done.
    rewrite (bool_decide_eq_false_2 (Port c = Port r)) by done.
    by rewrite !andb_false_r.
  - rewrite (bool_decide_eq_false_2 (IP r = IP c)) by done.
    by rewrite (bool_decide_eq_false_2 (IP c = IP r)) by done.
  - rewrite (bool_decide_eq_false_2 (IP r = IP c)) by done.
    by rewrite (bool_decide_eq_false_2 (IP c = IP r)) by done.
Qed.

Lemma same_endpoint_transfer ip port (c r : Proxy) :
  same_endpoint ip port c = true →
  same_endpoint (IP c) (Port c) r = same_endpoint ip port r.
Proof.
  unfold same_endpoint.
  intros [->%bool_decide_eq_true ->%bool_decide_eq_true]%andb_true_iff. done.
Qed.

(** The endpoints of the newcomers are the endpoints of the batch that the
    table does not have. *)
Lemma existsb_transfer ip port (c : Proxy) (l : list Proxy) :
  same_endpoint ip port c = true →
  existsb (same_endpoint (IP c) (Port c)) l = existsb (same_endpoint ip port) l.
Proof.
  intros Hc. induction l as [|r l IH]; [done|]. cbn [existsb].
  by rewrite IH, (same_endpoint_transfer ip port c r Hc).
Qed.

Lemma existsb_newcomers st batch ip port :
  existsb (same_endpoint ip port) (newcomers st batch)
  = negb (IsProxyExists st ip port) && existsb (same_endpoint ip port) batch.
Proof.
  induction batch as [|c batch IH] using rev_ind.
  - simpl. by rewrite andb_false_r.
  - rewrite newcomers_snoc. rewrite !existsb_app. rewrite IH.
    cbn [existsb]. rewrite orb_false_r. unfold opens_endpoint.
    destruct (same_endpoint ip port c) eqn:Hc.
    + unfold IsProxyExists. rewrite !(existsb_transfer ip port c) by done.
      destruct (existsb (same_endpoint ip port) (rows st)); simpl; [done|].
      destruct (existsb (same_endpoint ip port) batch); simpl; [done|].
      by rewrite Hc.
    + rewrite orb_false_r.
      destruct (negb _ && negb _); simpl; [by rewrite Hc, orb_false_r|by rewrite orb_false_r].
Qed.

Lemma existsb_imap {A B} (P : B → bool) (Q : A → bool) (f : nat → A → B) (l : list A) :
  (∀ i x, P (f i x) = Q x) → existsb P (imap f l) = existsb Q l.
Proof.
  revert f. induction l as [|x l IH]; intros f Hf; [done|].
  cbn [imap existsb]. rewrite Hf. f_equal. apply IH. intros i y. apply Hf.
Qed.

Lemma existsb_created_rows st batch now ip port :
  existsb (same_endpoint ip port) (created_rows st batch now)
  = negb (IsProxyExists st ip port) && existsb (same_endpoint ip port) batch.
Proof.
  unfold created_rows. rewrite <- existsb_newcomers.
  apply existsb_imap. intros i c. apply same_endpoint_inserted.
Qed.

Lemma same_endpoint_refresh_all ip port batch r :
  same_endpoint ip port (refresh_all batch r) = same_endpoint ip port r.
Proof.
  induction batch as [|c batch IH] using rev_ind; [done|].
  by rewrite refresh_all_snoc, same_endpoint_refresh_row.
Qed.

Lemma existsb_fmap_refresh_all ip port batch (rs : list Row) :
  existsb (same_endpoint ip port) (refresh_all batch <$> rs)
  = existsb (same_endpoint ip port) rs.
Proof.
  induction rs as [|r rs IH]; [done|].
  rewrite fmap_cons. cbn [existsb]. by rewrite same_endpoint_refresh_all, IH.
Qed.

Lemma filter_fmap_refresh_all ip port batch (rs : list Row) :
  length (List.filter (same_endpoint ip port) (refresh_all batch <$> rs))
  = length (List.filter (same_endpoint ip port) rs).
Proof.
  induction rs as [|r rs IH]; [done|].
  rewrite fmap_cons. cbn [List.filter]. rewrite same_endpoint_refresh_all.
  destruct (same_endpoint ip port r); cbn [length]; by rewrite IH.
Qed.

Lemma created_rows_snoc st batch c now :
  created_rows st (batch ++ [c]) now
  = created_rows st batch now
    ++ (if opens_endpoint st batch c
        then [inserted (lastID st + 1 + N.of_nat (length (newcomers st batch))) now c]
        else []).
Proof.
  unfold created_rows. rewrite newcomers_snoc, imap_app.
  destruct (opens_endpoint st batch c); [|done].
  cbn [imap]. by rewrite Nat.add_0_r.
Qed.

(** The loop on a batch of fresh structs commits, and the table it leaves is
    the old rows and one row for every newcomer, all refreshed by the
    batch. *)
Lemma upsert_loop_fresh st now batch :
  (∀ c, c ∈ batch → ID c = 0%N) →
  ∃ st1 batch1,
    upsert_loop st batch now = Some (st1, batch1)
    ∧ rows st1 = refresh_all batch <$> (rows st ++ created_rows st batch now)
    ∧ lastID st1 = (lastID st + N.of_nat (length (newcomers st batch)))%N.
Proof.
  induction batch as [|c batch IH] using rev_ind; intros Hfresh.
  - exists st, []. split; [done|]. split; [|simpl; lia].
    unfold created_rows. simpl. rewrite app_nil_r.
    change (refresh_all []) with (@id Row). by rewrite list_fmap_id.
  - destruct IH as (st1 & batch1 & Hloop & Hrows & Hlast).
    { intros c0 Hc0. apply Hfresh, elem_of_app. by left. }
    assert (Hid : ID c = 0%N).
    { apply Hfresh, elem_of_app. right. by apply list_elem_of_singleton. }
    rewrite upsert_loop_snoc, Hloop.
    assert (Hex : IsProxyExists st1 (IP c) (Port c) = negb (opens_endpoint st batch c)).
    { unfold IsProxyExists at 1. rewrite Hrows, existsb_fmap_refresh_all, existsb_app,
        existsb_created_rows. unfold opens_endpoint, IsProxyExists.
      destruct (existsb _ (rows st)); simpl; [done|].
      by rewrite negb_involutive. }
    rewrite created_rows_snoc, newcomers_snoc.
    unfold upsert_one. rewrite Hex.
    destruct (opens_endpoint st batch c) eqn:Hopen; cbn [negb].
    + rewrite (db_Create_fresh st1 c now Hid). eexists _, _. split; [done|].
      cbn [rows lastID]. split; [|rewrite Hlast, length_app; simpl; lia].
      rewrite Hlast, !app_assoc, fmap_app. cbn [fmap list_fmap].
      replace (lastID st + N.of_nat (length (newcomers st batch)) + 1)%N
        with (lastID st + 1 + N.of_nat (length (newcomers st batch)))%N by lia.
      set (new := inserted _ now c).
      assert (Hnone : ∀ r, r ∈ rows st1 → same_endpoint (IP c) (Port c) r = false).
      { intros r Hr. apply (IsProxyExists_false st1); [|done]. by rewrite Hex. }
      f_equal.
      * rewrite Hrows.
        apply list_fmap_ext. intros i r Hr.
        rewrite refresh_all_snoc. symmetry. apply refresh_row_nomatch. apply Hnone.
        rewrite Hrows. apply list_elem_of_fmap. exists r. split; [done|].
        by eapply list_elem_of_lookup_2.
      * f_equal. rewrite refresh_all_snoc.
        assert (Hb : refresh_all batch new = new).
        { rewrite refresh_all_last, last_match_none; [done|].
          intros c0 Hc0.
          destruct (same_endpoint (IP c0) (Port c0) new) eqn:E; [|done].
          unfold new in E. rewrite same_endpoint_inserted in E.
          unfold opens_endpoint in Hopen. apply andb_true_iff in Hopen as [_ Hopen].
          apply negb_true_iff in Hopen.
          assert (existsb (same_endpoint (IP c) (Port c)) batch = true); [|congruence].
          apply existsb_exists. exists c0. split; [by apply list_elem_of_In|].
          by rewrite same_endpoint_sym. }
        rewrite Hb. rewrite refresh_row_match.
        -- symmetry. apply refresh_same_descriptive. apply inserted_keys.
        -- unfold new. rewrite same_endpoint_inserted. apply same_endpoint_self.
    + eexists _, _. split; [done|]. rewrite !app_nil_r.
      split; [|unfold db_Update_where; cbn [lastID with_rows]; by rewrite Hlast].
      unfold db_Update_where. cbn [rows with_rows]. fold (refresh_row c).
      rewrite Hrows, <- list_fmap_compose. apply list_fmap_ext.
      intros i r _. simpl. by rewrite refresh_all_snoc.
Qed.

Lemma filter_length_pos {A} (f : A → bool) (l : list A) :
  existsb f l = true → (1 ≤ length (List.filter f l))%nat.
Proof.
  induction l as [|x l IH]; simpl; [done|].
  destruct (f x); simpl; [lia|]. exact IH.
Qed.

(** A run on a batch of fresh structs commits, and the table it leaves has
    a closed form. *)
Lemma BatchCreate_fresh st batch now :
  (∀ c, c ∈ batch → ID c = 0%N) →
  let r1 := BatchCreateWithDuplicateCheck st batch now in
  let st1 := r1.1.1 in
  r1.2 = true
  ∧ rows st1 = refresh_all batch <$> (rows st ++ created_rows st batch now)
  ∧ (∀ c, c ∈ batch →
       endpoint_count st1 (IP c) (Port c)
       = Nat.max 1 (endpoint_count st (IP c) (Port c)))
  ∧ (∀ ip port,
       (endpoint_count st1 ip port ≤ Nat.max 1 (endpoint_count st ip port))%nat)
  ∧ (∀ now', BatchCreateWithDuplicateCheck st1 batch now' = (st1, batch, true))
  ∧ (∀ now', BatchCreateWithDuplicateCheck st1 r1.1.2 now' = (st1, r1.1.2, true))
  ∧ (∀ batch' now',
       ingest_view <$> batch' = ingest_view <$> batch →
       BatchCreateWithDuplicateCheck st1 batch' now' = (st1, batch', true))
  ∧ (∀ r, health_view (refresh_all batch r) = health_view r
          ∧ descriptive_view (refresh_all batch r)
            = match last_match batch r with
              | Some c => descriptive_view c
              | None => descriptive_view r
              end).
Proof.
  intros Hfresh.
  destruct (upsert_loop_fresh st now batch Hfresh) as (st1 & batch1 & Hloop & Hrows & _).
  pose proof (BatchCreate_rerun st batch now) as Hrerun. cbv zeta in *.
  assert (Hrun : BatchCreateWithDuplicateCheck st batch now = (st1, batch1, true)).
  { unfold BatchCreateWithDuplicateCheck. rewrite Hloop.
    destruct batch; [|done]. simpl in Hloop. by injection Hloop as <- <-. }
  rewrite Hrun in *. cbn [fst snd] in *.
  destruct Hrerun as (_ & _ & Hcommitted & Hviews & Hcount).
  destruct (Hcommitted eq_refl) as (Hagain & Hstructs & _).
  split; [done|]. split; [done|]. split; [|split; [done|]].
  - intros c Hc. specialize (Hcount (IP c) (Port c)).
    assert (Hge : (endpoint_count st (IP c) (Port c)
                   ≤ endpoint_count st1 (IP c) (Port c))%nat).
    { unfold endpoint_count. rewrite Hrows, filter_fmap_refresh_all,
        List.filter_app, length_app. lia. }
    assert (Hone : (1 ≤ endpoint_count st1 (IP c) (Port c))%nat).
    { apply filter_length_pos.
      rewrite Hrows, existsb_fmap_refresh_all, existsb_app, existsb_created_rows.
      unfold IsProxyExists. destruct (existsb _ (rows st)); simpl; [done|].
      apply existsb_exists. exists c. split; [by apply list_elem_of_In|].
      apply same_endpoint_self. }
    lia.
  - split; [intros now'; by apply Hagain|].
    split; [intros now'; by apply Hagain|]. split; [done|done].
Qed.

(** C5. Bulk ingestion is an upsert keyed by the endpoint.  For every table
    and every batch: running the batch again, at any time, leaves the table
    the first run left; no endpoint gains a second row (an endpoint ends with
    one row, or with as many as it had before); a refresh changes the five
    descriptive fields only, to those of the last candidate that names the
    endpoint, and keeps the health counters; a run that returns an error has
    rolled the table back.  A run on a batch of fresh structs (primary key
    0, as the adapters build them) commits.  The table it leaves holds the
    old rows and one new row for every endpoint the table did not have,
    created from the first candidate that names the endpoint, every row
    refreshed ([refresh_all]); every endpoint of the batch is stored.
    Running the batch again with the same structs as they were given, as the
    first run left them, or with other structs of the same endpoints and
    descriptive fields, commits and returns the same table. *)
Theorem BatchCreateWithDuplicateCheck_idempotent_upsert st batch now :
  let r1 := BatchCreateWithDuplicateCheck st batch now in
  let st1 := r1.1.1 in
  (∀ now', (BatchCreateWithDuplicateCheck st1 batch now').1.1 = st1)
  ∧ (∀ ip port,
       (endpoint_count st1 ip port ≤ Nat.max 1 (endpoint_count st ip port))%nat)
  ∧ (∀ r, health_view (refresh_all batch r) = health_view r
          ∧ descriptive_view (refresh_all batch r)
            = match last_match batch r with
              | Some c => descriptive_view c
              | None => descriptive_view r
              end)
  ∧ (r1.2 = false → st1 = st)
  ∧ ((∀ c, c ∈ batch → ID c = 0%N) →
     r1.2 = true
     ∧ rows st1 = refresh_all batch <$> (rows st ++ created_rows st batch now)
     ∧ (∀ c, c ∈ batch →
          endpoint_count st1 (IP c) (Port c)
          = Nat.max 1 (endpoint_count st (IP c) (Port c)))
     ∧ (∀ now', BatchCreateWithDuplicateCheck st1 batch now' = (st1, batch, true))
     ∧ (∀ now', BatchCreateWithDuplicateCheck st1 r1.1.2 now' = (st1, r1.1.2, true))
     ∧ (∀ batch' now',
          ingest_view <$> batch' = ingest_view <$> batch →
          BatchCreateWithDuplicateCheck st1 batch' now' = (st1, batch', true))).
Proof.
  pose proof (BatchCreate_rerun st batch now) as (Hagain & Hback & _ & Hviews & Hcount).
  cbv zeta. split; [exact Hagain|]. split; [exact Hcount|]. split; [exact Hviews|].
  split; [exact Hback|]. intros Hfresh.
  pose proof (BatchCreate_fresh st batch now Hfresh) as H. cbv zeta in H.
  destruct H as (H1 & H2 & H3 & _ & H5 & H6 & H7 & _).
  repeat split; assumption.
Qed.

Lemma BatchCreate_witness :
  ((∀ c, c ∈ mixed_batch → ID c = 0%N)
   ∧ let r1 := BatchCreateWithDuplicateCheck store_one mixed_batch (40 * Second) in
     r1.2 = true
     ∧ rows r1.1.1
       = refresh_all mixed_batch
           <$> (rows store_one ++ created_rows store_one mixed_batch (40 * Second))
     ∧ (∀ c, c ∈ mixed_batch →
          endpoint_count r1.1.1 (IP c) (Port c)
          = Nat.max 1 (endpoint_count store_one (IP c) (Port c))))
  ∧ (let keyed := [set_ID 1 (paid_candidate Wandou_Name "9.9.9.9" 80 false)] in
     let r1 := BatchCreateWithDuplicateCheck store_one keyed (40 * Second) in
     r1.2 = false ∧ r1.1.1 = store_one).
Proof.
  assert (H : ∀ c, c ∈ mixed_batch → ID c = 0%N).
  { intros c Hc. unfold mixed_batch in Hc.
    repeat (apply elem_of_cons in Hc as [->|Hc]; [reflexivity|]).
    by apply elem_of_nil in Hc. }
  split.
  - split; [exact H|].
    pose proof (BatchCreateWithDuplicateCheck_idempotent_upsert
                  store_one mixed_batch (40 * Second)) as Hthm.
    cbv zeta in Hthm. destruct Hthm as (_ & _ & _ & _ & Hthm).
    destruct (Hthm H) as (H1 & H2 & H3 & _).
    split; [exact H1|]. split; [exact H2|exact H3].
  - pose proof (BatchCreateWithDuplicateCheck_idempotent_upsert store_one
                  [set_ID 1 (paid_candidate Wandou_Name "9.9.9.9" 80 false)]
                  (40 * Second)) as Hthm.
    cbv zeta in Hthm. destruct Hthm as (_ & _ & _ & Hback & _).
    cbv zeta. split; [reflexivity|]. apply Hback. reflexivity.
Defined.

Example BatchCreate_dedup_scenario :
  let r := BatchCreateWithDuplicateCheck store_one mixed_batch (40 * Second) in
  r.2 = true
  ∧ (λ r, (ID r, IP r, Port r, Source r, Anonymous r, Success r, Failure r, Speed r,
           Available r, LastCheck r))
      <$> rows r.1.1
    = [(1%N, "1.2.3.4", 8080, Wandou_Name, false, 4, 1, 90, true, 20 * Second);
       (2%N, "5.6.7.8", 3128, Wandou_Name, false, 0, 0, 0, true, 40 * Second)]
  ∧ (BatchCreateWithDuplicateCheck r.1.1 mixed_batch (50 * Second)).1.1 = r.1.1.
Proof. by vm_compute. Qed.

(** ** C6: feedback *)

Lemma db_First_id st id p : db_First st id = Some p → ID p = id.
Proof.
  unfold db_First. destruct (List.find (has_id id) (rows st)) as [r|] eqn:E; [|done].
  intros [= <-]. apply find_some in E as [_ E].
  by apply bool_decide_eq_true in E.
Qed.

Lemma int_at_insert (m : gmap N Z) k v : int_at (<[k := v]> m) k = v.
Proof. unfold int_at. by rewrite lookup_insert_eq. Qed.

(** When the write lock can be taken, [updateProxyStats] returns, and this
    is what it leaves in the runtime maps. *)
Lemma updateProxyStats_free s proxy success now :
  mu s = RWMutex_free →
  ∃ s',
    updateProxyStats s proxy success now = Returns s'
    ∧ mu s' = RWMutex_free
    ∧ lastUsed s' = <[ID proxy := now]> (lastUsed s)
    ∧ useCount s' = <[ID proxy := GoInt.incr (int_at (useCount s) (ID proxy))]> (useCount s)
    ∧ weights s' = <[ID proxy := calculateScore proxy]> (weights s)
    ∧ (success = true →
       failCount s' = <[ID proxy := 0]> (failCount s)
       ∧ cooldown s' = delete (ID proxy) (cooldown s))
    ∧ (success = false →
       failCount s' = <[ID proxy := GoInt.incr (int_at (failCount s) (ID proxy))]> (failCount s)
       ∧ cooldown s' =
           if bool_decide (3 <= GoInt.incr (int_at (failCount s) (ID proxy)))
           then <[ID proxy := Add now (5 * Minute)]> (cooldown s)
           else cooldown s).
Proof.
  intros Hmu. unfold updateProxyStats. rewrite Hmu. simpl.
  eexists. split; [done|]. destruct success; simpl.
  - repeat split; try done.
  - rewrite !int_at_insert.
    destruct (bool_decide _); simpl; repeat split; try done.
Qed.

Lemma hand_out_free s selected now :
  mu s = RWMutex_free → ∃ s', hand_out s selected now = Returns (s', Selected selected).
Proof.
  intros Hmu. unfold hand_out.
  destruct (updateProxyStats_free s selected true now Hmu) as (s' & -> & _).
  by exists s'.
Qed.

(** The UPDATE of [UpdateProxyStatus] is refused on every input: it names
    the column success_rate, which the table does not have.  Nothing is
    written. *)
Lemma UpdateProxyStatus_refused st proxy available speed now :
  UpdateProxyStatus st proxy available speed now
  = (st, Some (if decide (ID proxy = 0%N) then MissingWhereClause
               else UnknownColumn "success_rate")).
Proof.
  unfold UpdateProxyStatus, db_Model_Updates. by destruct (decide _).
Qed.

(** C6, as the code has it.  A report for an id the store does not know
    changes nothing.  For a stored proxy (and with the scheduler's lock
    free) the runtime maps get [lastUsed = now] and [useCount + 1]; a success
    resets [failCount] to 0, removes the cooldown entry and writes nothing to
    the store; a failure adds one to [failCount] and sets the cooldown to
    [now + 5 min] once the count is 3 or more. *)
Theorem ReportProxyStatus_feedback :
  (∀ s st id success speed now,
      getProxyByID st id = None →
      ReportProxyStatus s st id success speed now = Returns (s, st))
  ∧ (∀ s st id success speed now proxy,
      mu s = RWMutex_free →
      getProxyByID st id = Some proxy →
      GoInt.min_int <= int_at (useCount s) id < GoInt.max_int →
      GoInt.min_int <= int_at (failCount s) id < GoInt.max_int →
      ∃ s' st',
        ReportProxyStatus s st id success speed now = Returns (s', st')
        ∧ lastUsed s' !! id = Some now
        ∧ useCount s' !! id = Some (int_at (useCount s) id + 1)
        ∧ (success = true →
           failCount s' !! id = Some 0 ∧ cooldown s' !! id = None ∧ st' = st)
        ∧ (success = false →
           failCount s' !! id = Some (int_at (failCount s) id + 1)
           ∧ (3 <= int_at (failCount s) id + 1 →
              cooldown s' !! id = Some (now + 5 * Minute))
           ∧ (int_at (failCount s) id + 1 < 3 →
              cooldown s' !! id = cooldown s !! id))).
Proof.
  split.
  - intros s st id success speed now Hnone. unfold ReportProxyStatus. by rewrite Hnone.
  - intros s st id success speed now proxy Hmu Hget Huse Hfail.
    pose proof (db_First_id _ _ _ Hget) as Hpid. subst id.
    destruct (updateProxyStats_free s proxy success now Hmu)
      as (s' & Hrun & _ & Hlast & Huc & _ & Hok & Hko).
    unfold ReportProxyStatus. rewrite Hget, Hrun. simpl.
    destruct success; simpl; eexists _, _; (split; [done|]).
    + destruct (Hok eq_refl) as [Hf Hc].
      rewrite Hlast, Huc, Hf, Hc, !lookup_insert_eq, lookup_delete_eq,
        (incr_exact _ Huse).
      repeat split; done.
    + destruct (Hko eq_refl) as [Hf Hc].
      rewrite Hlast, Huc, Hf, Hc, !lookup_insert_eq,
        (incr_exact _ Huse), (incr_exact _ Hfail).
      split; [done|]. split; [done|]. split; [done|]. split; [done|].
      split.
      * intros H3. rewrite bool_decide_eq_true_2 by done.
        by rewrite lookup_insert_eq.
      * intros H3. rewrite bool_decide_eq_false_2 by lia. done.
Qed.

Lemma ReportProxyStatus_feedback_witness :
  ∃ s' st',
    ReportProxyStatus NewProxyScheduler store_one 1 false 250 (30 * Second)
    = Returns (s', st')
    ∧ lastUsed s' !! 1%N = Some (30 * Second)
    ∧ useCount s' !! 1%N = Some (int_at (useCount NewProxyScheduler) 1 + 1)
    ∧ (false = true →
       failCount s' !! 1%N = Some 0 ∧ cooldown s' !! 1%N = None ∧ st' = store_one)
    ∧ (false = false →
       failCount s' !! 1%N = Some (int_at (failCount NewProxyScheduler) 1 + 1)
       ∧ (3 <= int_at (failCount NewProxyScheduler) 1 + 1 →
          cooldown s' !! 1%N = Some (30 * Second + 5 * Minute))
       ∧ (int_at (failCount NewProxyScheduler) 1 + 1 < 3 →
          cooldown s' !! 1%N = cooldown NewProxyScheduler !! 1%N)).
Proof.
  apply (proj2 ReportProxyStatus_feedback NewProxyScheduler store_one 1%N false 250
           (30 * Second) stored_row).
  - reflexivity.
  - reflexivity.
  - vm_compute. split; [discriminate | reflexivity].
  - vm_compute. split; [discriminate | reflexivity].
Defined.

(** C6 fails as stated.  A success report with speed 50 for the stored row 1,
    whose stored speed is 90, returns with the table untouched: nothing of
    the outcome is persisted.  A failure report with speed 250 leaves the
    table untouched as well, its UPDATE being refused.  And a report for the
    id 7, which the table does not hold, leaves the runtime maps as they
    were. *)
Lemma ReportProxyStatus_persistence_counterexample :
  (∃ s', ReportProxyStatus NewProxyScheduler store_one 1 true 50 (30 * Second)
         = Returns (s', store_one))
  ∧ (∃ s', ReportProxyStatus NewProxyScheduler store_one 1 false 250 (30 * Second)
           = Returns (s', store_one))
  ∧ Speed <$> db_First store_one 1 = Some 90
  ∧ ReportProxyStatus NewProxyScheduler store_one 7 false 50 (30 * Second)
    = Returns (NewProxyScheduler, store_one).
Proof.
  split; [eexists; reflexivity|]. split; [eexists; reflexivity|]. split; reflexivity.
Qed.

(** ** C8: the pool optimisation *)

(** C8. [OptimizePool] ends at its first statement.  The DELETE names the
    column success_rate, which the table does not have; the database refuses
    the statement and the function returns that error before it loads a row.
    So on every table nothing is deleted, no score is recomputed and no
    [max_concurrent] is raised: from one proxy at score 10 and one at score
    85 both rows are still there afterwards, as they were. *)
Theorem OptimizePool_stops_at_its_first_statement :
  (∀ st now, OptimizePool st now = (st, Some (UnknownColumn "success_rate")))
  ∧ (λ r, (row_id r, Score r, MaxConcurrent r)) <$> rows seeded_store
    = [(1%N, 10%float, 10); (2%N, 85%float, 10)]
  ∧ (λ r, (row_id r, Score r, MaxConcurrent r))
      <$> rows (OptimizePool seeded_store (30 * Second)).1
    = [(1%N, 10%float, 10); (2%N, 85%float, 10)].
Proof. split; [done|]. split; reflexivity. Qed.

(** ** C2: the qualification filter and the strategies *)

Lemma same_filter_refl now s : same_filter now s s.
Proof. by repeat split. Qed.

Lemma same_filter_trans now s1 s2 s3 :
  same_filter now s1 s2 → same_filter now s2 s3 → same_filter now s1 s3.
Proof.
  intros (? & ? & ? & ? & H12) (? & ? & ? & ? & H23).
  do 4 (split; [congruence|]). intros id. by rewrite H23, H12.
Qed.

Lemma qualified_same_filter now s s' proxy task :
  same_filter now s s' → qualified s' proxy task now = qualified s proxy task now.
Proof. intros (_ & _ & _ & Hf & Hc). unfold qualified. by rewrite Hf, Hc. Qed.

Lemma lt_3_negb a : bool_decide (a < 3) = negb (bool_decide (3 <= a)).
Proof.
  destruct (decide (3 <= a)).
  - rewrite bool_decide_eq_false_2, bool_decide_eq_true_2 by lia. done.
  - rewrite bool_decide_eq_true_2, bool_decide_eq_false_2 by lia. done.
Qed.

Lemma cooling_delete_stale s id cd now :
  cooldown s !! id = Some cd → Before now cd = false →
  ∀ id', cooling (set_cooldown (delete id (cooldown s)) s) id' now = cooling s id' now.
Proof.
  intros Hcd Hb id'. unfold cooling. simpl.
  destruct (decide (id' = id)) as [->|Hne].
  - by rewrite lookup_delete_eq, Hcd, Hb.
  - by rewrite lookup_delete_ne.
Qed.

Lemma isProxyQualified_spec s proxy task now :
  (isProxyQualified s proxy task now).1 = qualified s proxy task now
  ∧ same_filter now s (isProxyQualified s proxy task now).2
  ∧ weights (isProxyQualified s proxy task now).2 = weights s
  ∧ (∀ id, id ≠ ID proxy →
       cooldown (isProxyQualified s proxy task now).2 !! id = cooldown s !! id)
  ∧ (qualified s proxy task now = true →
       cooldown (isProxyQualified s proxy task now).2 !! ID proxy = None).
Proof.
  unfold isProxyQualified, qualified. rewrite lt_3_negb.
  set (tyok := bool_decide _ || bool_decide _).
  assert (Hty : negb (bool_decide (task_ProxyType task = ""))
                && negb (bool_decide (Type_ proxy = task_ProxyType task))
                = negb tyok).
  { unfold tyok. by destruct (bool_decide _), (bool_decide _). }
  rewrite Hty. clearbody tyok. clear Hty. destruct tyok; simpl.
  2: { split; [done|]. split; [apply same_filter_refl|]. by repeat split. }
  unfold cooling at 1 2.
  destruct (cooldown s !! ID proxy) as [cd|] eqn:Ecd; simpl.
  - destruct (Before now cd) eqn:Eb; simpl.
    + split; [done|]. split; [apply same_filter_refl|]. by repeat split.
    + pose proof (cooling_delete_stale s _ _ _ Ecd Eb) as Hcool.
      destruct (bool_decide (3 <= int_at (failCount s) (ID proxy))); simpl.
      * split; [done|]. split; [by repeat split|]. split; [done|].
        split; [|done]. intros id Hne. by rewrite lookup_delete_ne.
      * split; [done|]. split; [by repeat split|]. split; [done|].
        split; [|intros _; by rewrite lookup_delete_eq].
        intros id Hne. by rewrite lookup_delete_ne.
  - destruct (bool_decide (3 <= int_at (failCount s) (ID proxy))); simpl.
    + split; [done|]. split; [apply same_filter_refl|]. by repeat split.
    + split; [done|]. split; [apply same_filter_refl|]. by repeat split.
Qed.

Lemma qualified_candidates_spec now task proxies :
  ∀ s,
    same_filter now s (qualified_candidates s proxies task now).1
    ∧ weights (qualified_candidates s proxies task now).1 = weights s
    ∧ (qualified_candidates s proxies task now).2
      = List.filter (λ p, qualified s p task now) proxies.
Proof.
  induction proxies as [|proxy rest IH]; intros s.
  - simpl. split; [apply same_filter_refl|done].
  - cbn [qualified_candidates List.filter].
    destruct (isProxyQualified_spec s proxy task now) as (Hv & Hsf & Hw & _ & _).
    destruct (isProxyQualified s proxy task now) as [ok s1]. simpl in Hv, Hsf, Hw.
    destruct (IH s1) as (Hsf1 & Hw1 & Hc1).
    destruct (qualified_candidates s1 rest task now) as [s2 cands]. simpl in *.
    split; [by eapply same_filter_trans|]. split; [congruence|].
    rewrite <- Hv. rewrite Hc1.
    assert (Heq : List.filter (λ p, qualified s1 p task now) rest
                  = List.filter (λ p, qualified s p task now) rest).
    { apply filter_ext. intros p. by apply qualified_same_filter. }
    rewrite Heq. by destruct ok.
Qed.

Lemma same_filter_set_weights now s w : same_filter now s (set_weights w s).
Proof. by repeat split. Qed.

Lemma weighted_candidates_spec now task proxies :
  ∀ s,
    let r := weighted_candidates s proxies task now in
    same_filter now s r.1.1
    ∧ r.1.2 = List.filter (λ p, qualified s p task now) proxies
    ∧ length r.2 = length r.1.2.
Proof.
  induction proxies as [|proxy rest IH]; intros s.
  - simpl. split; [apply same_filter_refl|done].
  - cbn [weighted_candidates List.filter].
    destruct (isProxyQualified_spec s proxy task now) as (Hv & Hsf & _).
    destruct (isProxyQualified s proxy task now) as [ok s1]. simpl in Hv, Hsf.
    assert (Hfilter : ∀ s', same_filter now s s' →
              List.filter (λ p, qualified s' p task now) rest
              = List.filter (λ p, qualified s p task now) rest).
    { intros s' Hs'. apply filter_ext. intros p. by apply qualified_same_filter. }
    rewrite <- Hv. destruct ok; simpl.
    + assert (Hlt : bool_decide (3 <= int_at (failCount s1) (ID proxy)) = false).
      { destruct Hsf as (_ & _ & _ & Hf & _). rewrite Hf.
        symmetry in Hv. unfold qualified in Hv. rewrite lt_3_negb in Hv.
        apply andb_true_iff in Hv as [_ Hv]. by apply negb_true_iff in Hv. }
      rewrite Hlt.
      destruct (float_at (weights s1) (ID proxy) =? 0)%float.
      * match goal with |- context [weighted_candidates ?s2 rest task now] =>
          destruct (IH s2) as (H1 & H2 & H3);
          destruct (weighted_candidates s2 rest task now) as [[s3 cs] ws] end.
        simpl in *. split; [|split; [|by rewrite H3]].
        -- eapply same_filter_trans; [exact Hsf|].
           eapply same_filter_trans; [apply same_filter_set_weights|exact H1].
        -- rewrite H2. f_equal. apply Hfilter.
           eapply same_filter_trans; [exact Hsf|apply same_filter_set_weights].
      * destruct (IH s1) as (H1 & H2 & H3).
        destruct (weighted_candidates s1 rest task now) as [[s3 cs] ws].
        simpl in *. split; [by eapply same_filter_trans|].
        split; [|by rewrite H3]. rewrite H2. f_equal. by apply Hfilter.
    + destruct (IH s1) as (H1 & H2 & H3).
      destruct (weighted_candidates s1 rest task now) as [[s3 cs] ws].
      simpl in *. split; [by eapply same_filter_trans|].
      split; [|done]. rewrite H2. by apply Hfilter.
Qed.

Lemma weighted_walk_elem r candidates ws c :
  weighted_walk r candidates ws = Some c → c ∈ candidates.
Proof.
  revert r ws. induction candidates as [|c0 cs IH]; intros r [|w ws]; simpl; try done.
  destruct (r - w <=? 0)%float.
  - intros [= ->]. apply elem_of_cons. by left.
  - intros H. apply elem_of_cons. right. by eapply IH.
Qed.

Lemma weighted_choice_elem rnd candidates ws c :
  weighted_choice rnd candidates ws = Some c → c ∈ candidates.
Proof.
  unfold weighted_choice.
  destruct (weighted_walk _ candidates ws) as [c'|] eqn:E.
  - intros [= <-]. by eapply weighted_walk_elem.
  - intros Hlast. apply last_Some in Hlast as [l' ->].
    apply elem_of_app. right. by apply list_elem_of_singleton.
Qed.

Lemma hand_out_selected s selected now s' sel :
  hand_out s selected now = Returns (s', sel) → sel = Selected selected.
Proof.
  unfold hand_out. destruct (updateProxyStats s selected true now); simpl; [|done..].
  by intros [= _ <-].
Qed.

Lemma elem_of_filter_qualified s task now p proxies :
  p ∈ List.filter (λ p, qualified s p task now) proxies →
  p ∈ proxies ∧ qualified s p task now = true.
Proof. rewrite !list_elem_of_In. apply filter_In. Qed.

Lemma qualified_iff s proxy task now :
  qualified s proxy task now = true ↔
  (task_ProxyType task = "" ∨ Type_ proxy = task_ProxyType task)
  ∧ (∀ cooldownTime, cooldown s !! ID proxy = Some cooldownTime → cooldownTime <= now)
  ∧ int_at (failCount s) (ID proxy) < 3.
Proof.
  unfold qualified, cooling, Before.
  rewrite !andb_true_iff, orb_true_iff, negb_true_iff, !bool_decide_eq_true.
  destruct (cooldown s !! ID proxy) as [cd|].
  - rewrite bool_decide_eq_false. split.
    + intros [[Ht Hc] Hf]. split; [done|]. split; [|done]. intros ? [= <-]. lia.
    + intros (Ht & Hc & Hf). split; [|done]. split; [done|].
      specialize (Hc cd eq_refl). lia.
  - split.
    + intros [[Ht _] Hf]. by repeat split.
    + intros (Ht & _ & Hf). by repeat split.
Qed.

Section StrategyFacts.

Variable sort_Slice : ∀ A : Type, (A → A → bool) → list A → list A.
Hypothesis sort_Slice_perm : ∀ A less (l : list A), sort_Slice A less l ≡ₚ l.

Lemma weightedSchedule_selects s proxies task now rnd s' p :
  weightedSchedule s proxies task now rnd = Returns (s', Selected p) →
  p ∈ proxies ∧ qualified s p task now = true.
Proof.
  unfold weightedSchedule. destruct proxies as [|p0 proxies0]; [done|].
  set (proxies := p0 :: proxies0).
  destruct (weighted_candidates_spec now task proxies s) as (_ & Hc & _).
  destruct (weighted_candidates s proxies task now) as [[s1 cands] ws].
  simpl in Hc. destruct cands as [|c0 cands0]; [done|].
  set (cands := c0 :: cands0) in *.
  destruct (weighted_choice rnd cands ws) as [sel|] eqn:E; [|done].
  intros H. apply hand_out_selected in H as [= <-].
  apply weighted_choice_elem in E. rewrite Hc in E.
  by apply elem_of_filter_qualified.
Qed.

Lemma defaultSchedule_selects s proxies task now rnd s' p :
  defaultSchedule s proxies task now rnd = Returns (s', Selected p) →
  p ∈ proxies ∧ qualified s p task now = true.
Proof.
  unfold defaultSchedule. destruct proxies as [|p0 proxies0]; [done|].
  set (proxies := p0 :: proxies0).
  destruct (qualified_candidates_spec now task proxies s) as (_ & _ & Hc).
  destruct (qualified_candidates s proxies task now) as [s1 cands].
  simpl in Hc. destruct cands as [|c0 cands0]; [done|].
  set (cands := c0 :: cands0) in *.
  destruct (cands !! _) as [sel|] eqn:E; [|done].
  intros H. apply hand_out_selected in H as [= <-].
  apply list_elem_of_lookup_2 in E. rewrite Hc in E.
  by apply elem_of_filter_qualified.
Qed.

Lemma sorted_head_schedule_selects less s proxies task now s' p :
  sorted_head_schedule sort_Slice less s proxies task now
  = Returns (s', Selected p) →
  p ∈ proxies ∧ qualified s p task now = true.
Proof.
  unfold sorted_head_schedule. destruct proxies as [|p0 proxies0]; [done|].
  set (proxies := p0 :: proxies0).
  destruct (qualified_candidates_spec now task proxies s) as (_ & _ & Hc).
  destruct (qualified_candidates s proxies task now) as [s1 cands].
  simpl in Hc. destruct cands as [|c0 cands0]; [done|].
  set (cands := c0 :: cands0) in *.
  destruct (sort_Slice Proxy (less s1) cands) as [|sel sorted] eqn:E; [done|].
  intros H. apply hand_out_selected in H as [= <-].
  assert (Hin : p ∈ cands).
  { rewrite <- (sort_Slice_perm Proxy (less s1) cands), E.
    apply elem_of_cons. by left. }
  rewrite Hc in Hin. by apply elem_of_filter_qualified.
Qed.

(** C2, as the code has it.  [isProxyQualified] holds if and only if the
    type of the proxy equals the task's type when that is set, its cooldown
    entry (if any) is not in the future, and its runtime fail count is
    below 3; a passing proxy leaves no cooldown entry behind.  A proxy
    returned by the weighted, round-robin, least-used, failover or default
    strategy (or by site-adaptive when the task has no domain) is one of
    the candidates and satisfies this predicate. *)
Theorem isProxyQualified_iff_and_strategies_filter :
  (∀ s proxy task now,
      (isProxyQualified s proxy task now).1 = true ↔
      (task_ProxyType task = "" ∨ Type_ proxy = task_ProxyType task)
      ∧ (∀ cooldownTime,
            cooldown s !! ID proxy = Some cooldownTime → cooldownTime <= now)
      ∧ int_at (failCount s) (ID proxy) < 3)
  ∧ (∀ s proxy task now,
      (isProxyQualified s proxy task now).1 = true →
      cooldown (isProxyQualified s proxy task now).2 !! ID proxy = None)
  ∧ (∀ s proxies task now rnd s' p,
      Strategy task ≠ StrategySiteAdaptive ∨ Domain task = "" →
      dispatch sort_Slice s proxies task now rnd = Returns (s', Selected p) →
      p ∈ proxies ∧ (isProxyQualified s p task now).1 = true).
Proof.
  split; [|split].
  - intros s proxy task now.
    destruct (isProxyQualified_spec s proxy task now) as (-> & _).
    apply qualified_iff.
  - intros s proxy task now.
    destruct (isProxyQualified_spec s proxy task now) as (-> & _ & _ & _ & H).
    exact H.
  - intros s proxies task now rnd s' p Hstrat.
    destruct (isProxyQualified_spec s p task now) as (-> & _).
    unfold dispatch, siteAdaptiveSchedule.
    destruct (bool_decide (Strategy task = StrategySiteAdaptive)) eqn:Esa.
    { apply bool_decide_eq_true in Esa. destruct Hstrat as [?|Hdom]; [done|].
      rewrite bool_decide_eq_true_2 by done. apply defaultSchedule_selects. }
    destruct (bool_decide (Strategy task = StrategyWeighted));
      [apply weightedSchedule_selects|].
    destruct (bool_decide (Strategy task = StrategyRoundRobin));
      [apply sorted_head_schedule_selects|].
    destruct (bool_decide (Strategy task = StrategyLeastUsed));
      [apply sorted_head_schedule_selects|].
    destruct (bool_decide (Strategy task = StrategyFailover));
      [apply sorted_head_schedule_selects|].
    apply defaultSchedule_selects.
Qed.

End StrategyFacts.

Lemma merge_sort_Slice_perm A less (l : list A) : merge_sort_Slice A less l ≡ₚ l.
Proof. apply merge_sort_Permutation. Qed.

Lemma isProxyQualified_witness :
  (∀ s proxy task now,
      (isProxyQualified s proxy task now).1 = true ↔
      (task_ProxyType task = "" ∨ Type_ proxy = task_ProxyType task)
      ∧ (∀ cooldownTime,
            cooldown s !! ID proxy = Some cooldownTime → cooldownTime <= now)
      ∧ int_at (failCount s) (ID proxy) < 3)
  ∧ (∀ s proxy task now,
      (isProxyQualified s proxy task now).1 = true →
      cooldown (isProxyQualified s proxy task now).2 !! ID proxy = None)
  ∧ (proxy_a ∈ [proxy_a; proxy_b]
     ∧ (isProxyQualified NewProxyScheduler proxy_a
          (task_of StrategyLeastUsed "") (30 * Second)).1 = true).
Proof.
  pose proof (isProxyQualified_iff_and_strategies_filter merge_sort_Slice
                merge_sort_Slice_perm) as (H1 & H2 & H3).
  split; [exact H1|]. split; [exact H2|].
  destruct (dispatch merge_sort_Slice NewProxyScheduler [proxy_a; proxy_b]
              (task_of StrategyLeastUsed "") (30 * Second) (mkRand 0.5 7))
    as [[s' sel]| |] eqn:E; [|vm_compute in E; discriminate..].
  apply (H3 NewProxyScheduler [proxy_a; proxy_b] (task_of StrategyLeastUsed "")
            (30 * Second) (mkRand 0.5 7) s' proxy_a).
  - left. vm_compute. discriminate.
  - rewrite E. vm_compute in E. injection E as <- <-. reflexivity.
Defined.

(** C2 fails as stated.  For a task that requires an anonymous proxy and a
    minimum speed, the proxy [proxy_b], which is unavailable, not anonymous
    and slower than asked, passes [isProxyQualified]. *)
Lemma isProxyQualified_ignores_anon_counterexample :
  RequireAnon (task_of StrategyWeighted "") = true
  ∧ MinSpeed (task_of StrategyWeighted "") = 200
  ∧ Anonymous proxy_b = false
  ∧ Available proxy_b = false
  ∧ Speed proxy_b = 300
  ∧ (isProxyQualified NewProxyScheduler proxy_b
       (task_of StrategyWeighted "") (30 * Second)).1 = true.
Proof. by vm_compute. Qed.

(** ** C3: selection while every candidate is cooling down *)

Lemma filter_none {A} (f : A → bool) (l : list A) :
  (∀ x, x ∈ l → f x = false) → List.filter f l = [].
Proof.
  induction l as [|x l IH]; [done|]. intros H. cbn [List.filter].
  rewrite H by (apply elem_of_cons; by left).
  apply IH. intros y Hy. apply H. apply elem_of_cons. by right.
Qed.

Lemma cooling_not_qualified s proxy task now :
  cooling s (ID proxy) now = true → qualified s proxy task now = false.
Proof.
  intros Hc. unfold qualified. rewrite Hc. simpl. by rewrite andb_false_r.
Qed.

Section AllCooling.

Variable sort_Slice : ∀ A : Type, (A → A → bool) → list A → list A.

(** The strategies that run the filter answer [ErrNoQualifiedProxy] when
    every candidate is cooling down. *)
Lemma filtered_strategies_respect_cooldown s proxies task now rnd :
  proxies ≠ [] →
  (∀ p, p ∈ proxies → cooling s (ID p) now = true) →
  Strategy task ≠ StrategySiteAdaptive ∨ Domain task = "" →
  ∃ s', dispatch sort_Slice s proxies task now rnd
        = Returns (s', Failed ErrNoQualifiedProxy).
Proof.
  intros Hne Hcool Hstrat.
  assert (Hnone : List.filter (λ p, qualified s p task now) proxies = []).
  { apply filter_none. intros p Hp. by apply cooling_not_qualified, Hcool. }
  assert (Hq : ∃ s', qualified_candidates s proxies task now = (s', [])).
  { destruct (qualified_candidates_spec now task proxies s) as (_ & _ & Hc).
    destruct (qualified_candidates s proxies task now) as [s1 cs]. simpl in Hc.
    exists s1. by rewrite Hc, Hnone. }
  assert (Hw : ∃ s' ws, weighted_candidates s proxies task now = (s', [], ws)).
  { destruct (weighted_candidates_spec now task proxies s) as (_ & Hc & _).
    destruct (weighted_candidates s proxies task now) as [[s1 cs] ws]. simpl in Hc.
    exists s1, ws. by rewrite Hc, Hnone. }
  destruct Hq as [s1 Hq]. destruct Hw as (s2 & ws & Hw).
  destruct proxies as [|p0 proxies0]; [done|].
  unfold dispatch, siteAdaptiveSchedule.
  destruct (bool_decide (Strategy task = StrategySiteAdaptive)) eqn:Esa.
  { apply bool_decide_eq_true in Esa. destruct Hstrat as [?|Hdom]; [done|].
    rewrite bool_decide_eq_true_2 by done.
    exists s1. unfold defaultSchedule. by rewrite Hq. }
  destruct (bool_decide (Strategy task = StrategyWeighted)).
  { exists s2. unfold weightedSchedule. by rewrite Hw. }
  destruct (bool_decide (Strategy task = StrategyRoundRobin)).
  { exists s1. unfold roundRobinSchedule, sorted_head_schedule. by rewrite Hq. }
  destruct (bool_decide (Strategy task = StrategyLeastUsed)).
  { exists s1. unfold leastUsedSchedule, sorted_head_schedule. by rewrite Hq. }
  destruct (bool_decide (Strategy task = StrategyFailover)).
  { exists s1. unfold failoverSchedule, sorted_head_schedule. by rewrite Hq. }
  exists s1. unfold defaultSchedule. by rewrite Hq.
Qed.

End AllCooling.

Section SiteAdaptive.

Variable sort_Slice : ∀ A : Type, (A → A → bool) → list A → list A.
Hypothesis sort_Slice_perm : ∀ A less (l : list A), sort_Slice A less l ≡ₚ l.

(** For a task with a domain the site-adaptive strategy hands out one of the
    proxies it was given, whatever their cooldown. *)
Lemma siteAdaptiveSchedule_ignores_cooldown s proxies task now rnd :
  mu s = RWMutex_free →
  proxies ≠ [] →
  Domain task ≠ "" →
  ∃ s' p, siteAdaptiveSchedule sort_Slice s proxies task now rnd
          = Returns (s', Selected p)
          ∧ p ∈ proxies.
Proof.
  intros Hmu Hne Hdom. unfold siteAdaptiveSchedule.
  rewrite bool_decide_eq_false_2 by done.
  set (mk := λ proxy, mkAdaptive proxy (int_at (useCount s) (ID proxy))
                                 (time_at (lastUsed s) (ID proxy)) (Score proxy)).
  destruct (mk <$> proxies) as [|c0 cs] eqn:Ecands.
  { by destruct proxies. }
  rewrite <- Ecands.
  set (sorted := sort_Slice adaptiveProxy (adaptive_less now) (mk <$> proxies)).
  assert (Hperm : sorted ≡ₚ mk <$> proxies) by apply sort_Slice_perm.
  assert (Hlen : length sorted = length proxies).
  { by rewrite Hperm, length_fmap. }
  assert (Hpos : (0 < length proxies)%nat) by (destruct proxies; [done|simpl; lia]).
  set (idx := if bool_decide (3 < Z.of_nat (length sorted))
              then rand_Intn rnd 3 else 0).
  assert (Hidx : (Z.to_nat idx < length sorted)%nat).
  { unfold idx. destruct (bool_decide _) eqn:E.
    - apply bool_decide_eq_true in E. unfold rand_Intn.
      pose proof (Z.mod_pos_bound (rand_bits rnd) 3). lia.
    - lia. }
  destruct (lookup_lt_is_Some_2 sorted _ Hidx) as [c Hc].
  rewrite Hc. destruct (hand_out_free s (ap_proxy c) now Hmu) as [s' Hs'].
  exists s', (ap_proxy c). split; [done|].
  apply list_elem_of_lookup_2 in Hc. rewrite Hperm in Hc.
  apply list_elem_of_fmap in Hc as (p & -> & Hp). done.
Qed.

End SiteAdaptive.

(** C3. With its only candidate cooling down, the switch of [ScheduleProxy]
    answers [ErrNoQualifiedProxy] under the failover strategy, but not under
    the site-adaptive strategy with a domain: [siteAdaptiveSchedule] never
    calls the filter, picks the cooling proxy and clears its cooldown entry.
    [ScheduleProxy] itself does not get as far as the switch: the statement
    that loads the candidates orders them by the column success_rate, which
    the table does not have, and the error of the database is what it
    returns, under every strategy. *)
Theorem siteAdaptiveSchedule_selects_cooling_proxy :
  let now := 30 * Second in
  let s := cooled_scheduler now in
  let rnd := mkRand 0.5 7 in
  cooling s (ID proxy_a) now = true
  ∧ dispatch merge_sort_Slice s [proxy_a]
      (task_of StrategyFailover "example.com") now rnd
    = Returns (s, Failed ErrNoQualifiedProxy)
  ∧ (∃ s', siteAdaptiveSchedule merge_sort_Slice s [proxy_a]
             (task_of StrategySiteAdaptive "example.com") now rnd
           = Returns (s', Selected proxy_a)
           ∧ cooldown s' !! ID proxy_a = None)
  ∧ (∃ s', dispatch merge_sort_Slice s [proxy_a]
             (task_of StrategySiteAdaptive "example.com") now rnd
           = Returns (s', Selected proxy_a))
  ∧ (∀ strategy,
       ScheduleProxy merge_sort_Slice s store_a
         (task_of strategy "example.com") now rnd
       = Returns (s, Failed (ErrStore (UnknownColumn "success_rate")))).
Proof.
  cbv zeta. split; [by vm_compute|]. split; [by vm_compute|].
  split; [eexists; split; by vm_compute|]. split; [eexists; by vm_compute|].
  intros strategy. reflexivity.
Qed.

(** ** C9: the weighted pick *)

Lemma float_eqb_zero w : (w =? 0)%float = true → sf_zero (Prim2SF w).
Proof.
  rewrite FloatAxioms.eqb_spec.
  change (Prim2SF 0) with (S754_zero false).
  destruct (Prim2SF w) as [s|s| |s m e]; try done.
  - by exists s.
  - by destruct s.
  - by destruct s.
Qed.

Lemma float_leb_zero z : sf_zero (Prim2SF z) → (z <=? 0)%float = true.
Proof.
  intros [s Hz]. rewrite leb_spec, Hz. by change (Prim2SF 0) with (S754_zero false).
Qed.

Lemma float_add_zero x y :
  sf_zero (Prim2SF x) → sf_zero (Prim2SF y) → sf_zero (Prim2SF (x + y)).
Proof.
  intros [sx Hx] [sy Hy]. rewrite add_spec, Hx, Hy.
  destruct sx, sy; by eexists.
Qed.

Lemma float_sub_zero x y :
  sf_zero (Prim2SF x) → sf_zero (Prim2SF y) → sf_zero (Prim2SF (x - y)).
Proof.
  intros [sx Hx] [sy Hy]. rewrite sub_spec, Hx, Hy.
  destruct sx, sy; by eexists.
Qed.

Lemma float_unit_mul_zero u z :
  is_unit_draw u = true → sf_zero (Prim2SF z) → sf_zero (Prim2SF (u * z)).
Proof.
  unfold is_unit_draw. rewrite andb_true_iff, leb_spec, ltb_spec.
  change (Prim2SF 0) with (S754_zero false).
  intros [Hge Hlt] [sz Hz]. rewrite mul_spec, Hz.
  destruct (Prim2SF u) as [su|su| |su m e]; try done.
  - by eexists.
  - exfalso. destruct su; [done|]. revert Hlt. by vm_compute.
  - by eexists.
Qed.

Lemma totalWeight_zero ws :
  (∀ w, w ∈ ws → (w =? 0)%float = true) → sf_zero (Prim2SF (totalWeight ws)).
Proof.
  unfold totalWeight. intros Hws.
  assert (H0 : sf_zero (Prim2SF 0)) by (by exists false).
  revert H0. generalize 0%float as acc.
  induction ws as [|w ws IH]; intros acc Hacc; [done|].
  simpl. apply IH.
  - intros w' Hw'. apply Hws, elem_of_cons. by right.
  - apply float_add_zero; [done|]. apply float_eqb_zero, Hws, elem_of_cons. by left.
Qed.

(** With nothing but zero weights the walk stops at the first candidate,
    whatever the draw. *)
Lemma weighted_choice_all_zero rnd c0 candidates w0 ws :
  is_unit_draw (rand_Float64 rnd) = true →
  (∀ w, w ∈ w0 :: ws → (w =? 0)%float = true) →
  weighted_choice rnd (c0 :: candidates) (w0 :: ws) = Some c0.
Proof.
  intros Hu Hws. unfold weighted_choice. simpl.
  rewrite float_leb_zero; [done|].
  apply float_sub_zero.
  - apply float_unit_mul_zero; [done|]. by apply totalWeight_zero.
  - apply float_eqb_zero, Hws, elem_of_cons. by left.
Qed.

(** C9, as the code has it.  The candidates of the weighted strategy are the
    qualified proxies in slice order; the pick makes one draw [u] of
    [rand.Float64], scales it by the sum of the candidates' weights and walks
    the weights until the remainder is [<= 0], with the last candidate as the
    safety net.  When every weight is zero the walk stops at once: the first
    qualified candidate is returned whatever the draw. *)
Theorem weightedSchedule_zero_weights_pick_first s proxies task now rnd :
  mu s = RWMutex_free →
  is_unit_draw (rand_Float64 rnd) = true →
  let r := weighted_candidates s proxies task now in
  let candidates := r.1.2 in
  let ws := r.2 in
  candidates = List.filter (λ p, qualified s p task now) proxies
  ∧ weighted_choice rnd candidates ws
    = match weighted_walk (rand_Float64 rnd * totalWeight ws)%float candidates ws with
      | Some c => Some c
      | None => last candidates
      end
  ∧ (candidates ≠ [] →
     weightedSchedule s proxies task now rnd
     = match weighted_choice rnd candidates ws with
       | Some selected => hand_out r.1.1 selected now
       | None => Panics
       end)
  ∧ (∀ c0 rest,
       candidates = c0 :: rest →
       (∀ w, w ∈ ws → (w =? 0)%float = true) →
       ∃ s', weightedSchedule s proxies task now rnd = Returns (s', Selected c0)).
Proof.
  intros Hmu Hu r candidates ws. subst candidates ws r.
  destruct (weighted_candidates_spec now task proxies s) as (Hsf & Hc & Hlen).
  assert (Hrun : (weighted_candidates s proxies task now).1.2 ≠ [] →
    weightedSchedule s proxies task now rnd
    = match weighted_choice rnd (weighted_candidates s proxies task now).1.2
              (weighted_candidates s proxies task now).2 with
      | Some selected =>
          hand_out (weighted_candidates s proxies task now).1.1 selected now
      | None => Panics
      end).
  { unfold weightedSchedule. destruct proxies as [|p0 proxies0]; [done|].
    destruct (weighted_candidates s (p0 :: proxies0) task now) as [[s1 cands] ws].
    simpl. by destruct cands. }
  split; [done|]. split; [done|]. split; [done|].
  intros c0 rest Hcands Hzero. rewrite Hrun by (by rewrite Hcands).
  destruct (weighted_candidates s proxies task now) as [[s1 cands] ws].
  cbn [fst snd] in *. clear Hc Hrun. subst cands.
  destruct ws as [|w0 ws]; [done|].
  rewrite (weighted_choice_all_zero rnd c0 rest w0 ws Hu Hzero).
  apply hand_out_free. destruct Hsf as (-> & _). done.
Qed.

Lemma weightedSchedule_zero_weights_witness :
  let r := weighted_candidates NewProxyScheduler [fresh_1; fresh_2]
             (task_of StrategyWeighted "") (30 * Second) in
  let candidates := r.1.2 in
  let ws := r.2 in
  let rnd := mkRand 0.75 0 in
  candidates = List.filter
                 (λ p, qualified NewProxyScheduler p (task_of StrategyWeighted "")
                                 (30 * Second)) [fresh_1; fresh_2]
  ∧ weighted_choice rnd candidates ws
    = match weighted_walk (rand_Float64 rnd * totalWeight ws)%float candidates ws with
      | Some c => Some c
      | None => last candidates
      end
  ∧ (candidates ≠ [] →
     weightedSchedule NewProxyScheduler [fresh_1; fresh_2]
       (task_of StrategyWeighted "") (30 * Second) rnd
     = match weighted_choice rnd candidates ws with
       | Some selected => hand_out r.1.1 selected (30 * Second)
       | None => Panics
       end)
  ∧ (∀ c0 rest,
       candidates = c0 :: rest →
       (∀ w, w ∈ ws → (w =? 0)%float = true) →
       ∃ s', weightedSchedule NewProxyScheduler [fresh_1; fresh_2]
               (task_of StrategyWeighted "") (30 * Second) rnd
             = Returns (s', Selected c0)).
Proof.
  apply (weightedSchedule_zero_weights_pick_first NewProxyScheduler
           [fresh_1; fresh_2] (task_of StrategyWeighted "") (30 * Second)
           (mkRand 0.75 0)).
  - reflexivity.
  - reflexivity.
Defined.

(** C9 fails as stated.  [fresh_1] and [fresh_2] are both qualified and both
    weigh zero, yet no draw makes the weighted strategy return [fresh_2]. *)
Lemma weightedSchedule_uniform_fallback_counterexample :
  (weighted_candidates NewProxyScheduler [fresh_1; fresh_2]
     (task_of StrategyWeighted "") (30 * Second)).1.2 = [fresh_1; fresh_2]
  ∧ (weighted_candidates NewProxyScheduler [fresh_1; fresh_2]
       (task_of StrategyWeighted "") (30 * Second)).2 = [0%float; 0%float]
  ∧ ¬ ∃ rnd s',
        is_unit_draw (rand_Float64 rnd) = true
        ∧ weightedSchedule NewProxyScheduler [fresh_1; fresh_2]
            (task_of StrategyWeighted "") (30 * Second) rnd
          = Returns (s', Selected fresh_2).
Proof.
  split; [by vm_compute|]. split; [by vm_compute|].
  intros (rnd & s' & Hu & Hrun).
  assert (Hfirst : weighted_choice rnd [fresh_1; fresh_2] [0%float; 0%float]
                   = Some fresh_1).
  { apply weighted_choice_all_zero; [done|].
    intros w [->|[->|?%elem_of_nil]%elem_of_cons]%elem_of_cons; done. }
  unfold weightedSchedule in Hrun.
  change (weighted_candidates NewProxyScheduler [fresh_1; fresh_2]
            (task_of StrategyWeighted "") (30 * Second))
    with (set_weights (<[2%N := 0%float]> (<[1%N := 0%float]> ∅)) NewProxyScheduler,
          [fresh_1; fresh_2], [0%float; 0%float]) in Hrun.
  cbv iota beta in Hrun. rewrite Hfirst in Hrun.
  apply hand_out_selected in Hrun. discriminate.
Qed.

(** ** C7: what creates a row *)

(** Whatever a paid adapter fetched is in the table when [FetchProxies]
    returns it: no validation stands between the provider and the INSERT. *)
Lemma paid_FetchProxies_stores_raw_candidates st fetched now st' proxies' :
  paid_FetchProxies st (Some fetched) now = (st', Some proxies') →
  ∀ c, c ∈ fetched → IsProxyExists st' (IP c) (Port c) = true.
Proof.
  unfold paid_FetchProxies, SaveProxies.
  destruct fetched as [|c0 fetched0]; [by intros _ c ?%elem_of_nil|].
  rewrite BatchCreate_nonempty.
  destruct (upsert_loop st (c0 :: fetched0) now) as [[st1 b1]|] eqn:Hloop; [|done].
  intros [= <- <-].
  by destruct (upsert_loop_invariant _ _ _ _ _ Hloop) as (_ & _ & Hcover & _).
Qed.

(** C7. One fetch of the paid sources, with the provider offering
    1.2.3.4:8080 and every canary unreachable through it: when
    [FetchPaidProxies] returns, the table holds a row for the endpoint,
    marked available.  [KuaidailiSource.FetchProxies] has inserted it through
    [SaveProxies]; [addProxy] then finds the endpoint stored and skips its
    validation. *)
Theorem FetchPaidProxies_stores_unvalidated_candidate :
  let answer := Some [("1.2.3.4", 8080)] in
  let st' := FetchPaidProxies (λ _, true) paid_config empty_store answer None
               dead_world (30 * Second) in
  (probe_loop canaries_down (testURLs (NewProxyValidator 3))).1 = false
  ∧ IsProxyExists empty_store "1.2.3.4" 8080 = false
  ∧ (paid_FetchProxies empty_store (Kuaidaili_fetchFromAPI answer) (30 * Second)).1 = st'
  ∧ (λ r, (row_id r, IP r, Port r, Source r,
           Available r, FailCount r)) <$> rows st'
    = [(1%N, "1.2.3.4", 8080, Kuaidaili_Name, true, 0)].
Proof. by vm_compute. Qed.

(** The same candidate handed to [addProxy] on the empty table.  Its
    validation fails, but [ValidateProxy] saves the struct, whose primary key
    is still zero: the row is created there, with a fail count of 1. *)
Example addProxy_failed_validation_creates_row :
  let r := addProxy (λ _, true) paid_config empty_store fresh_candidate
                    (dead_world fresh_candidate) in
  (λ r, (row_id r, IP r, Port r, FailCount r))
    <$> rows r.1.1
  = [(1%N, "1.2.3.4", 8080, 1)].
Proof. by vm_compute. Qed.

(** * Further properties *)

(** ** The entity: expiry and leases *)

Lemma Since_gt d now t :
  GoInt.min_int <= d < GoInt.max_int → d < Since now t ↔ d < now - t.
Proof. unfold Since, Sub, GoInt.min_int, GoInt.max_int. lia. Qed.

Lemma ttl_bounds ty : 30 * Minute <= ttl ty <= 24 * Hour.
Proof.
  unfold ttl, Hour, Minute, Second, Millisecond.
  repeat destruct (decide _); lia.
Qed.

Lemma IsExpired_ttl p now :
  IsExpired p now = bool_decide (ttl (Type_ p) < now - LastCheck p).
Proof.
  assert (H : ∀ d, 30 * Minute <= d <= 24 * Hour →
              bool_decide (d < Since now (LastCheck p))
              = bool_decide (d < now - LastCheck p)).
  { intros d Hd. apply bool_decide_ext, Since_gt.
    unfold Hour, Minute, Second, Millisecond, GoInt.min_int, GoInt.max_int in *. lia. }
  unfold IsExpired, ttl.
  destruct (decide (Type_ p = ProxyTypeTemp)); [apply H|];
    [|destruct (decide (Type_ p = ProxyTypeLong)); apply H];
    unfold Hour, Minute, Second, Millisecond; lia.
Qed.

(** X1. [IsExpired] holds exactly when the time elapsed since [LastCheck]
    exceeds the lifetime of the proxy's type (30 minutes for "temp", 24 hours
    for "long", one hour otherwise); the saturation of [time.Since] never
    changes the verdict.  Hence expiry is monotone in the clock, no proxy
    expires within 30 minutes of its check, and every proxy is expired once
    more than 24 hours have passed. *)
Theorem IsExpired_iff_lifetime_exceeded p now :
  (IsExpired p now = true ↔ ttl (Type_ p) < now - LastCheck p)
  ∧ (∀ now', now <= now' → IsExpired p now = true → IsExpired p now' = true)
  ∧ (now - LastCheck p <= 30 * Minute → IsExpired p now = false)
  ∧ (24 * Hour < now - LastCheck p → IsExpired p now = true).
Proof.
  pose proof (ttl_bounds (Type_ p)) as Hb.
  rewrite IsExpired_ttl, bool_decide_eq_true. split; [done|]. split; [|split].
  - intros now' Hle H%bool_decide_eq_true.
    rewrite IsExpired_ttl. apply bool_decide_eq_true. lia.
  - intros H. apply bool_decide_eq_false. lia.
  - lia.
Qed.

Lemma db_Create_LastCheck st p now st' p' :
  db_Create st p now = Some (st', p') → LastCheck p' = now ∧ Type_ p' = Type_ p.
Proof.
  unfold db_Create, insert_row, create_values, apply_defaults, BeforeCreate.
  repeat (match goal with |- context [decide ?P] => destruct (decide P) end; simpl);
    destruct (Available p); simpl;
    repeat (match goal with |- context [decide ?P] => destruct (decide P) end; simpl);
    try destruct (existsb _ _); intros [= <- <-]; done.
Qed.

(** X2. A row that [db.Create] has just inserted carries the creation
    instant as [LastCheck] (the hook [BeforeCreate]): whatever its type, it
    is in the table and it is not expired during the following 30 minutes. *)
Theorem created_row_outlives_half_an_hour st p now st' p' t :
  db_Create st p now = Some (st', p') →
  t - now <= 30 * Minute →
  p' ∈ rows st' ∧ IsExpired p' t = false.
Proof.
  intros Hc Ht. destruct (db_Create_shape _ _ _ _ _ Hc) as (Hrows & _).
  destruct (db_Create_LastCheck _ _ _ _ _ Hc) as [Hlc _]. split.
  - rewrite Hrows. apply elem_of_app. right. by apply list_elem_of_singleton.
  - rewrite IsExpired_ttl. apply bool_decide_eq_false.
    pose proof (ttl_bounds (Type_ p')). lia.
Qed.

Lemma created_row_witness :
  ∃ st' p', db_Create empty_store fresh_candidate (30 * Second) = Some (st', p')
    ∧ p' ∈ rows st'
    ∧ IsExpired p' (20 * Minute) = false.
Proof.
  eexists _, _. split; [reflexivity|].
  apply (created_row_outlives_half_an_hour empty_store fresh_candidate (30 * Second)).
  - reflexivity.
  - vm_compute. discriminate.
Defined.

Lemma sub_exact a b :
  GoInt.in_range (a - b) → GoInt.sub a b = a - b.
Proof. apply wrap64_id. Qed.

(** X3. Leases.  [AcquireProxy] grants exactly when the proxy is available
    and [ConcurrentUse] is below [MaxConcurrent]; a grant adds one to the
    counter and a refusal leaves the struct untouched.  The bound
    [0 <= ConcurrentUse <= MaxConcurrent] is preserved by [AcquireProxy] and
    by [ReleaseProxy], and releasing a granted lease restores the counter. *)
Theorem lease_counter_stays_within_limit p now :
  lease_ok p →
  let r := AcquireProxy p now in
  (r.2 = true ↔ Available p = true ∧ ConcurrentUse p < MaxConcurrent p)
  ∧ (r.2 = true → ConcurrentUse r.1 = ConcurrentUse p + 1)
  ∧ (r.2 = false → r.1 = p)
  ∧ lease_ok r.1
  ∧ lease_ok (ReleaseProxy p)
  ∧ (r.2 = true → ConcurrentUse (ReleaseProxy r.1) = ConcurrentUse p).
Proof.
  intros [Hc Hm]. unfold AcquireProxy, ReleaseProxy, lease_ok.
  destruct (Available p); simpl.
  2: { split; [split; [done|by intros [? _]]|]. split; [done|]. split; [done|].
       split; [done|]. split; [|done].
       destruct (decide _); simpl; [|done].
       rewrite sub_exact; unfold GoInt.in_range, GoInt.min_int, GoInt.max_int in *; lia. }
  destruct (bool_decide (MaxConcurrent p <= ConcurrentUse p)) eqn:E; simpl.
  - apply bool_decide_eq_true in E.
    split; [split; [done|intros [_ ?]; lia]|]. split; [done|]. split; [done|].
    split; [done|]. split; [|done].
    destruct (decide _); simpl; [|done].
    rewrite sub_exact; unfold GoInt.in_range, GoInt.min_int, GoInt.max_int in *; lia.
  - apply bool_decide_eq_false in E.
    assert (Hi : GoInt.incr (ConcurrentUse p) = ConcurrentUse p + 1).
    { apply incr_exact. unfold GoInt.min_int, GoInt.max_int in *. lia. }
    rewrite Hi.
    split; [split; [intros _; split; [done|lia]|done]|]. split; [done|].
    split; [done|]. split; [lia|]. split.
    + destruct (decide _); simpl; [|done].
      rewrite sub_exact; unfold GoInt.in_range, GoInt.min_int, GoInt.max_int in *; lia.
    + intros _. destruct (decide _); simpl; [|lia].
      rewrite sub_exact; unfold GoInt.in_range, GoInt.min_int, GoInt.max_int in *; lia.
Qed.

Lemma lease_counter_witness :
  let r := AcquireProxy leased_row (30 * Second) in
  (r.2 = true ↔ Available leased_row = true
                ∧ ConcurrentUse leased_row < MaxConcurrent leased_row)
  ∧ (r.2 = true → ConcurrentUse r.1 = ConcurrentUse leased_row + 1)
  ∧ (r.2 = false → r.1 = leased_row)
  ∧ lease_ok r.1
  ∧ lease_ok (ReleaseProxy leased_row)
  ∧ (r.2 = true → ConcurrentUse (ReleaseProxy r.1) = ConcurrentUse leased_row).
Proof.
  apply (lease_counter_stays_within_limit leased_row (30 * Second)).
  vm_compute. repeat split; discriminate.
Defined.

(** X4. The lease cycle through the table.  After a granted
    [AcquireProxy] on a stored proxy, [ReleaseScheduledProxy] returns (the
    division in [UpdateStats] is by a [UseCount] of at least one); the struct
    read back from the table is the released one, its [ConcurrentUse] is the
    one before the lease, its [UseCount] is one more, [LastUsedAt] is the
    instant of the lease and [LastCheck] the instant of the release. *)
Theorem ReleaseScheduledProxy_after_lease st p t p1 success speed now t_save :
  AcquireProxy p t = (p1, true) →
  lease_ok p →
  0 <= UseCount p < GoInt.max_int →
  ID p ≠ 0%N → is_Some (db_First st (ID p)) →
  ∃ st' p2,
    ReleaseScheduledProxy st p1 success speed now t_save = Returns (st', p2)
    ∧ ConcurrentUse p2 = ConcurrentUse p
    ∧ UseCount p2 = UseCount p + 1
    ∧ LastUsedAt p2 = t
    ∧ LastCheck p2 = now
    ∧ db_First st' (ID p) = Some p2.
Proof.
  intros Hacq [Hc Hm] Hu Hid Hin. unfold AcquireProxy in Hacq.
  destruct (negb (Available p) || bool_decide (MaxConcurrent p <= ConcurrentUse p))
    eqn:E; [done|].
  apply orb_false_iff in E as [_ E]. apply bool_decide_eq_false in E.
  injection Hacq as <-.
  assert (Hi : GoInt.incr (ConcurrentUse p) = ConcurrentUse p + 1).
  { apply incr_exact. unfold GoInt.min_int, GoInt.max_int in *. lia. }
  assert (Hj : GoInt.incr (UseCount p) = UseCount p + 1).
  { apply incr_exact. unfold GoInt.min_int, GoInt.max_int in *. lia. }
  rewrite Hi, Hj. unfold ReleaseScheduledProxy, ReleaseProxy. simpl.
  destruct (decide (0 < ConcurrentUse p + 1)); [|lia]. simpl.
  rewrite sub_exact by (unfold GoInt.in_range, GoInt.min_int, GoInt.max_int in *; lia).
  replace (ConcurrentUse p + 1 - 1) with (ConcurrentUse p) by lia.
  apply db_First_is_Some in Hin.
  unfold UpdateStats. destruct success; simpl.
  - destruct (decide (Speed p = 0)); simpl.
    + match goal with |- context [db_Save st ?q t_save] =>
        destruct (db_First_Save_present st q t_save Hid Hin) as [Heq Hfirst];
        rewrite Heq; exists (with_rows st (write_struct q <$> rows st)), q end.
      repeat split; try done. by rewrite Heq in Hfirst.
    + unfold GoInt.div. destruct (decide (UseCount p + 1 = 0)); [lia|]. simpl.
      match goal with |- context [db_Save st ?q t_save] =>
        destruct (db_First_Save_present st q t_save Hid Hin) as [Heq Hfirst];
        rewrite Heq; exists (with_rows st (write_struct q <$> rows st)), q end.
      repeat split; try done. by rewrite Heq in Hfirst.
  - match goal with |- context [db_Save st ?q t_save] =>
      destruct (db_First_Save_present st q t_save Hid Hin) as [Heq Hfirst];
      rewrite Heq; exists (with_rows st (write_struct q <$> rows st)), q end.
    repeat split; try done. by rewrite Heq in Hfirst.
Qed.

Lemma ReleaseScheduledProxy_witness :
  ∃ st' p2,
    ReleaseScheduledProxy store_leased (AcquireProxy leased_row (30 * Second)).1
      true 80 (40 * Second) (41 * Second) = Returns (st', p2)
    ∧ ConcurrentUse p2 = ConcurrentUse leased_row
    ∧ UseCount p2 = UseCount leased_row + 1
    ∧ LastUsedAt p2 = 30 * Second
    ∧ LastCheck p2 = 40 * Second
    ∧ db_First st' (ID leased_row) = Some p2.
Proof.
  apply (ReleaseScheduledProxy_after_lease store_leased leased_row (30 * Second)).
  - reflexivity.
  - vm_compute. repeat split; discriminate.
  - vm_compute. split; [discriminate|reflexivity].
  - discriminate.
  - vm_compute. eauto.
Defined.

(** X5. The blend of [UpdateStats].  On a success report for a proxy with
    a positive [Speed] and a [UseCount] of at least one, and when the
    weighted sum does not overflow, [UpdateStats] returns and the new [Speed]
    is the truncated quotient [(Speed * (UseCount - 1) + speed) / UseCount];
    it lies between the old speed and the reported one, and with
    [UseCount = 1] it is the reported speed. *)
Theorem UpdateStats_blend_between p speed now :
  0 < Speed p → 0 <= speed → 1 <= UseCount p →
  Speed p * (UseCount p - 1) + speed <= GoInt.max_int →
  ∃ p',
    UpdateStats p true speed now = Returns p'
    ∧ Speed p' = (Speed p * (UseCount p - 1) + speed) ÷ UseCount p
    ∧ Z.min (Speed p) speed <= Speed p' <= Z.max (Speed p) speed
    ∧ (UseCount p = 1 → Speed p' = speed).
Proof.
  intros Hs Hsp Hu Hno. unfold UpdateStats. simpl.
  destruct (decide (Speed p = 0)); [lia|].
  assert (Hn1 : 0 <= UseCount p - 1 <= GoInt.max_int) by nia.
  assert (Hm : 0 <= Speed p * (UseCount p - 1) <= GoInt.max_int) by nia.
  unfold GoInt.div. destruct (decide (UseCount p = 0)); [lia|]. simpl.
  rewrite (sub_exact (UseCount p) 1)
    by (unfold GoInt.in_range, GoInt.min_int, GoInt.max_int in *; lia).
  unfold GoInt.mul. rewrite (wrap64_id (Speed p * _))
    by (unfold GoInt.in_range, GoInt.min_int, GoInt.max_int in *; lia).
  unfold GoInt.add at 1. rewrite (wrap64_id (_ + speed))
    by (unfold GoInt.in_range, GoInt.min_int, GoInt.max_int in *; lia).
  set (x := Speed p * (UseCount p - 1) + speed) in *.
  assert (Hq : x ÷ UseCount p = x / UseCount p) by (apply Z.quot_div_nonneg; lia).
  assert (Hlo : Z.min (Speed p) speed <= x / UseCount p).
  { apply Z.div_le_lower_bound; [lia|]. unfold x. nia. }
  assert (Hhi : x / UseCount p <= Z.max (Speed p) speed).
  { apply Z.div_le_upper_bound; [lia|]. unfold x. nia. }
  assert (Hx : 0 <= x / UseCount p <= x).
  { split; [apply Z.div_pos; lia|]. apply Z.div_le_upper_bound; [lia|]. nia. }
  rewrite wrap64_id
    by (rewrite Hq; unfold GoInt.in_range, GoInt.min_int, GoInt.max_int in *; lia).
  eexists. split; [done|]. simpl. split; [done|]. split; [lia|].
  intros H1. rewrite Hq. unfold x. rewrite H1. simpl. rewrite Z.mul_0_r. simpl.
  apply Z.div_1_r.
Qed.

Lemma UpdateStats_blend_witness :
  ∃ p',
    UpdateStats leased_row true 30 (40 * Second) = Returns p'
    ∧ Speed p' = (Speed leased_row * (UseCount leased_row - 1) + 30) ÷ UseCount leased_row
    ∧ Z.min (Speed leased_row) 30 <= Speed p' <= Z.max (Speed leased_row) 30
    ∧ (UseCount leased_row = 1 → Speed p' = 30).
Proof.
  apply (UpdateStats_blend_between leased_row 30 (40 * Second)); vm_compute;
    try reflexivity; discriminate.
Defined.

(** ** The clean-up jobs *)

Lemma filter_filter {A} (f g : A → bool) (l : list A) :
  List.filter f (List.filter g l) = List.filter (λ x, g x && f x) l.
Proof.
  induction l as [|x l IH]; [done|]. cbn [List.filter].
  destruct (g x); simpl; [|done]. cbn [List.filter]. destruct (f x); by rewrite IH.
Qed.

Lemma filter_all {A} (f : A → bool) (l : list A) :
  (∀ x, x ∈ l → f x = true) → List.filter f l = l.
Proof.
  induction l as [|x l IH]; [done|]. intros H. cbn [List.filter].
  rewrite H by (apply elem_of_cons; by left). f_equal.
  apply IH. intros y Hy. apply H, elem_of_cons. by right.
Qed.

Lemma filter_ext_elem {A} (f g : A → bool) (l : list A) :
  (∀ x, x ∈ l → f x = g x) → List.filter f l = List.filter g l.
Proof.
  intros H. apply filter_ext_in. intros x Hx. apply H. by apply list_elem_of_In.
Qed.

Lemma delete_ids_rows (st : Store) (ids : list N) :
  BatchDelete st ids
  = with_rows st (List.filter (λ r, negb (bool_decide (row_id r ∈ ids))) (rows st)).
Proof.
  destruct ids as [|i ids]; [|done]. unfold BatchDelete.
  rewrite filter_all; [by rewrite with_rows_same|].
  intros r _. apply negb_true_iff, bool_decide_eq_false. by intros ?%elem_of_nil.
Qed.

Lemma CleanupExpired_rows st clock :
  CleanupExpired st clock
  = with_rows st (List.filter (λ r, negb (bool_decide (row_id r ∈ expired_ids st clock)))
                              (rows st)).
Proof.
  unfold CleanupExpired. fold (expired_ids st clock).
  rewrite <- delete_ids_rows. by destruct (expired_ids st clock).
Qed.

Lemma remove_loop_rows clock (proxies : list Proxy) :
  ∀ st,
    foldl (λ st proxy,
             if IsExpired proxy (clock proxy) then RemoveProxy st (ID proxy) else st)
          st proxies
    = with_rows st
        (List.filter
           (λ r, negb (bool_decide
                         (row_id r ∈ ID <$> List.filter (λ p, IsExpired p (clock p)) proxies)))
           (rows st)).
Proof.
  induction proxies as [|p proxies IH]; intros st.
  - cbn [foldl List.filter]. rewrite filter_all; [by rewrite with_rows_same|].
    intros r _. apply negb_true_iff, bool_decide_eq_false. by intros ?%elem_of_nil.
  - cbn [foldl List.filter]. rewrite IH.
    destruct (IsExpired p (clock p)); [|done].
    unfold RemoveProxy, db_Delete_where, with_rows. cbn [rows lastID].
    rewrite filter_filter. f_equal. apply filter_ext. intros r.
    rewrite fmap_cons. unfold has_id.
    destruct (decide (row_id r = ID p)) as [Heq|Hne].
    + rewrite (bool_decide_eq_true_2 (row_id r = ID p)) by done. simpl.
      rewrite bool_decide_eq_true_2; [done|]. apply elem_of_cons. by left.
    + rewrite (bool_decide_eq_false_2 (row_id r = ID p)) by done. simpl.
      f_equal. apply bool_decide_ext. rewrite elem_of_cons. tauto.
Qed.

(** X6. The two clean-up paths agree: removing the expired rows one
    [RemoveProxy] at a time, as [ProxyPool.CleanupExpired] does, leaves the
    same table as collecting their ids and deleting them in one statement,
    as [CleanupExpired] of package models does; on every table and for every
    reading of the clock. *)
Theorem ProxyPool_CleanupExpired_agrees st clock :
  ProxyPool_CleanupExpired st clock = CleanupExpired st clock.
Proof.
  rewrite CleanupExpired_rows. unfold ProxyPool_CleanupExpired.
  by rewrite remove_loop_rows.
Qed.

Lemma expired_ids_spec st clock r :
  NoDup (row_id <$> rows st) → r ∈ rows st →
  row_id r ∈ expired_ids st clock ↔ IsExpired r (clock r) = true.
Proof.
  intros Hnd Hr. unfold expired_ids, db_Find. split.
  - intros (p & Hid & Hp)%list_elem_of_fmap.
    apply list_elem_of_In, filter_In in Hp as [Hp Hexp].
    apply list_elem_of_In in Hp.
    assert (r = p) by (eapply NoDup_fmap_same_key; [exact Hnd|done..]).
    by subst p.
  - intros Hexp. apply list_elem_of_fmap. exists r. split; [done|].
    apply list_elem_of_In, filter_In. split; [|done].
    by apply list_elem_of_In.
Qed.

Lemma CleanupExpired_filter st clock :
  NoDup (row_id <$> rows st) →
  rows (CleanupExpired st clock)
  = List.filter (λ r, negb (IsExpired r (clock r))) (rows st).
Proof.
  intros Hnd. rewrite CleanupExpired_rows. simpl.
  apply filter_ext_elem. intros r Hr. f_equal.
  destruct (IsExpired r (clock r)) eqn:E.
  - apply bool_decide_eq_true. by apply expired_ids_spec.
  - apply bool_decide_eq_false. rewrite expired_ids_spec by done. congruence.
Qed.

(** X7. On a table whose keys are distinct, [CleanupExpired] deletes
    exactly the rows that are expired at the instant they are examined: the
    rows left are the unexpired ones, in table order and unchanged; the
    auto-increment counter is untouched; and a table without expired rows is
    returned as it is. *)
Theorem CleanupExpired_deletes_exactly_the_expired st clock :
  NoDup (row_id <$> rows st) →
  let st' := CleanupExpired st clock in
  rows st'
  = List.filter (λ r, negb (IsExpired r (clock r))) (rows st)
  ∧ lastID st' = lastID st
  ∧ (∀ r, r ∈ rows st' ↔
          r ∈ rows st ∧ IsExpired r (clock r) = false)
  ∧ ((∀ r, r ∈ rows st → IsExpired r (clock r) = false) →
     st' = st).
Proof.
  intros Hnd st'. subst st'. split; [by apply CleanupExpired_filter|].
  split; [by rewrite CleanupExpired_rows|]. split.
  - intros r. rewrite CleanupExpired_filter by done.
    rewrite !list_elem_of_In, filter_In, negb_true_iff. done.
  - intros Hnone. rewrite CleanupExpired_rows.
    rewrite filter_all; [by rewrite with_rows_same|].
    intros r Hr. apply negb_true_iff, bool_decide_eq_false.
    rewrite expired_ids_spec by done. rewrite Hnone by done. done.
Qed.

Lemma CleanupExpired_witness :
  let clock := λ _ : Proxy, 26 * Hour in
  let st' := CleanupExpired aged_store clock in
  rows st'
  = List.filter (λ r, negb (IsExpired r (clock r)))
                (rows aged_store)
  ∧ lastID st' = lastID aged_store
  ∧ (∀ r, r ∈ rows st' ↔
          r ∈ rows aged_store ∧ IsExpired r (clock r) = false)
  ∧ ((∀ r, r ∈ rows aged_store →
           IsExpired r (clock r) = false) →
     st' = aged_store).
Proof.
  apply (CleanupExpired_deletes_exactly_the_expired aged_store (λ _, 26 * Hour)).
  vm_compute. apply NoDup_cons. split; [|apply NoDup_singleton].
  by intros ?%list_elem_of_singleton.
Defined.

(** X8. [CleanupInvalid] deletes nothing.  Its DELETE names the column
    success_rate, which the table does not have: on every table the database
    refuses the statement and the table is left as it was.  A proxy that
    takes 6 seconds to answer, which the condition on the speed is there to
    remove, stays. *)
Theorem CleanupInvalid_deletes_nothing :
  (∀ st, CleanupInvalid st = (st, Some (UnknownColumn "success_rate")))
  ∧ Speed <$> rows slow_store = [6000]
  ∧ cond_holds (CAnd (Cmp "speed" OpGt (VInt 5000)) (Cmp "speed" OpNe (VInt 0)))
      <$> rows slow_store
    = [true]
  ∧ rows (CleanupInvalid slow_store).1 = rows slow_store.
Proof. split; [done|]. repeat split. Qed.

(** ** The integrity of the table *)

Lemma store_wf_filter st f :
  store_wf st → store_wf (with_rows st (List.filter f (rows st))).
Proof.
  intros [Hpk Hle]. split; [by apply primary_key_filter|].
  intros r Hr. simpl in *. apply Hle.
  apply list_elem_of_In. apply list_elem_of_In, filter_In in Hr. tauto.
Qed.

Lemma store_wf_fmap st (f : Row → Row) :
  (∀ r, row_id (f r) = row_id r) →
  store_wf st → store_wf (with_rows st (f <$> rows st)).
Proof.
  intros Hf [[Hnd Hnz] Hle].
  assert (Hids : row_id <$> (f <$> rows st) = row_id <$> rows st).
  { rewrite <- list_fmap_compose. apply list_fmap_ext. intros i r _. apply Hf. }
  split; [split|]; simpl.
  - by rewrite Hids.
  - intros r (r0 & -> & Hr0)%list_elem_of_fmap. rewrite Hf. by apply Hnz.
  - intros r (r0 & -> & Hr0)%list_elem_of_fmap. rewrite Hf. by apply Hle.
Qed.

Lemma store_wf_insert_row st p now st' p' :
  store_wf st → insert_row st p now = Some (st', p') → store_wf st'.
Proof.
  intros [[Hnd Hnz] Hle]. unfold insert_row.
  set (q := create_values p now). cbv zeta. clearbody q.
  assert (Hfresh : ∀ id,
            id ≠ 0%N → id ∉ row_id <$> rows st →
            ∀ q', ID q' = id →
            store_wf (mkStore (rows st ++ [q']) (N.max (lastID st) id))).
  { intros id Hid Hnew q' Hq'. split; [split|]; cbn [rows lastID].
    - rewrite fmap_app. apply NoDup_app. split; [done|]. split.
      + intros x Hx [->|?%elem_of_nil]%elem_of_cons; [|done].
        unfold row_id in Hx at 1. by rewrite Hq' in Hx.
      + apply NoDup_singleton.
    - intros r [Hr|Hr%list_elem_of_singleton]%elem_of_app; [by apply Hnz|].
      subst r. unfold row_id. by rewrite Hq'.
    - intros r [Hr|Hr%list_elem_of_singleton]%elem_of_app.
      + specialize (Hle r Hr). lia.
      + subst r. unfold row_id. rewrite Hq'. lia. }
  destruct (decide (ID q = 0%N)).
  - intros [= <- <-].
    replace (lastID st + 1)%N with (N.max (lastID st) (lastID st + 1)) at 2 by lia.
    apply Hfresh; [lia| |done].
    intros (r & Hid & Hr)%list_elem_of_fmap. specialize (Hle r Hr). lia.
  - destruct (existsb (has_id (ID q)) (rows st)) eqn:Hex; [done|].
    intros [= <- <-]. apply Hfresh; [done| |done].
    intros (r & Hid & Hr)%list_elem_of_fmap.
    assert (existsb (has_id (ID q)) (rows st) = true); [|congruence].
    apply existsb_exists. exists r. split; [by apply list_elem_of_In|].
    by apply bool_decide_eq_true.
Qed.

Lemma store_wf_db_Create st p now st' p' :
  store_wf st → db_Create st p now = Some (st', p') → store_wf st'.
Proof. unfold db_Create. apply store_wf_insert_row. Qed.

Lemma write_struct_id p r : row_id (write_struct p r) = row_id r.
Proof.
  unfold write_struct. destruct (has_id (ID p) r) eqn:E; [|done].
  apply bool_decide_eq_true in E. done.
Qed.

Lemma store_wf_db_Save st p now :
  store_wf st → store_wf (db_Save st p now).1.
Proof.
  intros Hwf. unfold db_Save. destruct (decide _).
  - destruct (db_Create st p now) as [[st' p']|] eqn:E; [|done].
    by eapply store_wf_db_Create.
  - destruct (existsb _ _).
    + apply store_wf_fmap; [apply write_struct_id|done].
    + destruct (insert_row st p now) as [[st' p']|] eqn:E; [|done].
      by eapply store_wf_insert_row.
Qed.

Lemma store_wf_db_Delete st p : store_wf st → store_wf (db_Delete st p).
Proof.
  intros Hwf. unfold db_Delete. destruct (decide _); [done|].
  by apply store_wf_filter.
Qed.

Lemma store_wf_db_Update_where cond f st :
  (∀ r, row_id (f r) = row_id r) →
  store_wf st → store_wf (db_Update_where cond f st).
Proof.
  intros Hf. apply store_wf_fmap. intros r. by destruct (cond r).
Qed.

Lemma store_wf_upsert_loop now batch :
  ∀ st st' batch',
    store_wf st → upsert_loop st batch now = Some (st', batch') → store_wf st'.
Proof.
  induction batch as [|c batch IH]; intros st st' batch' Hwf.
  - by intros [= <- <-].
  - cbn [upsert_loop].
    destruct (upsert_one st c now) as [[st1 c1]|] eqn:Hone; [|done].
    destruct (upsert_loop st1 batch now) as [[st2 rest2]|] eqn:Hloop; [|done].
    intros [= <- <-]. eapply IH; [|exact Hloop].
    unfold upsert_one in Hone. destruct (IsProxyExists _ _ _).
    + injection Hone as <- <-. by apply store_wf_db_Update_where.
    + by eapply store_wf_db_Create.
Qed.

Lemma store_wf_rescore_all now proxies :
  ∀ st, store_wf st → store_wf (rescore_all st proxies now).
Proof.
  induction proxies as [|p proxies IH]; intros st Hwf; [done|].
  unfold rescore_all. cbn [foldl]. apply IH. by apply store_wf_db_Save.
Qed.

Lemma store_wf_db_Delete_cond c st :
  store_wf st → store_wf (db_Delete_cond c st).1.
Proof.
  intros Hwf. unfold db_Delete_cond. destruct (resolve _); [done|].
  by apply store_wf_filter.
Qed.

Section Integrity.

Variable url_Parse : string → bool.

Lemma store_wf_ValidateProxy v st p get clk :
  store_wf st → store_wf (ValidateProxy url_Parse v st p get clk).1.1.
Proof.
  intros Hwf. unfold ValidateProxy. destruct (negb _); [done|].
  cbv zeta. destruct (probe_loop get (testURLs v)).1.
  - match goal with |- context [db_Save ?s ?q ?t] =>
      pose proof (store_wf_db_Save s q t Hwf); destruct (db_Save s q t) end.
    done.
  - destruct (decide _); [by apply store_wf_db_Delete|].
    match goal with |- context [db_Save ?s ?q ?t] =>
      pose proof (store_wf_db_Save s q t Hwf); destruct (db_Save s q t) end.
    done.
Qed.

Lemma store_wf_addProxy cfg st proxy w :
  store_wf st → store_wf (addProxy url_Parse cfg st proxy w).1.1.
Proof.
  intros Hwf. unfold addProxy. destruct (IsProxyExists _ _ _); [done|].
  pose proof (store_wf_ValidateProxy (NewProxyValidator (MaxFailCount cfg)) st proxy
                (probe_get w) (probe_clock w) Hwf) as Hv.
  destruct (ValidateProxy _ _ _ _ _ _) as [[st1 p1] ok]. cbn [fst] in Hv.
  destruct ok; cbn [negb]; [|done]. destruct (Available p1); cbn [negb]; [|done].
  destruct (db_Create st1 p1 _) as [[st2 p2]|] eqn:E; [|done].
  by eapply store_wf_db_Create.
Qed.

(** X9. The integrity of the table (distinct non-zero keys, none beyond
    the auto-increment counter) is preserved by every operation that writes
    to it: [ValidateProxy], [addProxy], [BatchCreateWithDuplicateCheck],
    [UpdateProxyStatus], [OptimizePool], [CleanupExpired], [CleanupInvalid]
    and [RemoveProxy]. *)
Theorem store_integrity_is_preserved st :
  store_wf st →
  (∀ v p get clk, store_wf (ValidateProxy url_Parse v st p get clk).1.1)
  ∧ (∀ cfg proxy w, store_wf (addProxy url_Parse cfg st proxy w).1.1)
  ∧ (∀ batch now, store_wf (BatchCreateWithDuplicateCheck st batch now).1.1)
  ∧ (∀ proxy available speed now,
        store_wf (UpdateProxyStatus st proxy available speed now).1)
  ∧ (∀ now, store_wf (OptimizePool st now).1)
  ∧ (∀ clock, store_wf (CleanupExpired st clock))
  ∧ store_wf (CleanupInvalid st).1
  ∧ (∀ id, store_wf (RemoveProxy st id)).
Proof.
  intros Hwf. split; [|split; [|split; [|split; [|split; [|split; [|split]]]]]].
  - intros. by apply store_wf_ValidateProxy.
  - intros. by apply store_wf_addProxy.
  - intros batch now. unfold BatchCreateWithDuplicateCheck.
    destruct batch as [|c batch]; [done|].
    destruct (upsert_loop st (c :: batch) now) as [[st' b']|] eqn:E; [|done].
    by eapply store_wf_upsert_loop.
  - intros proxy available speed now. by rewrite UpdateProxyStatus_refused.
  - intros now. unfold OptimizePool.
    pose proof (store_wf_db_Delete_cond low_quality st Hwf) as Hwf1.
    destruct (db_Delete_cond low_quality st) as [st1 [err|]]; [done|].
    apply store_wf_db_Update_where; [done|].
    by apply store_wf_rescore_all.
  - intros clock. rewrite CleanupExpired_rows. by apply store_wf_filter.
  - by apply store_wf_db_Delete_cond.
  - intros id. by apply store_wf_filter.
Qed.

End Integrity.

Lemma store_integrity_witness :
  (∀ v p get clk, store_wf (ValidateProxy (λ _, true) v store_one p get clk).1.1)
  ∧ (∀ cfg proxy w, store_wf (addProxy (λ _, true) cfg store_one proxy w).1.1)
  ∧ (∀ batch now, store_wf (BatchCreateWithDuplicateCheck store_one batch now).1.1)
  ∧ (∀ proxy available speed now,
        store_wf (UpdateProxyStatus store_one proxy available speed now).1)
  ∧ (∀ now, store_wf (OptimizePool store_one now).1)
  ∧ (∀ clock, store_wf (CleanupExpired store_one clock))
  ∧ store_wf (CleanupInvalid store_one).1
  ∧ (∀ id, store_wf (RemoveProxy store_one id)).
Proof.
  apply (store_integrity_is_preserved (λ _, true) store_one).
  split; [split|].
  - vm_compute. apply NoDup_singleton.
  - intros r ->%list_elem_of_singleton. done.
  - intros r ->%list_elem_of_singleton. vm_compute. discriminate.
Defined.

(** ** The validator over several rounds *)

Section ValidateRounds.

Variable url_Parse : string → bool.

(** A failing call below the threshold saves the struct. *)
Lemma ValidateProxy_failure_saved v st p get clk :
  url_Parse (proxyURL p) = true →
  ID p ≠ 0%N → is_Some (db_First st (ID p)) →
  GoInt.min_int <= FailCount p < GoInt.max_int →
  (probe_loop get (testURLs v)).1 = false →
  FailCount p + 1 < maxFailCount v →
  let r := ValidateProxy url_Parse v st p get clk in
  db_First r.1.1 (ID p) = Some r.1.2 ∧ Available r.1.2 = false.
Proof.
  intros Hurl Hid Hin Hfc Hloop Hlt. unfold ValidateProxy.
  rewrite Hurl, Hloop. simpl. rewrite (incr_exact _ Hfc).
  apply db_First_is_Some in Hin.
  destruct (decide (maxFailCount v <= FailCount p + 1)); [lia|].
  match goal with |- context [db_Save ?s ?q ?t] =>
    destruct (db_First_Save_present s q t Hid Hin) as [Heq Hfirst];
    rewrite Heq in *; simpl in * end.
  done.
Qed.

Lemma validate_rounds_failures v rounds :
  ∀ st p,
    url_Parse (proxyURL p) = true →
    ID p ≠ 0%N →
    GoInt.min_int <= FailCount p →
    FailCount p + Z.of_nat (length rounds) <= GoInt.max_int →
    Forall (λ w, (probe_loop w.1 (testURLs v)).1 = false) rounds →
    let r := validate_rounds url_Parse v st p rounds in
    ID r.2 = ID p
    ∧ proxyURL r.2 = proxyURL p
    ∧ FailCount r.2 = FailCount p + Z.of_nat (length rounds)
    ∧ (rounds ≠ [] →
       (is_Some (db_First st (ID p)) →
        FailCount p + Z.of_nat (length rounds) < maxFailCount v →
        db_First r.1 (ID p) = Some r.2 ∧ Available r.2 = false)
       ∧ (maxFailCount v <= FailCount p + Z.of_nat (length rounds) →
          db_First r.1 (ID p) = None)).
Proof.
  induction rounds as [|[get clk] rounds IH]; intros st p Hurl Hid Hlo Hhi Hall.
  - simpl. rewrite Z.add_0_r. by repeat split.
  - apply Forall_cons in Hall as [Hget Hall]. simpl in Hget.
    cbn [length] in Hhi. rewrite Nat2Z.inj_succ in Hhi.
    assert (Hfc : GoInt.min_int <= FailCount p < GoInt.max_int) by lia.
    destruct (ValidateProxy_failure_struct url_Parse v st p get clk Hurl Hid Hfc Hget)
      as (Hid1 & Hurl1 & Hfc1 & Hgone).
    cbn [validate_rounds length]. rewrite Nat2Z.inj_succ.
    set (r1 := ValidateProxy url_Parse v st p get clk) in *.
    destruct (IH r1.1.1 r1.1.2) as (Hid2 & Hurl2 & Hfc2 & Hrest);
      [congruence | congruence | lia | lia | done |].
    set (r := validate_rounds url_Parse v r1.1.1 r1.1.2 rounds) in *.
    split; [congruence|]. split; [congruence|]. split; [lia|].
    intros _. destruct rounds as [|w rounds'].
    + simpl in *. subst r. simpl. split.
      * intros Hin Hlt. rewrite Z.add_0_r in Hfc2.
        apply (ValidateProxy_failure_saved v st p get clk); first [done | lia].
      * intros Hge. apply Hgone. lia.
    + destruct Hrest as [Hsome Hnone]; [done|]. rewrite Hid1 in Hsome, Hnone.
      split.
      * intros Hin Hlt. apply Hsome; [|lia].
        assert (Hs : db_First r1.1.1 (ID p) = Some r1.1.2).
        { apply (ValidateProxy_failure_saved v st p get clk);
            first [done | cbn [length] in Hlt; lia]. }
        rewrite Hs. eauto.
      * intros Hge. apply Hnone. lia.
Qed.

(** X10. Eviction for any threshold.  After any number [n >= 1] of calls
    of [ValidateProxy] in a row on a stored proxy, none of which sees a
    canary answer 200, [FailCount] has grown by [n]; while the count stays
    below [maxFailCount] the struct read back from the table is the updated
    one, marked unavailable; and once the count has reached [maxFailCount]
    the row is gone, and stays gone. *)
Theorem ValidateProxy_evicts_at_maxFailCount v st p rounds :
  url_Parse (proxyURL p) = true →
  ID p ≠ 0%N → is_Some (db_First st (ID p)) →
  0 <= FailCount p →
  FailCount p + Z.of_nat (length rounds) <= GoInt.max_int →
  rounds ≠ [] →
  (∀ w u, w ∈ rounds → u ∈ testURLs v → is_200 (w.1 u) = false) →
  let r := validate_rounds url_Parse v st p rounds in
  FailCount r.2 = FailCount p + Z.of_nat (length rounds)
  ∧ (FailCount p + Z.of_nat (length rounds) < maxFailCount v →
     db_First r.1 (ID p) = Some r.2 ∧ Available r.2 = false)
  ∧ (maxFailCount v <= FailCount p + Z.of_nat (length rounds) →
     db_First r.1 (ID p) = None).
Proof.
  intros Hurl Hid Hin Hfc Hhi Hne Hall.
  assert (Hall' : Forall (λ w, (probe_loop w.1 (testURLs v)).1 = false) rounds).
  { apply Forall_forall. intros w Hw. apply probe_loop_all_fail.
    intros u Hu. by apply Hall. }
  destruct (validate_rounds_failures v rounds st p Hurl Hid) as (_ & _ & H1 & H2);
    [unfold GoInt.min_int; lia | done | done |].
  destruct (H2 Hne) as [Hsome Hnone].
  split; [done|]. split; [by apply Hsome|done].
Qed.

(** A successful call on a stored row writes the struct back. *)
Lemma ValidateProxy_success_saved v st p get clk :
  url_Parse (proxyURL p) = true →
  ID p ≠ 0%N → is_Some (db_First st (ID p)) →
  (probe_loop get (testURLs v)).1 = true →
  ValidateProxy url_Parse v st p get clk
  = (with_rows st
       (write_struct
          (set_FailCount 0
             (set_Available true
                (set_Speed (Milliseconds (Since (t_done clk) (t_start clk)))
                   (set_LastCheck (t_check clk) p)))) <$> rows st),
     set_FailCount 0
       (set_Available true
          (set_Speed (Milliseconds (Since (t_done clk) (t_start clk)))
             (set_LastCheck (t_check clk) p))),
     true).
Proof.
  intros Hurl Hid Hin Hloop. unfold ValidateProxy. rewrite Hurl, Hloop. simpl.
  apply db_First_is_Some in Hin.
  match goal with |- context [db_Save ?s ?q ?t] =>
    destruct (db_First_Save_present s q t Hid Hin) as [Heq _]; rewrite Heq end.
  done.
Qed.

(** X11. A successful validation restarts the count.  When some canary
    answers 200, [ValidateProxy] on a stored proxy returns [nil], writes the
    struct back with [FailCount = 0] and [Available = true] and deletes
    nothing; fewer than [maxFailCount] failing calls after it leave the row
    in the table, whatever the count was before. *)
Theorem ValidateProxy_success_restarts_the_count v st p get clk rounds :
  url_Parse (proxyURL p) = true →
  ID p ≠ 0%N → is_Some (db_First st (ID p)) →
  (∃ u, u ∈ testURLs v ∧ is_200 (get u) = true) →
  (∀ w u, w ∈ rounds → u ∈ testURLs v → is_200 (w.1 u) = false) →
  Z.of_nat (length rounds) < maxFailCount v <= GoInt.max_int →
  let r := ValidateProxy url_Parse v st p get clk in
  let r' := validate_rounds url_Parse v r.1.1 r.1.2 rounds in
  r.2 = true
  ∧ db_First r.1.1 (ID p) = Some r.1.2
  ∧ FailCount r.1.2 = 0 ∧ Available r.1.2 = true
  ∧ length (rows r.1.1) = length (rows st)
  ∧ db_First r'.1 (ID p) = Some r'.2
  ∧ FailCount r'.2 = Z.of_nat (length rounds).
Proof.
  intros Hurl Hid Hin Hok Hall Hlen.
  assert (Hloop : (probe_loop get (testURLs v)).1 = true).
  { by apply (probe_loop_spec get (testURLs v)). }
  rewrite (ValidateProxy_success_saved v st p get clk Hurl Hid Hin Hloop).
  cbn [fst snd].
  set (p1 := set_FailCount 0 _).
  set (st1 := with_rows st _).
  assert (Hfirst : db_First st1 (ID p) = Some p1).
  { apply db_First_is_Some in Hin.
    by destruct (db_First_Save_present st p1 (t_store clk) Hid Hin) as [_ H];
      rewrite (proj1 (db_First_Save_present st p1 (t_store clk) Hid Hin)) in H. }
  split; [done|]. split; [done|]. split; [done|]. split; [done|].
  split; [subst st1; simpl; by rewrite length_fmap|].
  destruct rounds as [|w rounds']; [done|].
  set (rounds := w :: rounds') in *.
  assert (Hall' : Forall (λ w, (probe_loop w.1 (testURLs v)).1 = false) rounds).
  { apply Forall_forall. intros w' Hw. apply probe_loop_all_fail.
    intros u Hu. by apply Hall. }
  destruct (validate_rounds_failures v rounds st1 p1) as (_ & _ & H1 & H2);
    [done | done | by vm_compute | change (FailCount p1) with 0; lia | done |].
  change (ID p1) with (ID p) in H2. change (FailCount p1) with 0 in H1, H2.
  destruct H2 as [Hsome _]; [done|].
  split; [|lia]. apply Hsome; [by rewrite Hfirst|lia].
Qed.

End ValidateRounds.

Lemma ValidateProxy_evicts_witness :
  let r := validate_rounds (λ _, true) (NewProxyValidator 3) store_one stored_row
             [round_down; round_down; round_down] in
  FailCount r.2 = FailCount stored_row + Z.of_nat 3
  ∧ (FailCount stored_row + Z.of_nat 3 < maxFailCount (NewProxyValidator 3) →
     db_First r.1 (ID stored_row) = Some r.2 ∧ Available r.2 = false)
  ∧ (maxFailCount (NewProxyValidator 3) <= FailCount stored_row + Z.of_nat 3 →
     db_First r.1 (ID stored_row) = None).
Proof.
  apply (ValidateProxy_evicts_at_maxFailCount (λ _, true) (NewProxyValidator 3)
           store_one stored_row [round_down; round_down; round_down]).
  - reflexivity.
  - discriminate.
  - vm_compute. eauto.
  - vm_compute. discriminate.
  - vm_compute. discriminate.
  - discriminate.
  - intros w u Hw _. apply list_elem_of_In in Hw. simpl in Hw.
    destruct Hw as [<-|[<-|[<-|[]]]]; reflexivity.
Defined.

Lemma ValidateProxy_success_restarts_witness :
  let r := ValidateProxy (λ _, true) (NewProxyValidator 3) store_one stored_row
             canaries_ok clock_120ms in
  let r' := validate_rounds (λ _, true) (NewProxyValidator 3) r.1.1 r.1.2
              [round_down; round_down] in
  r.2 = true
  ∧ db_First r.1.1 (ID stored_row) = Some r.1.2
  ∧ FailCount r.1.2 = 0 ∧ Available r.1.2 = true
  ∧ length (rows r.1.1) = length (rows store_one)
  ∧ db_First r'.1 (ID stored_row) = Some r'.2
  ∧ FailCount r'.2 = Z.of_nat (length [round_down; round_down]).
Proof.
  apply (ValidateProxy_success_restarts_the_count (λ _, true) (NewProxyValidator 3)
           store_one stored_row canaries_ok clock_120ms [round_down; round_down]).
  - reflexivity.
  - discriminate.
  - vm_compute. eauto.
  - exists "http://www.baidu.com". split; [|reflexivity]. apply elem_of_cons. by left.
  - intros w u Hw _. apply list_elem_of_In in Hw. simpl in Hw.
    destruct Hw as [<-|[<-|[]]]; reflexivity.
  - vm_compute. split; [reflexivity|discriminate].
Defined.

(** ** The scheduler: what a call of [ScheduleProxy] can return *)

(** X12. [GetProxies] offers no proxy.  Its query orders by the column
    success_rate, which the table does not have: for every table, every type
    and every limit the database refuses the statement, and [GetProxies]
    returns that error with an empty slice, also when the table holds an
    available proxy of the type. *)
Theorem GetProxies_returns_the_error_of_the_database :
  (∀ st proxyType limit,
     GetProxies st proxyType limit = ([], Some (UnknownColumn "success_rate")))
  ∧ rows store_a = [proxy_a]
  ∧ Type_ proxy_a = ProxyTypeLong ∧ Available proxy_a = true
  ∧ GetProxies store_a ProxyTypeLong 50 = ([], Some (UnknownColumn "success_rate")).
Proof. split; [done|]. repeat split. Qed.

Lemma hand_out_locked s selected now :
  Lock (mu s) = Blocks → hand_out s selected now = Blocks.
Proof. intros H. unfold hand_out, updateProxyStats. by rewrite H. Qed.

Section ReadLocked.

Variable sort_Slice : ∀ A : Type, (A → A → bool) → list A → list A.

Lemma weightedSchedule_locked s proxies task now rnd s' sel :
  Lock (mu s) = Blocks →
  weightedSchedule s proxies task now rnd = Returns (s', sel) →
  ∃ err, sel = Failed err.
Proof.
  intros Hlock. unfold weightedSchedule. destruct proxies as [|p0 proxies0].
  { intros [= _ <-]. eauto. }
  set (proxies := p0 :: proxies0).
  destruct (weighted_candidates_spec now task proxies s) as ((Hmu & _) & _ & _).
  destruct (weighted_candidates s proxies task now) as [[s1 cands] ws].
  simpl in Hmu. destruct cands as [|c0 cands0].
  { intros [= _ <-]. eauto. }
  destruct (weighted_choice rnd _ ws); [|done].
  rewrite hand_out_locked; [done|]. by rewrite Hmu.
Qed.

Lemma defaultSchedule_locked s proxies task now rnd s' sel :
  Lock (mu s) = Blocks →
  defaultSchedule s proxies task now rnd = Returns (s', sel) →
  ∃ err, sel = Failed err.
Proof.
  intros Hlock. unfold defaultSchedule. destruct proxies as [|p0 proxies0].
  { intros [= _ <-]. eauto. }
  set (proxies := p0 :: proxies0).
  destruct (qualified_candidates_spec now task proxies s) as ((Hmu & _) & _ & _).
  destruct (qualified_candidates s proxies task now) as [s1 cands].
  simpl in Hmu. destruct cands as [|c0 cands0].
  { intros [= _ <-]. eauto. }
  destruct (_ !! _); [|done].
  rewrite hand_out_locked; [done|]. by rewrite Hmu.
Qed.

Lemma sorted_head_schedule_locked less s proxies task now s' sel :
  Lock (mu s) = Blocks →
  sorted_head_schedule sort_Slice less s proxies task now = Returns (s', sel) →
  ∃ err, sel = Failed err.
Proof.
  intros Hlock. unfold sorted_head_schedule. destruct proxies as [|p0 proxies0].
  { intros [= _ <-]. eauto. }
  set (proxies := p0 :: proxies0).
  destruct (qualified_candidates_spec now task proxies s) as ((Hmu & _) & _ & _).
  destruct (qualified_candidates s proxies task now) as [s1 cands].
  simpl in Hmu. destruct cands as [|c0 cands0].
  { intros [= _ <-]. eauto. }
  destruct (sort_Slice _ _ _); [done|].
  rewrite hand_out_locked; [done|]. by rewrite Hmu.
Qed.

Lemma dispatch_locked s proxies task now rnd s' sel :
  Lock (mu s) = Blocks →
  dispatch sort_Slice s proxies task now rnd = Returns (s', sel) →
  ∃ err, sel = Failed err.
Proof.
  intros Hlock. unfold dispatch.
  destruct (bool_decide (Strategy task = StrategySiteAdaptive)).
  { unfold siteAdaptiveSchedule. destruct (bool_decide (Domain task = "")).
    { by apply defaultSchedule_locked. }
    destruct (_ <$> proxies) as [|c0 cs].
    { intros [= _ <-]. eauto. }
    destruct (_ !! _); [|done]. by rewrite hand_out_locked. }
  destruct (bool_decide (Strategy task = StrategyWeighted));
    [by apply weightedSchedule_locked|].
  destruct (bool_decide (Strategy task = StrategyRoundRobin));
    [by apply sorted_head_schedule_locked|].
  destruct (bool_decide (Strategy task = StrategyLeastUsed));
    [by apply sorted_head_schedule_locked|].
  destruct (bool_decide (Strategy task = StrategyFailover));
    [by apply sorted_head_schedule_locked|].
  by apply defaultSchedule_locked.
Qed.

(** X13. [ScheduleProxy] never returns a proxy.  It holds the read lock
    of the scheduler from entry to return, and every strategy ends in
    [updateProxyStats], which asks for the write lock of the same mutex:
    whenever a strategy has settled on a proxy the call parks, whatever the
    candidates are.  So a call that returns, returns an error; and the
    statement that loads the candidates being refused by the database, an
    error is what every call returns that gets the read lock. *)
Theorem ScheduleProxy_never_returns_a_proxy s st task now rnd s' p :
  ScheduleProxy sort_Slice s st task now rnd ≠ Returns (s', Selected p)
  ∧ (∀ m proxies,
       RLock (mu s) = Returns m →
       dispatch sort_Slice (set_mu m s) proxies task now rnd
       ≠ Returns (s', Selected p))
  ∧ (∀ m,
       RLock (mu s) = Returns m →
       ∃ err, ScheduleProxy sort_Slice s st task now rnd
              = Returns (s, Failed (ErrStore err))).
Proof.
  assert (Hswitch : ∀ m proxies s2 q,
            RLock (mu s) = Returns m →
            dispatch sort_Slice (set_mu m s) proxies task now rnd
            ≠ Returns (s2, Selected q)).
  { intros m proxies s2 q Hm E. unfold RLock in Hm.
    destruct (writer (mu s)); [done|]. injection Hm as <-.
    apply dispatch_locked in E as [err E]; [done|done]. }
  split; [|split].
  - unfold ScheduleProxy. destruct (RLock (mu s)) as [m| |] eqn:Hm; [|done..]. simpl.
    destruct (GetProxies st (task_ProxyType task) 50) as [proxies [err|]]; [done|].
    destruct (dispatch sort_Slice (set_mu m s) proxies task now rnd)
      as [[s1 sel]| |] eqn:E; [|done..].
    destruct sel as [q|err]; [|done]. by apply Hswitch in E.
  - intros m proxies Hm. by apply Hswitch.
  - intros m Hm. unfold ScheduleProxy. rewrite Hm. simpl.
    exists (UnknownColumn "success_rate"). unfold RLock in Hm.
    destruct (writer (mu s)) eqn:Hw; [done|]. injection Hm as <-.
    f_equal. f_equal. destruct s as [[r w] ? ? ? ? ?]. simpl in *. by subst w.
Qed.

End ReadLocked.

(** ** The scheduler: which outcome, and when *)

Lemma filter_nil_iff {A} (f : A → bool) (l : list A) :
  List.filter f l = [] ↔ ∀ x, x ∈ l → f x = false.
Proof.
  split; [|apply filter_none].
  intros Hnil x Hx. destruct (f x) eqn:E; [|done].
  assert (Hin : In x (List.filter f l)).
  { apply filter_In. split; [by apply list_elem_of_In|done]. }
  rewrite Hnil in Hin. done.
Qed.

Section Outcomes.

Variable sort_Slice : ∀ A : Type, (A → A → bool) → list A → list A.
Hypothesis sort_Slice_perm : ∀ A less (l : list A), sort_Slice A less l ≡ₚ l.

Lemma qualified_filter_cases s proxies task now :
  (List.filter (λ p, qualified s p task now) proxies = []
   ∧ ∀ p, p ∈ proxies → (isProxyQualified s p task now).1 = false)
  ∨ (∃ c cs, List.filter (λ p, qualified s p task now) proxies = c :: cs).
Proof.
  destruct (List.filter _ proxies) as [|c cs] eqn:E; [left|right; eauto].
  split; [done|]. intros p Hp.
  destruct (isProxyQualified_spec s p task now) as (-> & _).
  by apply (proj1 (filter_nil_iff _ _) E).
Qed.

Lemma qualified_elem s proxies task now p :
  p ∈ List.filter (λ p, qualified s p task now) proxies →
  p ∈ proxies ∧ (isProxyQualified s p task now).1 = true.
Proof.
  intros H. destruct (isProxyQualified_spec s p task now) as (-> & _).
  by apply elem_of_filter_qualified.
Qed.

Lemma weightedSchedule_picks s proxies task now rnd :
  strategy_picks s proxies task now (weightedSchedule s proxies task now rnd).
Proof.
  unfold weightedSchedule. destruct proxies as [|p0 proxies0]; [by left|].
  right. set (proxies := p0 :: proxies0).
  destruct (weighted_candidates_spec now task proxies s) as ((Hmu & _) & Hc & _).
  destruct (weighted_candidates s proxies task now) as [[s1 cands] ws].
  cbn [fst snd] in Hmu, Hc.
  destruct (qualified_filter_cases s proxies task now) as [[Hnil Hnone]|(c & cs & Hcs)].
  - left. rewrite Hc, Hnil. split; [done|]. split; [done|]. by exists s1.
  - right. rewrite Hc, Hcs, <- Hcs, <- Hc.
    destruct (weighted_choice rnd cands ws) as [sel|] eqn:E.
    + exists s1, sel. split; [done|].
      apply weighted_choice_elem in E. rewrite Hc in E.
      apply qualified_elem in E as [? ?]. done.
    + exfalso. unfold weighted_choice in E.
      destruct (weighted_walk _ cands ws); [done|].
      rewrite Hc, Hcs in E. by rewrite last_cons in E; destruct (last cs).
Qed.

Lemma defaultSchedule_picks s proxies task now rnd :
  strategy_picks s proxies task now (defaultSchedule s proxies task now rnd).
Proof.
  unfold defaultSchedule. destruct proxies as [|p0 proxies0]; [by left|].
  right. set (proxies := p0 :: proxies0).
  destruct (qualified_candidates_spec now task proxies s) as ((Hmu & _) & _ & Hc).
  destruct (qualified_candidates s proxies task now) as [s1 cands].
  cbn [fst snd] in Hmu, Hc.
  destruct (qualified_filter_cases s proxies task now) as [[Hnil Hnone]|(c & cs & Hcs)].
  - left. rewrite Hc, Hnil. split; [done|]. split; [done|]. by exists s1.
  - right. rewrite Hc, Hcs, <- Hcs, <- Hc.
    assert (Hlen : (0 < length cands)%nat) by (rewrite Hc, Hcs; simpl; lia).
    assert (Hidx : (Z.to_nat (rand_Intn rnd (Z.of_nat (length cands))) < length cands)%nat).
    { unfold rand_Intn.
      pose proof (Z.mod_pos_bound (rand_bits rnd) (Z.of_nat (length cands))). lia. }
    destruct (lookup_lt_is_Some_2 cands _ Hidx) as [sel Hsel]. rewrite Hsel.
    exists s1, sel. split; [done|].
    apply list_elem_of_lookup_2 in Hsel. rewrite Hc in Hsel.
    apply qualified_elem in Hsel as [? ?]. done.
Qed.

Lemma sorted_head_schedule_picks less s proxies task now :
  strategy_picks s proxies task now
    (sorted_head_schedule sort_Slice less s proxies task now).
Proof.
  unfold sorted_head_schedule. destruct proxies as [|p0 proxies0]; [by left|].
  right. set (proxies := p0 :: proxies0).
  destruct (qualified_candidates_spec now task proxies s) as ((Hmu & _) & _ & Hc).
  destruct (qualified_candidates s proxies task now) as [s1 cands].
  cbn [fst snd] in Hmu, Hc.
  destruct (qualified_filter_cases s proxies task now) as [[Hnil Hnone]|(c & cs & Hcs)].
  - left. rewrite Hc, Hnil. split; [done|]. split; [done|]. by exists s1.
  - right. rewrite Hc, Hcs, <- Hcs, <- Hc.
    pose proof (sort_Slice_perm Proxy (less s1) cands) as Hperm.
    destruct (sort_Slice Proxy (less s1) cands) as [|sel sorted].
    { apply Permutation_nil_l in Hperm. rewrite Hc, Hcs in Hperm. done. }
    exists s1, sel. split; [done|].
    assert (Hin : sel ∈ cands).
    { rewrite <- Hperm. apply elem_of_cons. by left. }
    rewrite Hc in Hin. apply qualified_elem in Hin as [? ?]. done.
Qed.

Lemma dispatch_picks s proxies task now rnd :
  Strategy task ≠ StrategySiteAdaptive ∨ Domain task = "" →
  strategy_picks s proxies task now (dispatch sort_Slice s proxies task now rnd).
Proof.
  intros Hstrat. unfold dispatch, siteAdaptiveSchedule.
  destruct (bool_decide (Strategy task = StrategySiteAdaptive)) eqn:Esa.
  { apply bool_decide_eq_true in Esa. destruct Hstrat as [?|Hdom]; [done|].
    rewrite bool_decide_eq_true_2 by done. apply defaultSchedule_picks. }
  destruct (bool_decide (Strategy task = StrategyWeighted));
    [apply weightedSchedule_picks|].
  destruct (bool_decide (Strategy task = StrategyRoundRobin));
    [apply sorted_head_schedule_picks|].
  destruct (bool_decide (Strategy task = StrategyLeastUsed));
    [apply sorted_head_schedule_picks|].
  destruct (bool_decide (Strategy task = StrategyFailover));
    [apply sorted_head_schedule_picks|].
  apply defaultSchedule_picks.
Qed.

(** X14. The strategies on their own, with the lock free and
    [sort.Slice] rearranging the slice.  For every strategy that runs the
    filter, [dispatch] returns: [ErrNoProxyAvailable] exactly for the empty
    slice, [ErrNoQualifiedProxy] exactly for a non-empty slice none of whose
    proxies passes [isProxyQualified], and otherwise a proxy of the slice
    that passes it; the lock is free again afterwards. *)
Theorem dispatch_selects_iff_a_candidate_qualifies s proxies task now rnd :
  mu s = RWMutex_free →
  Strategy task ≠ StrategySiteAdaptive ∨ Domain task = "" →
  ∃ s' sel,
    dispatch sort_Slice s proxies task now rnd = Returns (s', sel)
    ∧ mu s' = RWMutex_free
    ∧ match sel with
      | Selected p =>
          p ∈ proxies ∧ (isProxyQualified s p task now).1 = true
      | Failed ErrNoProxyAvailable => proxies = []
      | Failed ErrNoQualifiedProxy =>
          proxies ≠ []
          ∧ ∀ p, p ∈ proxies → (isProxyQualified s p task now).1 = false
      | Failed (ErrStore _) => False
      end.
Proof.
  intros Hmu Hstrat.
  destruct (dispatch_picks s proxies task now rnd Hstrat)
    as [[Hnil ->]|[(Hne & Hnone & s1 & Hmu1 & ->)|(s1 & p & Hmu1 & Hp & Hq & ->)]].
  - by exists s, (Failed ErrNoProxyAvailable).
  - exists s1, (Failed ErrNoQualifiedProxy). split; [done|]. split; [congruence|done].
  - assert (Hfree : mu s1 = RWMutex_free) by congruence.
    destruct (updateProxyStats_free s1 p true now Hfree) as (s' & Hrun & Hmu' & _).
    exists s', (Selected p). unfold hand_out. rewrite Hrun. done.
Qed.

Lemma isProxyQualified_mu m s p task now :
  (isProxyQualified (set_mu m s) p task now).1 = (isProxyQualified s p task now).1.
Proof.
  destruct (isProxyQualified_spec (set_mu m s) p task now) as (-> & _).
  destruct (isProxyQualified_spec s p task now) as (-> & _).
  done.
Qed.

(** X15. The switch of [ScheduleProxy], entered as [ScheduleProxy] enters
    it, with the read lock of the scheduler held, for a strategy that runs
    the filter: it returns [ErrNoProxyAvailable] for an empty slice of
    candidates, [ErrNoQualifiedProxy] when none of the candidates passes
    [isProxyQualified], and it parks for ever as soon as one candidate
    passes. *)
Theorem switch_under_read_lock_blocks_iff_a_candidate_qualifies
    s m proxies task now rnd :
  RLock (mu s) = Returns m →
  Strategy task ≠ StrategySiteAdaptive ∨ Domain task = "" →
  let s0 := set_mu m s in
  let result := dispatch sort_Slice s0 proxies task now rnd in
  (proxies = [] → result = Returns (s0, Failed ErrNoProxyAvailable))
  ∧ (proxies ≠ [] →
     (∀ p, p ∈ proxies → (isProxyQualified s p task now).1 = false) →
     ∃ s', result = Returns (s', Failed ErrNoQualifiedProxy))
  ∧ ((∃ p, p ∈ proxies ∧ (isProxyQualified s p task now).1 = true) →
     result = Blocks).
Proof.
  intros Hm Hstrat s0 result. subst result.
  assert (Hlock : ∀ s1, mu s1 = mu s0 → Lock (mu s1) = Blocks).
  { intros s1 ->. unfold RLock in Hm. destruct (writer (mu s)); [done|].
    by injection Hm as <-. }
  destruct (dispatch_picks s0 proxies task now rnd Hstrat)
    as [[Hnil ->]|[(Hne & Hnone & s1 & Hmu1 & ->)|(s1 & p & Hmu1 & Hp & Hq & ->)]].
  - split; [done|]. split; [done|].
    intros (p & Hp & _). rewrite Hnil in Hp. by apply elem_of_nil in Hp.
  - split; [done|]. split; [by eauto|].
    intros (p & Hp & Hq). specialize (Hnone p Hp).
    unfold s0 in Hnone. rewrite isProxyQualified_mu in Hnone. congruence.
  - unfold s0 in Hq. rewrite isProxyQualified_mu in Hq.
    rewrite hand_out_locked by (by apply Hlock).
    split; [intros Hnil; rewrite Hnil in Hp; by apply elem_of_nil in Hp|].
    split; [|done]. intros _ Hnone. specialize (Hnone p Hp). congruence.
Qed.

End Outcomes.

Section SortContract.

Variable sort_Slice : ∀ A : Type, (A → A → bool) → list A → list A.
Hypothesis sort_Slice_perm : ∀ A less (l : list A), sort_Slice A less l ≡ₚ l.

(** The contract of [sort.Slice] for a comparison by a key: the result is in
    ascending order of the key. *)
Hypothesis sort_Slice_sorted :
  ∀ A (key : A → Z) (l : list A),
    StronglySorted (λ x y, key x <= key y)
                   (sort_Slice A (λ a b, bool_decide (key a < key b)) l).

Lemma sorted_head_schedule_min (key : ProxyScheduler → Proxy → Z)
    s proxies task now s' p :
  sorted_head_schedule sort_Slice
    (λ s a b, bool_decide (key s a < key s b)) s proxies task now
  = Returns (s', Selected p) →
  (∀ s1, same_filter now s s1 → ∀ q, key s1 q = key s q) →
  ∀ q, q ∈ proxies → (isProxyQualified s q task now).1 = true → key s p <= key s q.
Proof.
  unfold sorted_head_schedule. destruct proxies as [|p0 proxies0]; [done|].
  set (proxies := p0 :: proxies0).
  destruct (qualified_candidates_spec now task proxies s) as (Hsf & _ & Hc).
  destruct (qualified_candidates s proxies task now) as [s1 cands].
  cbn [fst snd] in Hsf, Hc. destruct cands as [|c0 cands0]; [done|].
  set (cands := c0 :: cands0) in *.
  pose proof (sort_Slice_sorted Proxy (key s1) cands) as Hsorted.
  pose proof (sort_Slice_perm Proxy (λ a b, bool_decide (key s1 a < key s1 b)) cands)
    as Hperm.
  destruct (sort_Slice Proxy _ cands) as [|sel sorted]; [done|].
  intros H Hkey q Hq Hqual. apply hand_out_selected in H as [= <-].
  assert (Hin : q ∈ p :: sorted).
  { rewrite Hperm, Hc. apply list_elem_of_In, filter_In.
    split; [by apply list_elem_of_In|].
    by destruct (isProxyQualified_spec s q task now) as (<- & _). }
  apply StronglySorted_inv in Hsorted as [_ Hall].
  rewrite <- !(Hkey s1 Hsf).
  apply elem_of_cons in Hin as [->|Hin]; [lia|].
  by apply (proj1 (Forall_forall _ _) Hall).
Qed.

(** X16. With [sort.Slice] meeting its contract, the round-robin strategy
    returns a qualified proxy whose [lastUsed] is the earliest, the
    least-used strategy one whose runtime [useCount] is the smallest, and the
    failover strategy one whose runtime [failCount] is the smallest, among
    the qualified proxies of the slice. *)
Theorem sorting_strategies_return_the_minimum s proxies task now s' p :
  (roundRobinSchedule sort_Slice s proxies task now = Returns (s', Selected p) →
   ∀ q, q ∈ proxies → (isProxyQualified s q task now).1 = true →
        time_at (lastUsed s) (ID p) <= time_at (lastUsed s) (ID q))
  ∧ (leastUsedSchedule sort_Slice s proxies task now = Returns (s', Selected p) →
     ∀ q, q ∈ proxies → (isProxyQualified s q task now).1 = true →
          int_at (useCount s) (ID p) <= int_at (useCount s) (ID q))
  ∧ (failoverSchedule sort_Slice s proxies task now = Returns (s', Selected p) →
     ∀ q, q ∈ proxies → (isProxyQualified s q task now).1 = true →
          int_at (failCount s) (ID p) <= int_at (failCount s) (ID q)).
Proof.
  split; [|split]; intros H.
  - apply (sorted_head_schedule_min (λ s a, time_at (lastUsed s) (ID a))
             s proxies task now s' p H).
    intros s1 (_ & -> & _) q. done.
  - apply (sorted_head_schedule_min (λ s a, int_at (useCount s) (ID a))
             s proxies task now s' p H).
    intros s1 (_ & _ & -> & _) q. done.
  - apply (sorted_head_schedule_min (λ s a, int_at (failCount s) (ID a))
             s proxies task now s' p H).
    intros s1 (_ & _ & _ & -> & _) q. done.
Qed.

End SortContract.

Lemma merge_sort_Slice_sorted A (key : A → Z) (l : list A) :
  StronglySorted (λ x y, key x <= key y)
                 (merge_sort_Slice A (λ a b, bool_decide (key a < key b)) l).
Proof.
  unfold merge_sort_Slice.
  set (R := λ x y : A, Is_true (negb (bool_decide (key y < key x)))).
  assert (HR : ∀ x y, R x y ↔ key x <= key y).
  { intros x y. unfold R. rewrite negb_True, bool_decide_spec. lia. }
  assert (Htrans : Transitive R).
  { intros x y z. rewrite !HR. lia. }
  assert (Htotal : Total R).
  { intros x y. rewrite !HR. lia. }
  pose proof (StronglySorted_merge_sort R l) as Hs.
  induction Hs as [|x l' Hs IH Hall]; constructor; [done|].
  eapply Forall_impl; [exact Hall|]. intros y. by rewrite HR.
Qed.

Lemma dispatch_outcome_witness :
  ∃ s' sel,
    dispatch merge_sort_Slice NewProxyScheduler [proxy_a; proxy_b]
      (task_of StrategyLeastUsed "") (30 * Second) (mkRand 0.5 7) = Returns (s', sel)
    ∧ mu s' = RWMutex_free
    ∧ match sel with
      | Selected p =>
          p ∈ [proxy_a; proxy_b]
          ∧ (isProxyQualified NewProxyScheduler p (task_of StrategyLeastUsed "")
               (30 * Second)).1 = true
      | Failed ErrNoProxyAvailable => [proxy_a; proxy_b] = []
      | Failed ErrNoQualifiedProxy =>
          [proxy_a; proxy_b] ≠ []
          ∧ ∀ p, p ∈ [proxy_a; proxy_b] →
                 (isProxyQualified NewProxyScheduler p (task_of StrategyLeastUsed "")
                    (30 * Second)).1 = false
      | Failed (ErrStore _) => False
      end.
Proof.
  apply (dispatch_selects_iff_a_candidate_qualifies merge_sort_Slice
           merge_sort_Slice_perm).
  - reflexivity.
  - left. vm_compute. discriminate.
Defined.

Lemma switch_under_read_lock_witness :
  let s0 := set_mu (mkRWMutex 1 false) NewProxyScheduler in
  let task := task_of StrategyLeastUsed "" in
  let result := dispatch merge_sort_Slice s0 [proxy_a; proxy_b] task
                  (30 * Second) (mkRand 0.5 7) in
  ([proxy_a; proxy_b] = [] → result = Returns (s0, Failed ErrNoProxyAvailable))
  ∧ ([proxy_a; proxy_b] ≠ [] →
     (∀ p, p ∈ [proxy_a; proxy_b] →
           (isProxyQualified NewProxyScheduler p task (30 * Second)).1 = false) →
     ∃ s', result = Returns (s', Failed ErrNoQualifiedProxy))
  ∧ ((∃ p, p ∈ [proxy_a; proxy_b]
           ∧ (isProxyQualified NewProxyScheduler p task (30 * Second)).1 = true) →
     result = Blocks).
Proof.
  apply (switch_under_read_lock_blocks_iff_a_candidate_qualifies merge_sort_Slice
           merge_sort_Slice_perm NewProxyScheduler (mkRWMutex 1 false)).
  - reflexivity.
  - left. vm_compute. discriminate.
Defined.

Lemma sorting_strategies_witness :
  ∃ s' p,
    leastUsedSchedule merge_sort_Slice (used_scheduler) [proxy_a; fresh_2]
      (task_of StrategyLeastUsed "") (30 * Second) = Returns (s', Selected p)
    ∧ ∀ q, q ∈ [proxy_a; fresh_2] →
           (isProxyQualified used_scheduler q (task_of StrategyLeastUsed "")
              (30 * Second)).1 = true →
           int_at (useCount used_scheduler) (ID p) <= int_at (useCount used_scheduler) (ID q).
Proof.
  destruct (leastUsedSchedule merge_sort_Slice used_scheduler [proxy_a; fresh_2]
              (task_of StrategyLeastUsed "") (30 * Second))
    as [[s' [p|err]]| |] eqn:E; [|vm_compute in E; discriminate..].
  exists s', p. split; [done|].
  exact (proj1 (proj2 (sorting_strategies_return_the_minimum merge_sort_Slice
                         merge_sort_Slice_perm merge_sort_Slice_sorted
                         used_scheduler [proxy_a; fresh_2]
                         (task_of StrategyLeastUsed "") (30 * Second) s' p)) E).
Defined.

(** ** Feedback: what a report does to later selections *)

Lemma Lock_Returns m m' : Lock m = Returns m' → m = RWMutex_free.
Proof.
  unfold Lock. destruct m as [n w]. simpl. destruct w; [done|].
  destruct n; [done|]. done.
Qed.

Lemma updateProxyStats_Returns s proxy success now s' :
  updateProxyStats s proxy success now = Returns s' → mu s = RWMutex_free.
Proof.
  unfold updateProxyStats. destruct (Lock (mu s)) as [m| |] eqn:E; [|done..].
  intros _. by eapply Lock_Returns.
Qed.




(** X18. A report for one proxy leaves every other proxy alone: the
    entries of the five runtime maps under any other id are unchanged, the
    row read from the table under any other id is unchanged, and the table
    holds the same keys in the same order. *)
Theorem ReportProxyStatus_leaves_other_proxies_alone
    s st id success speed now s' st' id' :
  ReportProxyStatus s st id success speed now = Returns (s', st') →
  id' ≠ id →
  lastUsed s' !! id' = lastUsed s !! id'
  ∧ useCount s' !! id' = useCount s !! id'
  ∧ failCount s' !! id' = failCount s !! id'
  ∧ weights s' !! id' = weights s !! id'
  ∧ cooldown s' !! id' = cooldown s !! id'
  ∧ db_First st' id' = db_First st id'
  ∧ row_id <$> rows st' = row_id <$> rows st.
Proof.
  unfold ReportProxyStatus. destruct (getProxyByID st id) as [proxy|] eqn:Hget.
  2: { intros [= <- <-] _. done. }
  pose proof (db_First_id _ _ _ Hget) as Hpid. subst id.
  destruct (updateProxyStats s proxy success now) as [s1| |] eqn:Hrun; [|done..].
  pose proof (updateProxyStats_Returns _ _ _ _ _ Hrun) as Hmu.
  destruct (updateProxyStats_free s proxy success now Hmu)
    as (s1' & Hrun' & _ & Hlast & Huc & Hw & Hok & Hko).
  rewrite Hrun in Hrun'. injection Hrun' as <-. simpl.
  intros Hret Hne.
  assert (Hmaps : lastUsed s1 !! id' = lastUsed s !! id'
                  ∧ useCount s1 !! id' = useCount s !! id'
                  ∧ failCount s1 !! id' = failCount s !! id'
                  ∧ weights s1 !! id' = weights s !! id'
                  ∧ cooldown s1 !! id' = cooldown s !! id').
  { rewrite Hlast, Huc, Hw, !lookup_insert_ne by done.
    destruct success.
    - destruct (Hok eq_refl) as [-> ->].
      by rewrite lookup_insert_ne, lookup_delete_ne by done.
    - destruct (Hko eq_refl) as [-> ->].
      rewrite lookup_insert_ne by done.
      destruct (bool_decide _); [by rewrite lookup_insert_ne by done|done]. }
  destruct success; simpl in Hret; injection Hret as <- <-.
  - destruct Hmaps as (? & ? & ? & ? & ?). done.
  - destruct Hmaps as (? & ? & ? & ? & ?). do 5 (split; [done|]).
    by rewrite UpdateProxyStatus_refused.
Qed.

Lemma ReportProxyStatus_frame_witness :
  ∃ s' st',
    ReportProxyStatus NewProxyScheduler earned_store 1 false 250 (30 * Second)
    = Returns (s', st')
    ∧ lastUsed s' !! 2%N = lastUsed NewProxyScheduler !! 2%N
    ∧ useCount s' !! 2%N = useCount NewProxyScheduler !! 2%N
    ∧ failCount s' !! 2%N = failCount NewProxyScheduler !! 2%N
    ∧ weights s' !! 2%N = weights NewProxyScheduler !! 2%N
    ∧ cooldown s' !! 2%N = cooldown NewProxyScheduler !! 2%N
    ∧ db_First st' 2 = db_First earned_store 2
    ∧ row_id <$> rows st' = row_id <$> rows earned_store.
Proof.
  destruct (ReportProxyStatus NewProxyScheduler earned_store 1 false 250 (30 * Second))
    as [[s' st']| |] eqn:E; [|vm_compute in E; discriminate..].
  exists s', st'. split; [done|].
  apply (ReportProxyStatus_leaves_other_proxies_alone NewProxyScheduler earned_store
           1%N false 250 (30 * Second) s' st' 2%N E).
  discriminate.
Defined.

(** X19. No report reaches the table.  A success report writes nothing; a
    failure report calls [UpdateProxyStatus], whose UPDATE names the column
    success_rate, is refused by the database, and whose error
    [ReportProxyStatus] drops.  So with the scheduler's lock free every
    report returns, and the table is the one it was given: a proxy that
    fails in use keeps its [available] flag and its speed in the table. *)
Theorem ReportProxyStatus_never_changes_the_table s st id success speed now :
  mu s = RWMutex_free →
  ∃ s', ReportProxyStatus s st id success speed now = Returns (s', st).
Proof.
  intros Hmu. unfold ReportProxyStatus.
  destruct (getProxyByID st id) as [proxy|]; [|by exists s].
  destruct (updateProxyStats_free s proxy success now Hmu) as (s' & -> & _).
  exists s'. simpl. destruct success; simpl; [done|].
  by rewrite UpdateProxyStatus_refused.
Qed.

Lemma ReportProxyStatus_table_witness :
  ∃ s', ReportProxyStatus NewProxyScheduler store_a 1 false 250 (30 * Second)
        = Returns (s', store_a).
Proof.
  apply (ReportProxyStatus_never_changes_the_table NewProxyScheduler store_a 1%N
           false 250 (30 * Second)).
  reflexivity.
Defined.

(** ** The helper [abs] and the comparison of the site-adaptive strategy *)

(** X20. The helper [abs] returns the absolute value of every [int]
    except the smallest one, where the negation wraps and the result is the
    negative number itself. *)
Theorem abs_is_the_absolute_value_except_at_min_int n :
  GoInt.in_range n →
  (n ≠ GoInt.min_int → abs n = Z.abs n)
  ∧ (n = GoInt.min_int → abs n = GoInt.min_int)
  ∧ (0 <= abs n ↔ n ≠ GoInt.min_int).
Proof.
  unfold GoInt.in_range, abs, GoInt.sub, GoInt.wrap64, GoInt.min_int, GoInt.max_int.
  intros Hn. destruct (decide (n < 0)).
  - destruct (decide (n = - 2 ^ 63)) as [->|Hne].
    + split; [done|]. split; [by vm_compute|]. split; [by vm_compute|done].
    + rewrite Z.mod_small by lia. split; [lia|]. split; [done|]. split; [done|lia].
  - split; [lia|]. split; [lia|]. split; [lia|lia].
Qed.

Lemma abs_witness :
  (-(5) ≠ GoInt.min_int → abs (-(5)) = Z.abs (-(5)))
  ∧ (-(5) = GoInt.min_int → abs (-(5)) = GoInt.min_int)
  ∧ (0 <= abs (-(5)) ↔ -(5) ≠ GoInt.min_int).
Proof.
  apply (abs_is_the_absolute_value_except_at_min_int (-(5))).
  vm_compute. split; discriminate.
Defined.

Lemma SFcompare_irrefl f : SFcompare f f ≠ Some Lt.
Proof.
  destruct f as [s|s| |s m e]; simpl; try done.
  - by destruct s.
  - rewrite Z.compare_refl, Pos.compare_cont_refl. by destruct s.
Qed.

Lemma float_ltb_irrefl x : (x <? x)%float = false.
Proof.
  rewrite ltb_spec. unfold SFltb.
  pose proof (SFcompare_irrefl (Prim2SF x)).
  by destruct (SFcompare (Prim2SF x) (Prim2SF x)) as [[]|].
Qed.

(** X21. The comparison that [siteAdaptiveSchedule] hands to
    [sort.Slice] is irreflexive but not transitive: with use counts 0, 2 and
    4 and scores 1, 2 and 3, the first candidate precedes the third (by use
    count), the third the second and the second the first (by score), while
    the third does not precede the first.  It is no strict weak order. *)
Theorem adaptive_less_is_irreflexive_but_cyclic :
  (∀ now a, adaptive_less now a a = false)
  ∧ ∃ now a b c,
      adaptive_less now a c = true
      ∧ adaptive_less now c b = true
      ∧ adaptive_less now b a = true
      ∧ adaptive_less now c a = false.
Proof.
  split.
  - intros now a. unfold adaptive_less.
    unfold GoInt.sub. rewrite Z.sub_diag. change (abs (GoInt.wrap64 0)) with 0.
    rewrite (bool_decide_eq_false_2 (2 < 0)) by lia.
    rewrite orb_diag. destruct (bool_decide (5 * Second < _)).
    + apply bool_decide_eq_false. lia.
    + apply float_ltb_irrefl.
  - exists (30 * Second), cand_0, cand_2, cand_4. by vm_compute.
Qed.

(** ** Ingestion: what the fetcher adds to the adapters *)

Lemma upsert_loop_keeps_endpoints st batch now st1 batch1 ip port :
  upsert_loop st batch now = Some (st1, batch1) →
  IsProxyExists st ip port = true → IsProxyExists st1 ip port = true.
Proof.
  intros Hloop (r & Hr & He)%IsProxyExists_true.
  destruct (upsert_loop_invariant _ _ _ _ _ Hloop) as (_ & (created & Hrows) & _).
  apply IsProxyExists_true. exists (refresh_all batch r). split.
  - rewrite Hrows. apply elem_of_app. left. by apply list_elem_of_fmap_2.
  - by rewrite same_endpoint_refresh_all.
Qed.

Lemma paid_FetchProxies_cover st fetched now st' res :
  paid_FetchProxies st fetched now = (st', res) →
  (∀ ip port, IsProxyExists st ip port = true → IsProxyExists st' ip port = true)
  ∧ ∀ proxies', res = Some proxies' →
      ∀ c, c ∈ proxies' → IsProxyExists st' (IP c) (Port c) = true.
Proof.
  unfold paid_FetchProxies, SaveProxies. destruct fetched as [[|c0 batch0]|].
  - simpl. intros [= <- <-]. split; [done|].
    intros ? [= <-] c Hc. by apply elem_of_nil in Hc.
  - rewrite BatchCreate_nonempty.
    destruct (upsert_loop st (c0 :: batch0) now) as [[st1 b1]|] eqn:Hloop.
    + intros [= <- <-]. split.
      * intros ip port. by eapply upsert_loop_keeps_endpoints.
      * intros ? [= <-] c Hc.
        destruct (upsert_loop_invariant _ _ _ _ _ Hloop) as (Hview & _ & Hcover & _).
        assert (Hv : ingest_view c ∈ ingest_view <$> (c0 :: batch0)).
        { rewrite <- Hview. by apply list_elem_of_fmap_2. }
        apply list_elem_of_fmap in Hv as (c' & Heq & Hc').
        injection Heq as -> -> _ _ _ _ _. by apply Hcover.
    + intros [= <- <-]. split; [done|]. done.
  - intros [= <- <-]. split; [done|]. done.
Qed.

Section Ingestion.

Variable url_Parse : string → bool.

Lemma addProxies_all_stored cfg world all :
  ∀ st,
    (∀ c, c ∈ all → IsProxyExists st (IP c) (Port c) = true) →
    addProxies url_Parse cfg st all world = st.
Proof.
  induction all as [|c all IH]; intros st Hall; [done|].
  unfold addProxies. cbn [foldl]. unfold addProxy at 2.
  rewrite Hall by (apply elem_of_cons; by left). cbn [fst].
  apply IH. intros c' Hc'. apply Hall, elem_of_cons. by right.
Qed.

Lemma FetchPaidProxies_is_after_paid_adapters cfg st kuaidaili wandou world now :
  FetchPaidProxies url_Parse cfg st kuaidaili wandou world now
  = after_paid_adapters cfg st kuaidaili wandou now.
Proof.
  unfold FetchPaidProxies, after_paid_adapters.
  set (r1 := paid_FetchProxies st (Kuaidaili_fetchFromAPI kuaidaili) now).
  destruct (paid_FetchProxies_cover st (Kuaidaili_fetchFromAPI kuaidaili) now
              r1.1 r1.2) as [Hk1 Hc1]; [apply surjective_pairing|].
  set (first := if negb (bool_decide (KuaidailiURL cfg = ""))
                then match r1 with
                     | (st', Some proxies) => (st', proxies)
                     | (st', None) => (st', [])
                     end
                else (st, [])).
  set (st1 := if negb (bool_decide (KuaidailiURL cfg = "")) then r1.1 else st).
  assert (Hfirst : first.1 = st1
                   ∧ ∀ c, c ∈ first.2 → IsProxyExists st1 (IP c) (Port c) = true).
  { unfold first, st1. destruct (negb (bool_decide (KuaidailiURL cfg = ""))).
    - destruct r1 as [st' [ps|]]; simpl in *; split; try done.
      + by apply Hc1.
      + by intros c ?%elem_of_nil.
    - split; [done|]. by intros c ?%elem_of_nil. }
  destruct first as [st1' all1]. destruct Hfirst as [Hst1 Hall1].
  cbn [fst snd] in Hst1, Hall1. subst st1'. clearbody st1. clear Hk1 Hc1 r1.
  set (r2 := paid_FetchProxies st1 (Wandou_fetchFromAPI wandou) now).
  destruct (paid_FetchProxies_cover st1 (Wandou_fetchFromAPI wandou) now
              r2.1 r2.2) as [Hk2 Hc2]; [apply surjective_pairing|].
  set (second := if negb (bool_decide (WandouURL cfg = ""))
                 then match r2 with
                      | (st', Some proxies) => (st', all1 ++ proxies)
                      | (st', None) => (st', all1)
                      end
                 else (st1, all1)).
  set (st2 := if negb (bool_decide (WandouURL cfg = "")) then r2.1 else st1).
  assert (Hsecond : second.1 = st2
                    ∧ ∀ c, c ∈ second.2 → IsProxyExists st2 (IP c) (Port c) = true).
  { unfold second, st2. destruct (negb (bool_decide (WandouURL cfg = ""))).
    - destruct r2 as [st' [ps|]]; simpl in *; split; try done.
      + intros c [Hc|Hc]%elem_of_app; [by apply Hk2, Hall1|by apply (Hc2 ps eq_refl)].
      + intros c Hc. by apply Hk2, Hall1.
    - split; done. }
  destruct second as [st2' all2]. destruct Hsecond as [Hst2 Hall2].
  cbn [fst snd] in Hst2, Hall2. subst st2'.
  destruct all2 as [|c all2']; [done|].
  by apply addProxies_all_stored.
Qed.

End Ingestion.

(** X22. [FetchPaidProxies] never validates.  Both paid adapters save
    what they fetched before they return it, so [addProxy] finds every
    returned endpoint stored and skips it: the table [FetchPaidProxies]
    leaves is the table the adapters left, whatever the network and the
    clock present to the validator and whatever [url.Parse] answers. *)
Theorem FetchPaidProxies_never_validates url_Parse cfg st kuaidaili wandou world now :
  FetchPaidProxies url_Parse cfg st kuaidaili wandou world now
  = after_paid_adapters cfg st kuaidaili wandou now
  ∧ ∀ url_Parse' world',
      FetchPaidProxies url_Parse' cfg st kuaidaili wandou world' now
      = FetchPaidProxies url_Parse cfg st kuaidaili wandou world now.
Proof.
  split; [apply FetchPaidProxies_is_after_paid_adapters|].
  intros url_Parse' world'.
  by rewrite !FetchPaidProxies_is_after_paid_adapters.
Qed.

(** ** [addProxy] on a candidate that is not stored yet *)

Section AddProxy.

Variable url_Parse : string → bool.

Lemma insert_row_fresh st p now :
  ID p = 0%N →
  ∃ p', insert_row st p now
        = Some (mkStore (rows st ++ [p']) (lastID st + 1), p')
        ∧ ID p' = (lastID st + 1)%N
        ∧ Available p' = true
        ∧ IP p' = IP p ∧ Port p' = Port p ∧ FailCount p' = FailCount p
        ∧ Speed p' = Speed p ∧ LastCheck p' = LastCheck p.
Proof.
  intros Hid. unfold insert_row.
  set (q := create_values p now).
  assert (Hq : ID q = 0%N ∧ Available q = true ∧ IP q = IP p ∧ Port q = Port p
               ∧ FailCount q = FailCount p ∧ Speed q = Speed p
               ∧ LastCheck q = LastCheck p).
  { unfold q, create_values, apply_defaults.
    destruct (Available p) eqn:Hav; simpl;
      repeat (match goal with |- context [decide ?P] => destruct (decide P) end; simpl);
      by rewrite ?Hav. }
  destruct Hq as (Hq0 & Hq1 & Hq2 & Hq3 & Hq4 & Hq5 & Hq6).
  cbv zeta. destruct (decide (ID q = 0%N)); [|done].
  eexists. split; [reflexivity|]. by repeat split.
Qed.

Lemma db_Create_duplicate st p now :
  ID p ≠ 0%N → existsb (has_id (ID p)) (rows st) = true → db_Create st p now = None.
Proof.
  intros Hid Hex. unfold db_Create, insert_row.
  destruct (create_values_keys (BeforeCreate now p) now) as (Hq & _).
  destruct (BeforeCreate_keys now p) as (Hb & _).
  cbv zeta. rewrite Hq, Hb. destruct (decide (ID p = 0%N)); [done|].
  by rewrite Hex.
Qed.

(** The struct a refused [db.Create] leaves behind: same key and endpoint,
    [LastCheck] at the instant of the refused call. *)
Lemma db_Create_refused_fields p now :
  ID (db_Create_refused p now) = ID p
  ∧ IP (db_Create_refused p now) = IP p
  ∧ Port (db_Create_refused p now) = Port p
  ∧ Available (db_Create_refused p now) = true
  ∧ LastCheck (db_Create_refused p now) = now.
Proof.
  unfold db_Create_refused, create_values, apply_defaults, BeforeCreate.
  destruct (Available p) eqn:Hav; simpl;
    repeat (match goal with |- context [decide ?P] => destruct (decide P) end; simpl);
    by rewrite ?Hav.
Qed.

Lemma existsb_app_last (f : Row → bool) rs r :
  f r = true → existsb f (rs ++ [r]) = true.
Proof. intros H. rewrite existsb_app. simpl. rewrite H. by rewrite orb_true_r. Qed.

(** X23. [addProxy] on a new candidate (zero primary key, zero fail
    count, endpoint not stored, proxy URL well formed) whose validation
    succeeds, or fails under a [MaxFailCount] above 1: [ValidateProxy] has
    already inserted the row through [db.Save], so the [db.Create] of
    [addProxy] hits the primary key and [addProxy] returns an error.  The
    table holds exactly one row for the endpoint, marked available, whose
    [LastCheck] is the instant of the INSERT; the struct [addProxy] leaves
    behind has the key and endpoint of that row, but the hook of the refused
    [db.Create] has moved its [LastCheck] to the instant of that call. *)
Theorem addProxy_stores_once_and_reports_failure cfg st proxy w :
  ID proxy = 0%N →
  FailCount proxy = 0 →
  IsProxyExists st (IP proxy) (Port proxy) = false →
  url_Parse (proxyURL proxy) = true →
  (∃ u, u ∈ testURLs (NewProxyValidator (MaxFailCount cfg))
        ∧ is_200 (probe_get w u) = true)
  ∨ 1 < MaxFailCount cfg →
  let r := addProxy url_Parse cfg st proxy w in
  r.2 = false
  ∧ (∃ stored,
       rows r.1.1 = rows st ++ [stored]
       ∧ ID stored = (lastID st + 1)%N
       ∧ IP stored = IP proxy ∧ Port stored = Port proxy
       ∧ Available stored = true
       ∧ LastCheck stored = t_store (probe_clock w)
       ∧ r.1.2 = db_Create_refused stored (probe_t_create w))
  ∧ ID r.1.2 = (lastID st + 1)%N
  ∧ IP r.1.2 = IP proxy ∧ Port r.1.2 = Port proxy
  ∧ Available r.1.2 = true
  ∧ LastCheck r.1.2 = probe_t_create w
  ∧ endpoint_count r.1.1 (IP proxy) (Port proxy) = 1%nat.
Proof.
  intros Hid Hfc Hnew Hurl Hcase. unfold addProxy. rewrite Hnew.
  unfold ValidateProxy. rewrite Hurl. cbn [negb].
  set (success := (probe_loop (probe_get w)
                     (testURLs (NewProxyValidator (MaxFailCount cfg)))).1).
  set (ms := Milliseconds _).
  assert (Hsaved : ∀ q, ID q = 0%N → IP q = IP proxy → Port q = Port proxy →
            ∃ st1 p1,
              db_Save st q (t_store (probe_clock w)) = (st1, p1)
              ∧ rows st1 = rows st ++ [p1]
              ∧ ID p1 = (lastID st + 1)%N ∧ IP p1 = IP proxy ∧ Port p1 = Port proxy
              ∧ Available p1 = true
              ∧ LastCheck p1 = t_store (probe_clock w)
              ∧ db_Create st1 p1 (probe_t_create w) = None).
  { intros q Hq Hip Hport. unfold db_Save, db_Create.
    destruct (decide (ID q = 0%N)); [|done].
    destruct (insert_row_fresh st (BeforeCreate (t_store (probe_clock w)) q)
                (t_store (probe_clock w)))
      as (p1 & -> & Hp1 & Hav & Hip1 & Hport1 & _ & _ & Hlc).
    { unfold BeforeCreate. by destruct (decide _). }
    eexists _, p1. split; [reflexivity|]. cbn [rows].
    split; [done|]. split; [done|].
    split; [rewrite Hip1, <- Hip; unfold BeforeCreate; by destruct (decide _)|].
    split; [rewrite Hport1, <- Hport; unfold BeforeCreate; by destruct (decide _)|].
    split; [done|]. split; [by rewrite Hlc|].
    apply db_Create_duplicate; [rewrite Hp1; lia|].
    cbn [rows]. apply existsb_app_last. unfold has_id, row_id.
    by apply bool_decide_eq_true. }
  assert (Hcount : ∀ st1 p1,
            rows st1 = rows st ++ [p1] →
            IP p1 = IP proxy → Port p1 = Port proxy →
            endpoint_count st1 (IP proxy) (Port proxy) = 1%nat).
  { intros st1 p1 Hrows Hip Hport. unfold endpoint_count.
    rewrite Hrows, List.filter_app, length_app.
    rewrite filter_none_length.
    - cbn [List.filter]. unfold same_endpoint.
      by rewrite !bool_decide_eq_true_2.
    - exact Hnew. }
  assert (Hend : ∀ st1 p1,
            rows st1 = rows st ++ [p1] →
            ID p1 = (lastID st + 1)%N → IP p1 = IP proxy → Port p1 = Port proxy →
            Available p1 = true → LastCheck p1 = t_store (probe_clock w) →
            let r := (st1, db_Create_refused p1 (probe_t_create w), false) in
            r.2 = false
            ∧ (∃ stored,
                 rows r.1.1 = rows st ++ [stored]
                 ∧ ID stored = (lastID st + 1)%N
                 ∧ IP stored = IP proxy ∧ Port stored = Port proxy
                 ∧ Available stored = true
                 ∧ LastCheck stored = t_store (probe_clock w)
                 ∧ r.1.2 = db_Create_refused stored (probe_t_create w))
            ∧ ID r.1.2 = (lastID st + 1)%N
            ∧ IP r.1.2 = IP proxy ∧ Port r.1.2 = Port proxy
            ∧ Available r.1.2 = true
            ∧ LastCheck r.1.2 = probe_t_create w
            ∧ endpoint_count r.1.1 (IP proxy) (Port proxy) = 1%nat).
  { intros st1 p1 Hrows Hp1 Hip Hport Hav Hlc. cbn [fst snd].
    destruct (db_Create_refused_fields p1 (probe_t_create w))
      as (H1 & H2 & H3 & H4 & H5).
    split; [done|]. split; [by exists p1|].
    split; [congruence|]. split; [congruence|]. split; [congruence|].
    split; [done|]. split; [done|]. by eapply Hcount. }
  destruct success eqn:Hs.
  - destruct (Hsaved (set_FailCount 0 (set_Available true (set_Speed ms
                        (set_LastCheck (t_check (probe_clock w)) proxy)))))
      as (st1 & p1 & Hsave & Hrows & Hp1 & Hip & Hport & Hav & Hlc & Hdup); [done..|].
    cbv zeta. rewrite Hsave. cbn [negb]. rewrite Hav. cbn [negb]. rewrite Hdup.
    by apply Hend.
  - destruct Hcase as [Hok|Hmax].
    { apply (probe_loop_spec (probe_get w)) in Hok. fold success in Hok. congruence. }
    cbv zeta. cbn [FailCount set_FailCount set_Available set_Speed set_LastCheck].
    rewrite Hfc. change (GoInt.incr 0) with 1.
    change (maxFailCount (NewProxyValidator (MaxFailCount cfg))) with (MaxFailCount cfg).
    destruct (decide (MaxFailCount cfg <= 1)); [lia|].
    match goal with |- context [db_Save st ?q _] =>
      destruct (Hsaved q)
        as (st1 & p1 & Hsave & Hrows & Hp1 & Hip & Hport & Hav & Hlc & Hdup);
        [done..|] end.
    rewrite Hsave. cbn [negb]. rewrite Hav. cbn [negb]. rewrite Hdup.
    by apply Hend.
Qed.

End AddProxy.

Lemma addProxy_witness :
  let r := addProxy (λ _, true) paid_config empty_store fresh_candidate
             (dead_world fresh_candidate) in
  r.2 = false
  ∧ (∃ stored,
       rows r.1.1 = rows empty_store ++ [stored]
       ∧ ID stored = (lastID empty_store + 1)%N
       ∧ IP stored = IP fresh_candidate ∧ Port stored = Port fresh_candidate
       ∧ Available stored = true
       ∧ LastCheck stored = t_store (probe_clock (dead_world fresh_candidate))
       ∧ r.1.2 = db_Create_refused stored (probe_t_create (dead_world fresh_candidate)))
  ∧ ID r.1.2 = (lastID empty_store + 1)%N
  ∧ IP r.1.2 = IP fresh_candidate ∧ Port r.1.2 = Port fresh_candidate
  ∧ Available r.1.2 = true
  ∧ LastCheck r.1.2 = probe_t_create (dead_world fresh_candidate)
  ∧ endpoint_count r.1.1 (IP fresh_candidate) (Port fresh_candidate) = 1%nat.
Proof.
  apply (addProxy_stores_once_and_reports_failure (λ _, true) paid_config empty_store
           fresh_candidate (dead_world fresh_candidate)).
  - reflexivity.
  - reflexivity.
  - reflexivity.
  - reflexivity.
  - right. vm_compute. reflexivity.
Defined.

(** The instants of the scenario: the row keeps the reading of the INSERT
    (122 ms), the struct that [addProxy] leaves carries the reading of the
    refused [db.Create] (123 ms). *)
Example addProxy_two_instants :
  let r := addProxy (λ _, true) paid_config empty_store fresh_candidate
             (dead_world fresh_candidate) in
  LastCheck <$> rows r.1.1 = [122 * Millisecond]
  ∧ LastCheck r.1.2 = 123 * Millisecond.
Proof. by vm_compute. Qed.

(** ** [ValidateAll]: the order of the workers does not matter *)

Section ValidateAllFacts.

Variable url_Parse : string → bool.
Variable v : ProxyValidator.
Variable world : Proxy → (string → Response) * Clock.

Local Abbreviation step := (validate_step url_Parse v world).
Local Abbreviation act := (row_effect url_Parse v world).
Local Abbreviation acts := (rows_effect url_Parse v world).

Lemma omap_id_filter (f : Row → bool) (rs : list Row) :
  omap (λ r, if f r then None else Some r) rs = List.filter (λ r, negb (f r)) rs.
Proof.
  induction rs as [|r rs IH]; [done|]. csimpl. cbn [List.filter].
  destruct (f r); csimpl; by rewrite IH.
Qed.

Lemma omap_fmap_id (f : Row → Row) (rs : list Row) :
  omap (λ r, Some (f r)) rs = f <$> rs.
Proof. induction rs as [|r rs IH]; [done|]. csimpl. by rewrite IH. Qed.

Lemma omap_Some (rs : list Row) : omap Some rs = rs.
Proof. induction rs as [|r rs IH]; [done|]. csimpl. by rewrite IH. Qed.

Lemma omap_pointwise (f g : Row → option Row) (rs : list Row) :
  (∀ r, f r = g r) → omap f rs = omap g rs.
Proof.
  intros H. induction rs as [|r rs IH]; [done|]. csimpl. by rewrite H, IH.
Qed.

Lemma verdict_ID p get clk p' :
  verdict url_Parse v p get clk = Write p' → ID p' = ID p.
Proof.
  unfold verdict. destruct (negb _); [done|]. cbv zeta.
  destruct (probe_loop _ _).1; [by intros [= <-]|].
  destruct (decide _); [done|]. by intros [= <-].
Qed.

Lemma step_shape st p :
  ID p ≠ 0%N → existsb (has_id (ID p)) (rows st) = true →
  step st p = with_rows st (omap (act p) (rows st)).
Proof.
  intros Hid Hex. unfold validate_step, row_effect, ValidateProxy, verdict, apply_verdict.
  destruct (negb (url_Parse (proxyURL p))).
  { cbn [fst]. rewrite (omap_pointwise _ Some), omap_Some.
    - by rewrite with_rows_same.
    - intros r. by destruct (has_id (ID p) r). }
  cbv zeta. destruct (probe_loop (world p).1 (testURLs v)).1.
  - match goal with |- context [db_Save st ?q ?t] =>
      destruct (db_First_Save_present st q t Hid Hex) as [-> _] end.
    cbn [fst]. f_equal. rewrite <- omap_fmap_id. apply omap_pointwise.
    intros r. unfold write_struct.
    cbn [ID set_FailCount set_Available set_Speed set_LastCheck].
    by destruct (has_id (ID p) r).
  - cbn [FailCount set_FailCount set_Available set_Speed set_LastCheck].
    destruct (decide (maxFailCount v <= GoInt.incr (FailCount p))).
    + cbn [fst]. unfold db_Delete.
      cbn [ID set_FailCount set_Available set_Speed set_LastCheck].
      destruct (decide (ID p = 0%N)); [done|]. f_equal.
      rewrite <- omap_id_filter. apply omap_pointwise.
      intros r. by destruct (has_id (ID p) r).
    + match goal with |- context [db_Save st ?q ?t] =>
        destruct (db_First_Save_present st q t Hid Hex) as [-> _] end.
      cbn [fst]. f_equal. rewrite <- omap_fmap_id. apply omap_pointwise.
      intros r. unfold write_struct.
      cbn [ID set_FailCount set_Available set_Speed set_LastCheck].
      by destruct (has_id (ID p) r).
Qed.

Lemma act_id p r r' : act p r = Some r' → row_id r' = row_id r.
Proof.
  unfold row_effect, apply_verdict. destruct (has_id (ID p) r) eqn:E; [|by intros [= <-]].
  apply bool_decide_eq_true in E.
  destruct (verdict url_Parse v p (world p).1 (world p).2) as [|p'|] eqn:Hv.
  - by intros [= <-].
  - intros [= <-]. apply verdict_ID in Hv. unfold row_id at 1. simpl. congruence.
  - done.
Qed.

Lemma act_other p r : row_id r ≠ ID p → act p r = Some r.
Proof.
  intros Hne. unfold row_effect, apply_verdict, has_id.
  by rewrite bool_decide_eq_false_2.
Qed.

Lemma foldl_bind_None (l : list Proxy) :
  foldl (λ o p, o ≫= act p) None l = None.
Proof. induction l as [|p l IH]; [done|]. done. Qed.

Lemma acts_cons p l r : acts (p :: l) r = act p r ≫= acts l.
Proof.
  unfold rows_effect. cbn [foldl]. simpl. destruct (act p r) as [r'|]; [done|].
  apply foldl_bind_None.
Qed.

Lemma omap_omap (f g : Row → option Row) (rs : list Row) :
  omap g (omap f rs) = omap (λ r, f r ≫= g) rs.
Proof.
  induction rs as [|r rs IH]; [done|]. csimpl.
  destruct (f r) as [r'|]; csimpl; by rewrite IH.
Qed.

Lemma existsb_has_id id (rs : list Row) :
  existsb (has_id id) rs = true ↔ ∃ r, r ∈ rs ∧ row_id r = id.
Proof.
  rewrite existsb_exists. split.
  - intros (r & Hr & E). apply bool_decide_eq_true in E.
    exists r. split; [by apply list_elem_of_In|done].
  - intros (r & Hr & E). exists r. split; [by apply list_elem_of_In|].
    by apply bool_decide_eq_true.
Qed.

Lemma fold_shape l :
  ∀ st,
    NoDup (ID <$> l) →
    (∀ p, p ∈ l → ID p ≠ 0%N ∧ existsb (has_id (ID p)) (rows st) = true) →
    foldl step st l = with_rows st (omap (acts l) (rows st)).
Proof.
  induction l as [|p l IH]; intros st Hnd Hin.
  - simpl. by rewrite omap_Some, with_rows_same.
  - rewrite fmap_cons in Hnd. apply NoDup_cons in Hnd as [Hp Hnd].
    destruct (Hin p) as [Hid Hex]; [apply elem_of_cons; by left|].
    cbn [foldl]. rewrite (step_shape st p Hid Hex).
    rewrite IH; [|done|].
    + unfold with_rows. cbn [rows lastID].
      rewrite omap_omap. f_equal. apply omap_pointwise.
      intros r. by rewrite acts_cons.
    + intros q Hq. destruct (Hin q) as [Hqid Hqex]; [apply elem_of_cons; by right|].
      split; [done|]. cbn [rows with_rows].
      apply existsb_has_id in Hqex as (r & Hr & Hrid).
      apply existsb_has_id. exists r. split; [|done].
      apply list_elem_of_omap. exists r. split; [done|].
      apply act_other. rewrite Hrid. intros Heq. apply Hp.
      rewrite <- Heq. by apply list_elem_of_fmap_2.
Qed.

Lemma acts_None_id l r :
  row_id r ∉ ID <$> l → acts l r = Some r.
Proof.
  revert r. induction l as [|p l IH]; intros r Hr; [done|].
  rewrite fmap_cons in Hr. apply not_elem_of_cons in Hr as [Hp Hl].
  rewrite acts_cons, act_other by done. simpl. by apply IH.
Qed.

Lemma acts_elem l r p :
  NoDup (ID <$> l) → p ∈ l → ID p = row_id r → acts l r = act p r.
Proof.
  induction l as [|q l IH]; intros Hnd Hp Hid; [by apply elem_of_nil in Hp|].
  rewrite fmap_cons in Hnd. apply NoDup_cons in Hnd as [Hq Hnd].
  rewrite acts_cons. apply elem_of_cons in Hp as [->|Hp].
  - destruct (act q r) as [r'|] eqn:E; [|done]. simpl.
    apply acts_None_id. apply act_id in E. by rewrite E, <- Hid.
  - rewrite act_other.
    + simpl. by apply IH.
    + rewrite <- Hid. intros Heq. apply Hq. rewrite <- Heq.
      by apply list_elem_of_fmap_2.
Qed.

Lemma acts_perm l l' r :
  NoDup (ID <$> l) → l ≡ₚ l' → acts l r = acts l' r.
Proof.
  intros Hnd Hperm.
  assert (Hnd' : NoDup (ID <$> l')) by (by rewrite <- Hperm).
  destruct (decide (row_id r ∈ ID <$> l)) as [Hin|Hout].
  - apply list_elem_of_fmap in Hin as (p & Hid & Hp).
    rewrite (acts_elem l r p), (acts_elem l' r p); try done.
    by rewrite <- Hperm.
  - rewrite !acts_None_id; [done| |done]. by rewrite <- Hperm.
Qed.

Lemma acts_id l r r' : acts l r = Some r' → row_id r' = row_id r.
Proof.
  revert r. induction l as [|p l IH]; intros r; [by intros [= <-]|].
  rewrite acts_cons. destruct (act p r) as [r1|] eqn:E; [|done]. simpl.
  intros H. apply IH in H. apply act_id in E. congruence.
Qed.

Lemma find_omap (g : Row → option Row) (rs : list Row) r :
  (∀ x y, g x = Some y → row_id y = row_id x) →
  NoDup (row_id <$> rs) → r ∈ rs →
  List.find (has_id (row_id r)) (omap g rs) = g r.
Proof.
  intros Hg. induction rs as [|x rs IH]; [by intros _ ?%elem_of_nil|].
  rewrite fmap_cons. intros [Hx Hnd]%NoDup_cons Hr. csimpl.
  apply elem_of_cons in Hr as [->|Hr].
  - destruct (g x) as [y|] eqn:E.
    + cbn [List.find]. unfold has_id. rewrite (Hg _ _ E).
      by rewrite bool_decide_eq_true_2.
    + destruct (List.find _ (omap g rs)) as [z|] eqn:Ez; [|done].
      exfalso. apply find_some in Ez as [Hz Eid].
      apply bool_decide_eq_true in Eid.
      apply list_elem_of_In, list_elem_of_omap in Hz as (z0 & Hz0 & Egz).
      apply Hx. rewrite <- Eid, (Hg _ _ Egz). by apply list_elem_of_fmap_2.
  - assert (Hne : row_id x ≠ row_id r).
    { intros Heq. apply Hx. rewrite Heq. by apply list_elem_of_fmap_2. }
    destruct (g x) as [y|] eqn:E; [|by apply IH].
    cbn [List.find]. unfold has_id at 1. rewrite (Hg _ _ E).
    rewrite bool_decide_eq_false_2 by done. by apply IH.
Qed.

Lemma omap_ids_sublist (g : Row → option Row) (rs : list Row) :
  (∀ x y, g x = Some y → row_id y = row_id x) →
  row_id <$> omap g rs `sublist_of` row_id <$> rs.
Proof.
  intros Hg. induction rs as [|x rs IH]; [done|]. csimpl.
  destruct (g x) as [y|] eqn:E; csimpl.
  - rewrite (Hg _ _ E). by apply sublist_skip.
  - by apply sublist_cons.
Qed.

Lemma ValidateAll_shape st schedule :
  primary_key (rows st) →
  0 < maxWorkers v →
  schedule ≡ₚ db_Find st →
  ValidateAll url_Parse v st schedule world
  = with_rows st (omap (acts schedule) (rows st)).
Proof.
  intros [Hnd Hnz] Hw Hperm. unfold ValidateAll.
  destruct (decide (Z.of_nat (length (db_Find st)) = 0)) as [Hz|Hz].
  { assert (Hnil : db_Find st = []) by (apply nil_length_inv; lia).
    rewrite Hnil in Hperm. apply Permutation_nil_r in Hperm. subst schedule.
    rewrite (omap_pointwise (acts []) Some) by done.
    by rewrite omap_Some, with_rows_same. }
  cbv zeta. destruct (decide (_ <= 0)) as [Hle|_].
  { destruct (decide (_ < _)); lia. }
  apply (fold_shape schedule st).
  - rewrite Hperm. exact Hnd.
  - intros p Hp. rewrite Hperm in Hp. unfold db_Find in Hp.
    split; [by apply Hnz|]. apply existsb_has_id. by exists p.
Qed.

End ValidateAllFacts.

(** X24. [ValidateAll] does not depend on the order in which its workers
    reach the table.  On a table with a primary key and with at least one
    worker, every order of the loaded structs leaves the same table; each
    row ends as if its struct alone had been validated on the original
    table; no key is added or moved; and the auto-increment counter is
    untouched. *)
Theorem ValidateAll_does_not_depend_on_the_schedule url_Parse v world st schedule :
  primary_key (rows st) →
  0 < maxWorkers v →
  schedule ≡ₚ db_Find st →
  let st' := ValidateAll url_Parse v st schedule world in
  (∀ schedule', schedule' ≡ₚ db_Find st →
      ValidateAll url_Parse v st schedule' world = st')
  ∧ (∀ r, r ∈ rows st →
       db_First st' (row_id r)
       = db_First (ValidateProxy url_Parse v st r
                     (world r).1 (world r).2).1.1 (row_id r))
  ∧ row_id <$> rows st' `sublist_of` row_id <$> rows st
  ∧ lastID st' = lastID st.
Proof.
  intros Hpk Hw Hperm st'. subst st'.
  rewrite (ValidateAll_shape url_Parse v world st schedule Hpk Hw Hperm).
  destruct Hpk as [Hnd Hnz].
  assert (Hids : ID <$> db_Find st = row_id <$> rows st) by done.
  assert (Hnds : NoDup (ID <$> schedule)) by (by rewrite Hperm, Hids).
  split; [|split; [|split]].
  - intros schedule' Hperm'.
    rewrite (ValidateAll_shape url_Parse v world st schedule'); [|done..].
    f_equal. apply omap_pointwise. intros r.
    apply acts_perm; [by rewrite Hperm', Hids|]. by rewrite Hperm, Hperm'.
  - intros r Hr.
    assert (Hex : existsb (has_id (ID r)) (rows st) = true).
    { apply existsb_has_id. by exists r. }
    change (ValidateProxy url_Parse v st r (world r).1
              (world r).2).1.1
      with (validate_step url_Parse v world st r).
    rewrite (step_shape url_Parse v world st r); [|by apply Hnz|done].
    unfold db_First. cbn [rows with_rows].
    rewrite !find_omap; try done.
    + f_equal. apply acts_elem; [done| |done].
      by rewrite Hperm.
    + apply act_id.
    + apply acts_id.
  - cbn [rows with_rows]. apply omap_ids_sublist, acts_id.
  - done.
Qed.

Lemma ValidateAll_witness :
  let st' := ValidateAll (λ _, true) (NewProxyValidator 3) earned_store
               (reverse (db_Find earned_store)) (λ _, round_down) in
  (∀ schedule', schedule' ≡ₚ db_Find earned_store →
      ValidateAll (λ _, true) (NewProxyValidator 3) earned_store schedule'
        (λ _, round_down) = st')
  ∧ (∀ r, r ∈ rows earned_store →
       db_First st' (row_id r)
       = db_First (ValidateProxy (λ _, true) (NewProxyValidator 3) earned_store
                     r round_down.1 round_down.2).1.1 (row_id r))
  ∧ row_id <$> rows st' `sublist_of` row_id <$> rows earned_store
  ∧ lastID st' = lastID earned_store.
Proof.
  apply (ValidateAll_does_not_depend_on_the_schedule (λ _, true) (NewProxyValidator 3)
           (λ _, round_down) earned_store (reverse (db_Find earned_store))).
  - apply primary_key_two; reflexivity.
  - reflexivity.
  - apply reverse_Permutation.
Defined.

(** ** The load balancer *)

Lemma AcquireProxy_at_limit p now :
  at_limit p = true → AcquireProxy p now = (p, false).
Proof. unfold at_limit, AcquireProxy. by intros ->. Qed.

Lemma AcquireProxy_below_limit p now :
  at_limit p = false → (AcquireProxy p now).2 = true.
Proof. unfold at_limit, AcquireProxy. by intros ->. Qed.

Section LoadBalancerFacts.

Variable order_by_score : list Row → list Row.
Hypothesis order_by_score_perm : ∀ rs, order_by_score rs ≡ₚ rs.

Lemma next_index cur n :
  0 <= cur < n → n <= GoInt.max_int →
  Z.rem (GoInt.add cur 1) n = (cur + 1) mod n
  ∧ 0 <= (cur + 1) mod n < n.
Proof.
  intros Hc Hn. unfold GoInt.add.
  rewrite wrap64_id by (unfold GoInt.in_range, GoInt.min_int, GoInt.max_int in *; lia).
  rewrite Z.rem_mod_nonneg by lia. split; [done|]. apply Z.mod_pos_bound. lia.
Qed.

(** The loop reaches the first proxy below its limit, going round from the
    entry after [currentIdx]. *)
Lemma GetProxy_loop_round_robin st startIdx clock (d : nat) :
  ∀ fuel k lb target,
    let n := Z.of_nat (length (proxyCache lb)) in
    0 <= currentIdx lb < n → n <= GoInt.max_int →
    (d < fuel)%nat →
    (∀ i p, (i < d)%nat →
            proxyCache lb !! Z.to_nat ((currentIdx lb + 1 + Z.of_nat i) mod n) = Some p →
            at_limit p = true
            ∧ (currentIdx lb + 1 + Z.of_nat i) mod n ≠ startIdx) →
    proxyCache lb !! Z.to_nat ((currentIdx lb + 1 + Z.of_nat d) mod n) = Some target →
    at_limit target = false →
    GetProxy_loop order_by_score fuel k lb st startIdx clock
    = Some (Returns
              (Some (AcquireProxy target (clock (k + d)%nat)).1,
               mkLoadBalancer (opts lb)
                 (<[Z.to_nat ((currentIdx lb + 1 + Z.of_nat d) mod n)
                    := (AcquireProxy target (clock (k + d)%nat)).1]> (proxyCache lb))
                 ((currentIdx lb + 1 + Z.of_nat d) mod n)
                 (lastRefresh lb))).
Proof.
  induction d as [|d IH]; intros fuel k lb target n Hcur Hn Hfuel Hbefore Htarget Hfree.
  - destruct fuel as [|fuel]; [lia|]. cbn [GetProxy_loop]. fold n.
    destruct (decide (n = 0)); [lia|].
    destruct (next_index _ _ Hcur Hn) as [Hidx Hrange].
    cbn [currentIdx set_currentIdx proxyCache]. rewrite Hidx.
    destruct (decide (_ < 0)); [lia|].
    rewrite Z.add_0_r in Htarget. rewrite Htarget.
    pose proof (AcquireProxy_below_limit target (clock k) Hfree) as Hok.
    rewrite Nat.add_0_r, Z.add_0_r.
    destruct (AcquireProxy target (clock k)) as [p' ok]. simpl in Hok. subst ok.
    done.
  - destruct fuel as [|fuel]; [lia|]. cbn [GetProxy_loop]. fold n.
    destruct (decide (n = 0)); [lia|].
    destruct (next_index _ _ Hcur Hn) as [Hidx Hrange].
    cbn [currentIdx set_currentIdx proxyCache]. rewrite Hidx.
    destruct (decide (_ < 0)); [lia|].
    assert (Hlt : (Z.to_nat ((currentIdx lb + 1) mod n) < length (proxyCache lb))%nat)
      by lia.
    destruct (lookup_lt_is_Some_2 _ _ Hlt) as [p Hp]. rewrite Hp.
    destruct (Hbefore 0%nat p) as [Hlim Hne]; [lia|by rewrite Z.add_0_r|].
    rewrite Z.add_0_r in Hne.
    rewrite (AcquireProxy_at_limit p (clock k) Hlim).
    destruct (decide (_ = startIdx)); [done|].
    set (lb1 := set_currentIdx ((currentIdx lb + 1) mod n) lb).
    assert (Hshift : ∀ i, (currentIdx lb1 + 1 + Z.of_nat i) mod n
                          = (currentIdx lb + 1 + Z.of_nat (S i)) mod n).
    { intros i. cbn [lb1 currentIdx set_currentIdx].
      rewrite Nat2Z.inj_succ.
      replace ((currentIdx lb + 1) mod n + 1 + Z.of_nat i)
        with ((currentIdx lb + 1) mod n + (1 + Z.of_nat i)) by lia.
      rewrite Zplus_mod_idemp_l. f_equal. lia. }
    rewrite (IH fuel (S k) lb1 target).
    + cbn [proxyCache lb1 set_currentIdx opts lastRefresh]. fold n.
      rewrite Hshift. by replace (S k + d)%nat with (k + S d)%nat by lia.
    + cbn [lb1 currentIdx set_currentIdx proxyCache]. fold n. lia.
    + done.
    + lia.
    + intros i q Hi. cbn [proxyCache lb1 set_currentIdx]. fold n. rewrite Hshift.
      intros Hq. apply (Hbefore (S i) q); [lia|done].
    + cbn [proxyCache lb1 set_currentIdx]. fold n. by rewrite Hshift.
    + done.
Qed.

Lemma lap_misses_start cur n i :
  0 <= cur < n → 0 <= i → 1 + i < n → (cur + 1 + i) mod n ≠ cur.
Proof.
  intros Hc Hi Hlt.
  destruct (decide (cur + 1 + i < n)).
  - rewrite Z.mod_small by lia. lia.
  - replace (cur + 1 + i) with ((cur + 1 + i - n) + 1 * n) by lia.
    rewrite Z.mod_add by lia. rewrite Z.mod_small by lia. lia.
Qed.

(** X25. [LoadBalancer.GetProxy] on a cache that is fresh and not empty
    goes round the cache from the entry after [currentIdx] and hands out the
    first proxy that [AcquireProxy] grants within one lap: the proxies
    before it are asked and refuse, the table is not read, and the balancer
    is left with [currentIdx] at the slot of that proxy and with the lease
    recorded in the cache entry.  The entry after [currentIdx] is asked
    first, the one at [currentIdx] last. *)
Theorem GetProxy_goes_round_to_the_first_free_proxy
    lb st t_entry clock (d fuel : nat) target :
  let n := Z.of_nat (length (proxyCache lb)) in
  let slot := (currentIdx lb + 1 + Z.of_nat d) mod n in
  Since t_entry (lastRefresh lb) <= 5 * Minute →
  0 <= currentIdx lb < n → n <= GoInt.max_int →
  Z.of_nat d < n → (d < fuel)%nat →
  (∀ i p, (i < d)%nat →
          proxyCache lb !! Z.to_nat ((currentIdx lb + 1 + Z.of_nat i) mod n) = Some p →
          at_limit p = true) →
  proxyCache lb !! Z.to_nat slot = Some target →
  at_limit target = false →
  lease_ok target →
  ∃ proxy,
    GetProxy order_by_score fuel lb st t_entry clock
    = Some (Returns
              (Some proxy,
               mkLoadBalancer (opts lb) (<[Z.to_nat slot := proxy]> (proxyCache lb))
                              slot (lastRefresh lb)))
    ∧ proxy = (AcquireProxy target (clock (1 + d)%nat)).1
    ∧ ConcurrentUse proxy = ConcurrentUse target + 1
    ∧ ConcurrentUse proxy <= MaxConcurrent proxy
    ∧ LastUsedAt proxy = clock (1 + d)%nat
    ∧ ID proxy = ID target.
Proof.
  intros n slot Hfresh Hcur Hn Hd Hfuel Hbefore Htarget Hfree [Hcu Hmax].
  subst n slot.
  exists (AcquireProxy target (clock (1 + d)%nat)).1.
  split; [|split; [done|]].
  - unfold GetProxy.
    rewrite (bool_decide_eq_false_2 (5 * Minute < _)) by lia.
    rewrite (bool_decide_eq_false_2 (length (proxyCache lb) = 0%nat)) by lia.
    cbn [orb]. destruct (proxyCache lb) as [|p0 cache0] eqn:Ecache.
    { simpl in Hcur. lia. }
    rewrite <- Ecache in *.
    apply (GetProxy_loop_round_robin st (currentIdx lb) clock d fuel 1 lb target);
      try done.
    intros i p Hi Hp. split; [by eapply Hbefore|].
    apply lap_misses_start; lia.
  - unfold at_limit in Hfree. apply orb_false_iff in Hfree as [Hav Hlim].
    apply negb_false_iff in Hav. apply bool_decide_eq_false in Hlim.
    unfold AcquireProxy. rewrite Hav, (bool_decide_eq_false_2 _ Hlim). cbn.
    rewrite incr_exact by (unfold GoInt.min_int, GoInt.max_int in *; lia).
    repeat split; try done. lia.
Qed.

Lemma GetProxy_loop_spins st startIdx clock :
  Z.of_nat (length (rows st)) < GoInt.max_int →
  ∀ fuel k lb,
    (∃ r, r ∈ rows st ∧ matches (opts lb) r = true) →
    (∀ r, r ∈ rows st → matches (opts lb) r = true → at_limit r = true) →
    proxyCache lb ≠ [] →
    (∀ p, p ∈ proxyCache lb → at_limit p = true) →
    0 <= currentIdx lb < GoInt.max_int →
    Z.of_nat (length (proxyCache lb)) < GoInt.max_int →
    GetProxy_loop order_by_score fuel k lb st startIdx clock = None.
Proof.
  intros Hst. induction fuel as [|fuel IH]; intros k lb Hsome Hall Hne Hcache Hcur Hlen;
    [done|].
  cbn [GetProxy_loop]. set (n := Z.of_nat (length (proxyCache lb))) in *.
  assert (Hn : 0 < n) by (destruct (proxyCache lb); [done|simpl in n; lia]).
  destruct (decide (n = 0)); [lia|].
  unfold GoInt.add.
  rewrite wrap64_id by (unfold GoInt.in_range, GoInt.min_int, GoInt.max_int in *; lia).
  rewrite Z.rem_mod_nonneg by lia.
  pose proof (Z.mod_pos_bound (currentIdx lb + 1) n Hn) as Hidx.
  cbn [currentIdx set_currentIdx proxyCache].
  destruct (decide (_ < 0)); [lia|].
  assert (Hlt : (Z.to_nat ((currentIdx lb + 1) mod n) < length (proxyCache lb))%nat)
    by lia.
  destruct (lookup_lt_is_Some_2 _ _ Hlt) as [p Hp]. rewrite Hp.
  rewrite (AcquireProxy_at_limit p (clock k))
    by (apply Hcache; by eapply list_elem_of_lookup_2).
  set (lb1 := set_currentIdx ((currentIdx lb + 1) mod n) lb).
  assert (Hnext : GetProxy_loop order_by_score fuel (S k) lb1 st startIdx clock = None).
  { apply IH; try done. cbn [lb1 currentIdx set_currentIdx]. lia. }
  destruct (decide (_ = startIdx)); [|exact Hnext].
  set (lb2 := refreshProxyCache order_by_score lb1 st (clock k)).
  assert (Hcache2 : ∀ q, q ∈ proxyCache lb2 → at_limit q = true).
  { intros q Hr. cbn [lb2 refreshProxyCache proxyCache] in Hr.
    rewrite order_by_score_perm in Hr.
    apply list_elem_of_In, filter_In in Hr as [Hr Hm].
    apply Hall; [by apply list_elem_of_In|done]. }
  assert (Hne2 : proxyCache lb2 ≠ []).
  { destruct Hsome as (r & Hr & Hm).
    assert (Hin : r ∈ proxyCache lb2).
    { cbn [lb2 refreshProxyCache proxyCache]. rewrite order_by_score_perm.
      apply list_elem_of_In, filter_In. split; [by apply list_elem_of_In|done]. }
    intros E. rewrite E in Hin. by apply elem_of_nil in Hin. }
  assert (Hlen2 : Z.of_nat (length (proxyCache lb2)) < GoInt.max_int).
  { cbn [lb2 refreshProxyCache proxyCache].
    rewrite order_by_score_perm.
    pose proof (filter_length_le (matches (opts lb1)) (rows st)). lia. }
  destruct (proxyCache lb2) as [|q0 cache2] eqn:E2; [done|]. rewrite <- E2 in *.
  apply IH; try done;
    cbn [lb2 refreshProxyCache currentIdx]; unfold GoInt.max_int; lia.
Qed.

(** X26. [LoadBalancer.GetProxy] does not return while every proxy is at
    its limit.  When the table, unchanged during the call, holds a row that
    matches the options, every matching row has
    [ConcurrentUse >= MaxConcurrent], and so has every cached proxy, then
    after any number of passes the loop is still running: each lap ends in a
    refresh that loads the same rows. *)
Theorem GetProxy_spins_when_every_proxy_is_at_its_limit lb st t_entry clock :
  Z.of_nat (length (rows st)) < GoInt.max_int →
  Z.of_nat (length (proxyCache lb)) < GoInt.max_int →
  0 <= currentIdx lb < GoInt.max_int →
  (∃ r, r ∈ rows st ∧ matches (opts lb) r = true) →
  (∀ r, r ∈ rows st → matches (opts lb) r = true →
        MaxConcurrent r <= ConcurrentUse r) →
  (∀ p, p ∈ proxyCache lb → at_limit p = true) →
  ∀ fuel, GetProxy order_by_score fuel lb st t_entry clock = None.
Proof.
  intros Hst Hlen Hcur Hsome Hall Hcache fuel.
  assert (Hall' : ∀ r, r ∈ rows st → matches (opts lb) r = true →
                       at_limit r = true).
  { intros r Hr Hm. unfold at_limit. rewrite (bool_decide_eq_true_2 _ (Hall r Hr Hm)).
    apply orb_true_r. }
  unfold GetProxy.
  set (stale := bool_decide _ || bool_decide _).
  set (lb2 := refreshProxyCache order_by_score lb st (clock 0%nat)).
  assert (Hcache2 : ∀ q, q ∈ proxyCache lb2 → at_limit q = true).
  { intros q Hr. cbn [lb2 refreshProxyCache proxyCache] in Hr.
    rewrite order_by_score_perm in Hr.
    apply list_elem_of_In, filter_In in Hr as [Hr Hm].
    apply Hall'; [by apply list_elem_of_In|done]. }
  assert (Hne2 : proxyCache lb2 ≠ []).
  { destruct Hsome as (r & Hr & Hm).
    assert (Hin : r ∈ proxyCache lb2).
    { cbn [lb2 refreshProxyCache proxyCache]. rewrite order_by_score_perm.
      apply list_elem_of_In, filter_In. split; [by apply list_elem_of_In|done]. }
    intros E. rewrite E in Hin. by apply elem_of_nil in Hin. }
  assert (Hlen2 : Z.of_nat (length (proxyCache lb2)) < GoInt.max_int).
  { cbn [lb2 refreshProxyCache proxyCache].
    rewrite order_by_score_perm.
    pose proof (filter_length_le (matches (opts lb)) (rows st)). lia. }
  destruct stale eqn:Es.
  - destruct (proxyCache lb2) as [|q0 cache2] eqn:E2; [done|]. rewrite <- E2 in *.
    apply (GetProxy_loop_spins st _ clock Hst); try done;
      cbn [lb2 refreshProxyCache currentIdx]; unfold GoInt.max_int; lia.
  - apply orb_false_iff in Es as [_ Hnonempty].
    apply bool_decide_eq_false in Hnonempty.
    destruct (proxyCache lb) as [|q0 cache1] eqn:E1; [done|]. rewrite <- E1 in *.
    apply (GetProxy_loop_spins st _ clock Hst); try done;
      intros E; by rewrite E in Hnonempty.
Qed.

End LoadBalancerFacts.

Lemma GetProxy_round_robin_witness :
  ∃ proxy,
    GetProxy (λ rs, rs) 5 two_slot_balancer empty_store (20 * Second)
             (λ _, 20 * Second)
    = Some (Returns
              (Some proxy,
               mkLoadBalancer (opts two_slot_balancer)
                 (<[1%nat := proxy]> (proxyCache two_slot_balancer)) 1
                 (lastRefresh two_slot_balancer)))
    ∧ proxy = (AcquireProxy leased_row (20 * Second)).1
    ∧ ConcurrentUse proxy = ConcurrentUse leased_row + 1
    ∧ ConcurrentUse proxy <= MaxConcurrent proxy
    ∧ LastUsedAt proxy = 20 * Second
    ∧ ID proxy = ID leased_row.
Proof.
  apply (GetProxy_goes_round_to_the_first_free_proxy (λ rs, rs) two_slot_balancer
           empty_store (20 * Second) (λ _, 20 * Second) 1 5 leased_row).
  - vm_compute. discriminate.
  - vm_compute. split; [discriminate | reflexivity].
  - vm_compute. discriminate.
  - reflexivity.
  - lia.
  - intros i p Hi. assert (i = 0%nat) as -> by lia. vm_compute.
    intros [= <-]. reflexivity.
  - reflexivity.
  - reflexivity.
  - vm_compute. repeat split; discriminate.
Defined.

Lemma GetProxy_spins_witness :
  GetProxy (λ rs, rs) 100 (NewLoadBalancer any_proxy) busy_store (20 * Second)
           (λ _, 20 * Second) = None.
Proof.
  apply (GetProxy_spins_when_every_proxy_is_at_its_limit (λ rs, rs) (λ rs, reflexivity _)
           (NewLoadBalancer any_proxy) busy_store (20 * Second) (λ _, 20 * Second)).
  - vm_compute. reflexivity.
  - vm_compute. reflexivity.
  - vm_compute. split; [discriminate | reflexivity].
  - exists busy_row. split; [|reflexivity].
    by apply list_elem_of_singleton.
  - intros r ->%list_elem_of_singleton _. vm_compute. discriminate.
  - intros p Hp. by apply elem_of_nil in Hp.
Defined.

(** ** What a selection records *)

Lemma hand_out_Returns s selected now s' sel :
  hand_out s selected now = Returns (s', sel) →
  sel = Selected selected
  ∧ mu s = RWMutex_free
  ∧ mu s' = RWMutex_free
  ∧ lastUsed s' = <[ID selected := now]> (lastUsed s)
  ∧ useCount s'
    = <[ID selected := GoInt.incr (int_at (useCount s) (ID selected))]> (useCount s)
  ∧ failCount s' = <[ID selected := 0]> (failCount s)
  ∧ cooldown s' = delete (ID selected) (cooldown s).
Proof.
  unfold hand_out.
  destruct (updateProxyStats s selected true now) as [s1| |] eqn:Hrun; [|done..].
  intros [= <- <-].
  assert (Hmu : mu s = RWMutex_free).
  { unfold updateProxyStats in Hrun.
    destruct (Lock (mu s)) as [m| |] eqn:E; [|done..]. by eapply Lock_Returns. }
  destruct (updateProxyStats_free s selected true now Hmu)
    as (s1' & Hrun' & Hmu1 & Hl & Hu & _ & Hok & _).
  rewrite Hrun in Hrun'. injection Hrun' as <-.
  destruct (Hok eq_refl) as [Hf Hc]. done.
Qed.

Section Records.

Variable sort_Slice : ∀ A : Type, (A → A → bool) → list A → list A.

Lemma defaultSchedule_hands_out s proxies task now rnd s' p :
  defaultSchedule s proxies task now rnd = Returns (s', Selected p) →
  ∃ s1, same_filter now s s1 ∧ hand_out s1 p now = Returns (s', Selected p).
Proof.
  unfold defaultSchedule. destruct proxies as [|p0 proxies0]; [done|].
  set (ps := p0 :: proxies0).
  destruct (qualified_candidates_spec now task ps s) as (Hsf & _ & _).
  destruct (qualified_candidates s ps task now) as [s1 cands].
  cbn [fst] in Hsf. destruct cands as [|c0 cands0]; [done|].
  destruct (_ !! _) as [sel|]; [|done].
  intros H. pose proof (hand_out_selected _ _ _ _ _ H) as [= <-]. eauto.
Qed.

Lemma sorted_head_schedule_hands_out less s proxies task now s' p :
  sorted_head_schedule sort_Slice less s proxies task now
  = Returns (s', Selected p) →
  ∃ s1, same_filter now s s1 ∧ hand_out s1 p now = Returns (s', Selected p).
Proof.
  unfold sorted_head_schedule. destruct proxies as [|p0 proxies0]; [done|].
  set (ps := p0 :: proxies0).
  destruct (qualified_candidates_spec now task ps s) as (Hsf & _ & _).
  destruct (qualified_candidates s ps task now) as [s1 cands].
  cbn [fst] in Hsf. destruct cands as [|c0 cands0]; [done|].
  destruct (sort_Slice _ _ _) as [|sel sorted]; [done|].
  intros H. pose proof (hand_out_selected _ _ _ _ _ H) as [= <-]. eauto.
Qed.

Lemma weightedSchedule_hands_out s proxies task now rnd s' p :
  weightedSchedule s proxies task now rnd = Returns (s', Selected p) →
  ∃ s1, same_filter now s s1 ∧ hand_out s1 p now = Returns (s', Selected p).
Proof.
  unfold weightedSchedule. destruct proxies as [|p0 proxies0]; [done|].
  set (ps := p0 :: proxies0).
  destruct (weighted_candidates_spec now task ps s) as (Hsf & _ & _).
  destruct (weighted_candidates s ps task now) as [[s1 cands] ws].
  cbn [fst] in Hsf. destruct cands as [|c0 cands0]; [done|].
  destruct (weighted_choice rnd _ ws) as [sel|]; [|done].
  intros H. pose proof (hand_out_selected _ _ _ _ _ H) as [= <-]. eauto.
Qed.

Lemma dispatch_hands_out s proxies task now rnd s' p :
  dispatch sort_Slice s proxies task now rnd = Returns (s', Selected p) →
  ∃ s1, same_filter now s s1 ∧ hand_out s1 p now = Returns (s', Selected p).
Proof.
  unfold dispatch.
  destruct (bool_decide (Strategy task = StrategySiteAdaptive)).
  { unfold siteAdaptiveSchedule.
    destruct (bool_decide (Domain task = "")); [apply defaultSchedule_hands_out|].
    destruct (_ <$> proxies) as [|c0 cs]; [done|].
    destruct (_ !! _) as [c|]; [|done].
    intros H. pose proof (hand_out_selected _ _ _ _ _ H) as [= ->].
    exists s. split; [apply same_filter_refl|done]. }
  destruct (bool_decide (Strategy task = StrategyWeighted));
    [apply weightedSchedule_hands_out|].
  destruct (bool_decide (Strategy task = StrategyRoundRobin));
    [apply sorted_head_schedule_hands_out|].
  destruct (bool_decide (Strategy task = StrategyLeastUsed));
    [apply sorted_head_schedule_hands_out|].
  destruct (bool_decide (Strategy task = StrategyFailover));
    [apply sorted_head_schedule_hands_out|].
  apply defaultSchedule_hands_out.
Qed.

(** X27. What a selection records.  Whenever a strategy returns a proxy,
    the lock was free on entry and is free again; the runtime maps hold
    [now] as the proxy's [lastUsed], one more in its [useCount] and 0 as its
    [failCount]; its cooldown entry is gone; and no other proxy has changed
    between cooling and not cooling. *)
Theorem dispatch_records_the_selection s proxies task now rnd s' p :
  dispatch sort_Slice s proxies task now rnd = Returns (s', Selected p) →
  mu s = RWMutex_free ∧ mu s' = RWMutex_free
  ∧ lastUsed s' = <[ID p := now]> (lastUsed s)
  ∧ useCount s' = <[ID p := GoInt.incr (int_at (useCount s) (ID p))]> (useCount s)
  ∧ failCount s' = <[ID p := 0]> (failCount s)
  ∧ cooldown s' !! ID p = None
  ∧ (∀ id, id ≠ ID p → cooling s' id now = cooling s id now).
Proof.
  intros H. apply dispatch_hands_out in H as (s1 & (Hmu & Hl & Hu & Hf & Hc) & H).
  apply hand_out_Returns in H as (_ & Hmu1 & Hmu' & Hl' & Hu' & Hf' & Hc').
  rewrite Hl', Hu', Hf', Hc', Hl, Hu, Hf, lookup_delete_eq.
  split; [congruence|]. do 5 (split; [done|]).
  intros id Hne. rewrite <- Hc. unfold cooling. rewrite Hc'.
  by rewrite lookup_delete_ne.
Qed.

End Records.

Section Fairness.

Variable sort_Slice : ∀ A : Type, (A → A → bool) → list A → list A.
Hypothesis sort_Slice_perm : ∀ A less (l : list A), sort_Slice A less l ≡ₚ l.
Hypothesis sort_Slice_sorted :
  ∀ A (key : A → Z) (l : list A),
    StronglySorted (λ x y, key x <= key y)
                   (sort_Slice A (λ a b, bool_decide (key a < key b)) l).

(** X28. Round robin takes turns.  With [sort.Slice] meeting its contract:
    after [roundRobinSchedule] has returned a proxy at instant [now], the
    next call does not return it again as long as the slice holds another
    proxy that qualifies and was last used before [now]; the proxy it
    returns was last used no later than that one. *)
Theorem roundRobinSchedule_takes_turns s proxies task now now' s1 p s2 p' q :
  roundRobinSchedule sort_Slice s proxies task now = Returns (s1, Selected p) →
  roundRobinSchedule sort_Slice s1 proxies task now' = Returns (s2, Selected p') →
  q ∈ proxies →
  (isProxyQualified s1 q task now').1 = true →
  time_at (lastUsed s) (ID q) < now →
  ID q ≠ ID p →
  ID p' ≠ ID p
  ∧ time_at (lastUsed s) (ID p') <= time_at (lastUsed s) (ID q).
Proof.
  intros H1 H2 Hq Hqual Hearlier Hne.
  assert (Hrec : lastUsed s1 = <[ID p := now]> (lastUsed s)).
  { apply sorted_head_schedule_hands_out in H1 as (s0 & (_ & Hl & _) & H1).
    apply hand_out_Returns in H1 as (_ & _ & _ & Hl' & _). by rewrite Hl', Hl. }
  pose proof (sorted_head_schedule_min sort_Slice sort_Slice_perm sort_Slice_sorted
                (λ s a, time_at (lastUsed s) (ID a)) s1 proxies task now' s2 p' H2)
    as Hmin.
  specialize (Hmin (λ s3 Hsf q0, ltac:(by destruct Hsf as (_ & -> & _))) q Hq Hqual).
  cbv beta in Hmin. rewrite Hrec in Hmin. unfold time_at in Hmin at 2.
  rewrite lookup_insert_ne in Hmin by done. fold (time_at (lastUsed s) (ID q)) in Hmin.
  assert (Hp' : ID p' ≠ ID p).
  { intros Heq. rewrite Heq in Hmin. unfold time_at in Hmin at 1.
    rewrite lookup_insert_eq in Hmin. simpl in Hmin. lia. }
  split; [done|]. unfold time_at in Hmin at 1.
  by rewrite lookup_insert_ne in Hmin.
Qed.

End Fairness.

Lemma dispatch_records_witness :
  ∃ s' p,
    dispatch merge_sort_Slice NewProxyScheduler [proxy_a; proxy_b]
      (task_of StrategyLeastUsed "") (30 * Second) (mkRand 0.5 7)
    = Returns (s', Selected p)
    ∧ mu NewProxyScheduler = RWMutex_free ∧ mu s' = RWMutex_free
    ∧ lastUsed s' = <[ID p := 30 * Second]> (lastUsed NewProxyScheduler)
    ∧ useCount s'
      = <[ID p := GoInt.incr (int_at (useCount NewProxyScheduler) (ID p))]>
          (useCount NewProxyScheduler)
    ∧ failCount s' = <[ID p := 0]> (failCount NewProxyScheduler)
    ∧ cooldown s' !! ID p = None
    ∧ (∀ id, id ≠ ID p →
             cooling s' id (30 * Second) = cooling NewProxyScheduler id (30 * Second)).
Proof.
  destruct (dispatch merge_sort_Slice NewProxyScheduler [proxy_a; proxy_b]
              (task_of StrategyLeastUsed "") (30 * Second) (mkRand 0.5 7))
    as [[s' [p|err]]| |] eqn:E; [|vm_compute in E; discriminate..].
  exists s', p. split; [done|].
  exact (dispatch_records_the_selection merge_sort_Slice NewProxyScheduler
           [proxy_a; proxy_b] (task_of StrategyLeastUsed "") (30 * Second)
           (mkRand 0.5 7) s' p E).
Defined.

Lemma roundRobinSchedule_turns_witness :
  ∃ s1 p s2 p',
    roundRobinSchedule merge_sort_Slice NewProxyScheduler [proxy_a; fresh_2]
      (task_of StrategyRoundRobin "") (30 * Second) = Returns (s1, Selected p)
    ∧ roundRobinSchedule merge_sort_Slice s1 [proxy_a; fresh_2]
        (task_of StrategyRoundRobin "") (40 * Second) = Returns (s2, Selected p')
    ∧ ID p' ≠ ID p
    ∧ time_at (lastUsed NewProxyScheduler) (ID p')
      <= time_at (lastUsed NewProxyScheduler) (ID fresh_2).
Proof.
  destruct (roundRobinSchedule merge_sort_Slice NewProxyScheduler [proxy_a; fresh_2]
              (task_of StrategyRoundRobin "") (30 * Second))
    as [[s1 [p|err]]| |] eqn:E1; [|vm_compute in E1; discriminate..].
  assert (Hp : ID p = 1%N ∧ (isProxyQualified s1 fresh_2 (task_of StrategyRoundRobin "")
                               (40 * Second)).1 = true).
  { vm_compute in E1. injection E1 as <- <-. split; reflexivity. }
  destruct Hp as [Hp Hq].
  destruct (roundRobinSchedule merge_sort_Slice s1 [proxy_a; fresh_2]
              (task_of StrategyRoundRobin "") (40 * Second))
    as [[s2 [p'|err]]| |] eqn:E2.
  - exists s1, p, s2, p'. split; [done|]. split; [done|].
    apply (roundRobinSchedule_takes_turns merge_sort_Slice merge_sort_Slice_perm
             merge_sort_Slice_sorted NewProxyScheduler [proxy_a; fresh_2]
             (task_of StrategyRoundRobin "") (30 * Second) (40 * Second)
             s1 p s2 p' fresh_2 E1 E2).
    + apply elem_of_cons. right. by apply list_elem_of_singleton.
    + exact Hq.
    + reflexivity.
    + rewrite Hp. discriminate.
  - vm_compute in E1. injection E1 as <- <-. vm_compute in E2. discriminate.
  - vm_compute in E1. injection E1 as <- <-. vm_compute in E2. discriminate.
  - vm_compute in E1. injection E1 as <- <-. vm_compute in E2. discriminate.
Defined.
